(** * Image optimisation jobs: processing engine and dispatch scheduler

    A shallow embedding of [backend/jobs/services.py] (geometry, naming,
    settings resolution, job orchestration) and of the claim step of
    [backend/jobs/management/commands/worker.py], with the properties the
    specification states about them; and of the code around them: the
    preset listing of [backend/jobs/presets.py], the checks of crops and
    formats of [backend/jobs/views.py], the format resolvers, the analysis
    recommendations, the loop over formats and scales of a file and the
    rounds of the worker, with the properties the code itself shows.

    Part I holds the definitions, in the order of the components of the
    specification; Part II holds the lemmas and theorems. *)

From Stdlib Require Import ZArith QArith Qround Qabs Qpower Qreduction Lia Lqa.
From Stdlib Require PrimFloat FloatOps SpecFloat Uint63.
From stdpp Require Import base option list strings gmap pretty sorting.

(* ===================================================================== *)
(** * Part I: definitions *)
(* ===================================================================== *)

(** ** Python exceptions and fallible computations *)

(** The exception classes the code raises or inspects.  [ValueError]
    carries [str(exc)] and [OSError] its [errno].  [Subclass name base] is
    an instance of the class [name] derived from the class of [base], with
    the attributes of [base]: [isinstance] holds of it wherever it holds
    of [base] ([UnicodeDecodeError] derives from [ValueError],
    [FileNotFoundError] from [OSError]).  [OtherError] stands for any
    other subclass of [Exception], named by its class. *)
Inductive exn : Type :=
| ZeroDivisionError
| ValueError (msg : string)
| UnidentifiedImageError
| MemoryError
| PermissionError
| OSError (errno : option Z)
| Subclass (class_name : string) (base : exn)
| OtherError (class_name : string).

Inductive result (A : Type) : Type :=
| Ok (a : A)
| Raise (e : exn).
Arguments Ok {A} a.
Arguments Raise {A} e.

#[global] Instance result_ret : MRet result := fun A a => Ok a.
#[global] Instance result_bind : MBind result :=
  fun A B f r => match r with Ok a => f a | Raise e => Raise e end.

(** ** Python floats

    A Python [float] is an IEEE 754 binary64 number.  Finite values are
    modelled by the rational they denote; every arithmetic operation is
    the exact operation followed by [rnd], rounding to nearest, ties to
    even, on 53 significant bits, with the gradual underflow of the format
    (no exponent below [emin]).  Infinities and NaN are not modelled: the
    code only combines pixel dimensions, file counts and fractions of the
    unit interval, and rounding never carries a value past a power of two
    (lemma [rnd_within_pow2]), so every magnitude stays far below 2^1024. *)
Module Float64.
Local Open Scope Q_scope.

Definition prec : Z := 53.
Definition emin : Z := -1074.

(** [ilog2 q] is the integer part of the binary logarithm of [q > 0]. *)
Definition ilog2 (q : Q) : Z :=
  let k := (Z.log2 (Qnum q) - Z.log2 (Zpos (Qden q)))%Z in
  if Qle_bool (2 ^ k) q then k else (k - 1)%Z.

(** Rounding to the nearest integer, ties to the even one. *)
Definition round_half_even (q : Q) : Z :=
  let f := Qfloor q in
  match Qcompare (q - inject_Z f) (1 # 2) with
  | Lt => f
  | Gt => (f + 1)%Z
  | Eq => if Z.even f then f else (f + 1)%Z
  end.

Definition round_pos (q : Q) : Q :=
  let e := Z.max (ilog2 q - (prec - 1)) emin in
  inject_Z (round_half_even (q / 2 ^ e)) * 2 ^ e.

Definition rnd (q : Q) : Q :=
  let q := Qred q in
  match Qcompare q 0 with
  | Eq => 0
  | Gt => Qred (round_pos q)
  | Lt => Qred (- round_pos (- q))
  end.

Definition Qlt_bool (a b : Q) : bool := negb (Qle_bool b a).

(** [float(n)] for an [int]. *)
Definition float (n : Z) : Q := rnd (inject_Z n).

Definition fadd (a b : Q) : Q := rnd (a + b).
Definition fmul (a b : Q) : Q := rnd (a * b).

(** [a / b] on floats. *)
Definition fdiv (a b : Q) : result Q :=
  if Qeq_bool b 0 then Raise ZeroDivisionError else Ok (rnd (a / b)).

(** [a / b] on two [int]s: the correctly rounded quotient. *)
Definition int_truediv (a b : Z) : result Q :=
  if (b =? 0)%Z then Raise ZeroDivisionError
  else Ok (rnd (inject_Z a / inject_Z b)).

(** [max(a, b)] and [min(a, b)] keep the first argument unless the second
    is strictly better. *)
Definition py_max (a b : Q) : Q := if Qlt_bool a b then b else a.
Definition py_min (a b : Q) : Q := if Qlt_bool b a then b else a.

(** [int(x)]: truncation towards zero. *)
Definition py_int (x : Q) : Z := if Qle_bool 0 x then Qfloor x else Qceiling x.

(** [math.ceil(x)] and [round(x)]. *)
Definition math_ceil (x : Q) : Z := Qceiling x.
Definition py_round (x : Q) : Z := round_half_even x.

(** The finite binary64 numbers: a significand below 2^53 scaled by a
    power of two not below the least exponent. *)
Definition representable (q : Q) : Prop :=
  exists m e : Z, q == inject_Z m * 2 ^ e /\ (Z.abs m < 2 ^ 53)%Z /\ (emin <= e)%Z.

(** The same operations on the primitive binary64 numbers of the proof
    assistant, to compare [rnd] with the hardware rounding on samples. *)
Definition of_binary64 (f : PrimFloat.float) : option Q :=
  match FloatOps.Prim2SF f with
  | SpecFloat.S754_zero _ => Some 0
  | SpecFloat.S754_finite s m e =>
    Some ((if s then - inject_Z (Zpos m) else inject_Z (Zpos m)) * 2 ^ e)
  | _ => None
  end.

Definition binary64_of_int (n : Z) : PrimFloat.float :=
  PrimFloat.of_uint63 (Uint63.of_Z n).

Definition same_value (a : option Q) (b : Q) : bool :=
  match a with
  | Some q => Qeq_bool q b
  | None => false
  end.

Definition agree_on_quotient (ab : Z * Z) : bool :=
  same_value
    (of_binary64 (PrimFloat.div (binary64_of_int (fst ab)) (binary64_of_int (snd ab))))
    (rnd (inject_Z (fst ab) / inject_Z (snd ab))).

Definition agree_on_percent (ab : Z * Z) : bool :=
  same_value
    (of_binary64
       (PrimFloat.mul
          (PrimFloat.div (binary64_of_int (fst ab)) (binary64_of_int (snd ab)))
          (binary64_of_int 100)))
    (fmul (rnd (inject_Z (fst ab) / inject_Z (snd ab))) (float 100)).

End Float64.

(** ** GeometryEngine: crop and resize *)
Module Geometry.
Import Float64.
Local Open Scope Z_scope.

(** Of a PIL image the geometry only reads the size and the colour mode. *)
Record Image : Type := { width : Z; height : Z; mode : string }.

(** PIL stores the sizes in C [int]s, and an opened image has at least
    one pixel. *)
Definition INT_MAX : Z := 2147483647.
Definition valid_size (im : Image) : Prop :=
  1 <= width im <= INT_MAX /\ 1 <= height im <= INT_MAX.

Definition Box : Type := (Z * Z * Z * Z)%type.

(** [image.crop((left, top, right, bottom))] *)
Definition crop (im : Image) (box : Box) : Image :=
  let '(x0, y0, x1, y1) := box in
  {| width := x1 - x0; height := y1 - y0; mode := mode im |}.

(** What the installation can hold: [can_allocate w h] tells whether PIL
    gets the memory of a new image of [w] by [h] pixels. *)
Class Memory : Type := { can_allocate : Z -> Z -> bool }.

(** [image.resize((w, h), Image.LANCZOS)]: PIL refuses a size with a side
    below 1 with [ValueError], and raises [MemoryError] when it cannot get
    the memory of the new image.  An image no larger on either axis than
    the one it is made from is taken to fit. *)
Definition RESIZE_EMPTY : string := "height and width must be > 0".

Definition resize `{Memory} (im : Image) (w h : Z) : result Image :=
  if (w <? 1) || (h <? 1) then Raise (ValueError RESIZE_EMPTY)
  else if (w <=? width im) && (h <=? height im) || can_allocate w h
  then Ok {| width := w; height := h; mode := mode im |}
  else Raise MemoryError.

(** [image.convert(m)] *)
Definition convert (im : Image) (m : string) : Image :=
  {| width := width im; height := height im; mode := m |}.

Definition NO_UPSCALE_NOTE : string :=
  "Sin upscaling: el original es menor que el objetivo; se exportó al máximo posible.".

Record CropData : Type := {
  crop_mode : string;
  crop_x : option Q;
  crop_y : option Q;
  crop_w : option Q;
  crop_h : option Q
}.

(** [_apply_manual_crop] (services.py, lines 291-309), in two steps: the
    rectangle, [None] when one of the four fractions is missing, and the
    crop to it. *)
Definition manual_crop_box (image : Image) (crop_data : CropData) : option Box :=
  match crop_x crop_data, crop_y crop_data, crop_w crop_data, crop_h crop_data with
  | Some cx, Some cy, Some cw, Some ch =>
    let left := py_round (fmul cx (float (width image))) in
    let top := py_round (fmul cy (float (height image))) in
    let right := py_round (fmul (fadd cx cw) (float (width image))) in
    let bottom := py_round (fmul (fadd cy ch) (float (height image))) in
    let left := Z.max 0 (Z.min left (width image - 1)) in
    let top := Z.max 0 (Z.min top (height image - 1)) in
    let right := Z.max (left + 1) (Z.min right (width image)) in
    let bottom := Z.max (top + 1) (Z.min bottom (height image)) in
    Some (left, top, right, bottom)
  | _, _, _, _ => None
  end.

Definition _apply_manual_crop (image : Image) (crop_data : CropData) : Image :=
  match manual_crop_box image crop_data with
  | Some box => crop image box
  | None => image
  end.

(** [_ensure_mode] (lines 312-322) *)
Definition _ensure_mode (image : Image) (keep_alpha : bool) : Image :=
  if keep_alpha then
    if bool_decide (mode image = "RGBA" \/ mode image = "LA") then image
    else if bool_decide (mode image = "P") then convert image "RGBA"
    else convert image "RGBA"
  else if bool_decide (mode image = "RGB") then image
  else convert image "RGB".

(** [_merge_notes] (lines 325-330) *)
Definition _merge_notes (existing extra : string) : string :=
  if bool_decide (extra = "") then existing
  else if bool_decide (existing = "") then extra
  else existing +:+ " " +:+ extra.

(** The clamp of the scale factor, the same in the two resize modes:
    [if no_upscale and ratio > 1.0: ratio = 1.0; note = NO_UPSCALE_NOTE]. *)
Definition clamp_ratio (no_upscale : bool) (ratio : Q) : Q * string :=
  if no_upscale && Qlt_bool 1 ratio then (1%Q, NO_UPSCALE_NOTE) else (ratio, "").

(** [_resize_contain] (lines 333-351) *)
Definition _resize_contain `{Memory} (image : Image) (target_width target_height : Z)
    (no_upscale : bool) : result (Image * string) :=
  rw ← fdiv (float target_width) (float (width image));
  rh ← fdiv (float target_height) (float (height image));
  let '(ratio, note) := clamp_ratio no_upscale (py_min rw rh) in
  if Qeq_bool ratio 1 then Ok (image, note)
  else
    let w := Z.max 1 (py_int (fmul (float (width image)) ratio)) in
    let h := Z.max 1 (py_int (fmul (float (height image)) ratio)) in
    resized ← resize image w h;
    Ok (resized, note).

(** [_resize_cover] (lines 354-398), in two steps.  The first (lines
    361-373) scales the image and sets the note. *)
Definition cover_scale `{Memory} (image : Image) (target_width target_height : Z)
    (no_upscale : bool) : result (Image * string) :=
  rw ← fdiv (float target_width) (float (width image));
  rh ← fdiv (float target_height) (float (height image));
  let '(ratio, note) := clamp_ratio no_upscale (py_max rw rh) in
  resized ←
    (if Qeq_bool ratio 1 then Ok image
     else resize image (math_ceil (fmul (float (width image)) ratio))
                       (math_ceil (fmul (float (height image)) ratio)));
  Ok (resized, note).

(** The second (lines 375-398) crops around the centre, to the target
    size when the scaled image reaches it on both axes and to the target
    aspect ratio otherwise. *)
Definition cover_crop (resized : Image) (target_width target_height : Z) : result Image :=
  if (target_width <=? width resized) && (target_height <=? height resized) then
    l ← int_truediv (width resized - target_width) 2;
    t ← int_truediv (height resized - target_height) 2;
    let left := py_int l in
    let top := py_int t in
    let right := left + target_width in
    let bottom := top + target_height in
    Ok (crop resized (left, top, right, bottom))
  else
    target_aspect ← fdiv (float target_width) (float target_height);
    input_aspect ← fdiv (float (width resized)) (float (height resized));
    '(crop_width, crop_height) ←
      (if Qlt_bool target_aspect input_aspect then
         Ok (py_round (fmul (float (height resized)) target_aspect), height resized)
       else
         q ← fdiv (float (width resized)) target_aspect;
         Ok (width resized, py_round q));
    let crop_width := Z.min crop_width (width resized) in
    let crop_height := Z.min crop_height (height resized) in
    l ← int_truediv (width resized - crop_width) 2;
    t ← int_truediv (height resized - crop_height) 2;
    let left := py_int l in
    let top := py_int t in
    let right := left + crop_width in
    let bottom := top + crop_height in
    Ok (crop resized (left, top, right, bottom)).

Definition _resize_cover `{Memory} (image : Image) (target_width target_height : Z)
    (no_upscale : bool) : result (Image * string) :=
  '(resized, note) ← cover_scale image target_width target_height no_upscale;
  out ← cover_crop resized target_width target_height;
  Ok (out, note).

Record ReportMeta : Type := {
  input_width : Z;
  input_height : Z;
  output_width : Z;
  output_height : Z;
  resize_mode : option string;
  no_upscale_applied : bool;
  note : string
}.

(** [_prepare_image] (lines 240-288).  A missing or zero target dimension
    is falsy. *)
Definition truthy_dim (d : option Z) : option Z :=
  match d with
  | Some v => if v =? 0 then None else Some v
  | None => None
  end.

Definition _prepare_image `{Memory} (image : Image) (target_size : option Z * option Z)
    (resize_mode : string) (no_upscale : bool) (crop_data : option CropData)
    (keep_alpha : bool) : result (Image * ReportMeta) :=
  let image := _ensure_mode image keep_alpha in
  let input_width := width image in
  let input_height := height image in
  match truthy_dim (fst target_size), truthy_dim (snd target_size) with
  | Some target_width, Some target_height =>
    let '(image, note0) :=
      match crop_data with
      | Some cd =>
        if bool_decide (crop_mode cd = "manual")
        then (_apply_manual_crop image cd, "Recorte manual aplicado.")
        else (image, "")
      | None => (image, "")
      end in
    if bool_decide (resize_mode = "cover") then
      '(resized, note) ← _resize_cover image target_width target_height no_upscale;
      Ok (resized,
          {| input_width := input_width; input_height := input_height;
             output_width := width resized; output_height := height resized;
             resize_mode := Some "cover";
             no_upscale_applied := negb (bool_decide (note = ""));
             note := _merge_notes note0 note |})
    else
      '(resized, note) ← _resize_contain image target_width target_height no_upscale;
      Ok (resized,
          {| input_width := input_width; input_height := input_height;
             output_width := width resized; output_height := height resized;
             resize_mode := Some "contain";
             no_upscale_applied := negb (bool_decide (note = ""));
             note := _merge_notes note0 note |})
  | _, _ =>
    Ok (image,
        {| input_width := input_width; input_height := input_height;
           output_width := input_width; output_height := input_height;
           resize_mode := None; no_upscale_applied := false; note := "" |})
  end.

(** An installation for the examples: PIL gets the memory of images of up
    to a thousand million pixels. *)
Definition demo_memory : Memory :=
  {| can_allocate := fun w h => w * h <=? 1000000000 |}.

End Geometry.

(** ** NamingEngine: normalisation and uniqueness of file names *)
Module Naming.

(** A Python [str] is the sequence of its Unicode code points. *)
Definition pystr : Type := list N.

(** The code points of an ASCII literal. *)
Definition of_string (s : string) : pystr :=
  map Ascii.N_of_ascii (String.list_ascii_of_string s).

Definition SPACE : N := 32.
Definition DASH : N := 45.

(** The Unicode tables behind [unicodedata.normalize('NFD', _)],
    [unicodedata.category(_) == 'Mn'] and [str.lower] belong to the Python
    library; the code is embedded over any such tables. *)
Class Unicode : Type := {
  nfd : pystr -> pystr;
  category_Mn : N -> bool;
  lower : pystr -> pystr
}.

(** The tables restricted to ASCII: below code point 128 nothing
    decomposes, nothing is a non-spacing mark and only A-Z change case.
    They agree with Python on every string of code points below 128. *)
Definition ascii_lower_char (c : N) : N :=
  if ((65 <=? c) && (c <=? 90))%N then (c + 32)%N else c.

Definition ascii_unicode : Unicode :=
  {| nfd := fun text => text;
     category_Mn := fun _ => false;
     lower := map ascii_lower_char |}.

(** [Path(name).stem] and [Path(name).suffix] belong to [pathlib]. *)
Class Pathlib : Type := {
  path_stem : pystr -> pystr;
  path_suffix : pystr -> pystr
}.

(** [pathlib] on a name without directory separator: the suffix starts at
    the last dot, unless that dot opens or closes the name. *)
Fixpoint rfind_aux (c : N) (text : pystr) (i : nat) (found : option nat) : option nat :=
  match text with
  | [] => found
  | x :: rest => rfind_aux c rest (S i) (if (x =? c)%N then Some i else found)
  end.

Definition rfind (c : N) (text : pystr) : option nat := rfind_aux c text 0 None.

Definition DOT : N := 46.

Definition suffix_index (name : pystr) : option nat :=
  match rfind DOT name with
  | Some i => if bool_decide (0 < i < length name - 1) then Some i else None
  | None => None
  end.

Definition flat_pathlib : Pathlib :=
  {| path_stem := fun name =>
       match suffix_index name with Some i => take i name | None => name end;
     path_suffix := fun name =>
       match suffix_index name with Some i => drop i name | None => [] end |}.

(** [text.replace(old, new)] for a one-character [old]. *)
Definition replace_char (old : N) (new : pystr) (text : pystr) : pystr :=
  flat_map (fun c => if (c =? old)%N then new else [c]) text.

(** ['--' in text] *)
Fixpoint has_double_dash (text : pystr) : bool :=
  match text with
  | [] => false
  | c :: rest =>
    match rest with
    | c' :: _ => ((c =? DASH)%N && (c' =? DASH)%N) || has_double_dash rest
    | [] => false
    end
  end.

(** [text.replace('--', '-')]: the occurrences are taken from the left and
    do not overlap. *)
Fixpoint replace_double_dash (text : pystr) : pystr :=
  match text with
  | [] => []
  | c :: rest =>
    match rest with
    | c' :: rest' =>
      if ((c =? DASH)%N && (c' =? DASH)%N) then DASH :: replace_double_dash rest'
      else c :: replace_double_dash rest
    | [] => [c]
    end
  end.

(** [while '--' in text: text = text.replace('--', '-')].  Every round
    shortens the text, so its length bounds the number of rounds. *)
Fixpoint collapse_loop (fuel : nat) (text : pystr) : pystr :=
  match fuel with
  | O => text
  | S fuel' =>
    if has_double_dash text then collapse_loop fuel' (replace_double_dash text)
    else text
  end.

Definition collapse (text : pystr) : pystr := collapse_loop (length text) text.

(** [text.strip(chars)] *)
Fixpoint lstrip (chars : pystr) (text : pystr) : pystr :=
  match text with
  | [] => []
  | c :: rest => if bool_decide (c ∈ chars) then lstrip chars rest else text
  end.

Definition rstrip (chars : pystr) (text : pystr) : pystr :=
  reverse (lstrip chars (reverse text)).

Definition strip (chars : pystr) (text : pystr) : pystr :=
  rstrip chars (lstrip chars text).

(** [replace_spaces or '-'] *)
Definition strip_chars (replace_spaces : option pystr) : pystr :=
  match replace_spaces with
  | Some (c :: r) => c :: r
  | _ => [DASH]
  end.

(** [_normalize_name] (services.py, lines 1415-1434); the accent step is
    [''.join(char for char in normalize('NFD', text) if category(char) != 'Mn')]. *)
Definition remove_accents_step `{Unicode} (text : pystr) : pystr :=
  filter (fun c => category_Mn c = false) (nfd text).

Definition _normalize_name `{Unicode} (value : pystr) (lowercase remove_accents : bool)
    (replace_spaces : option pystr) (collapse_dashes : bool) : pystr :=
  let text := value in
  let text := if remove_accents then remove_accents_step text else text in
  let text := if lowercase then lower text else text in
  let text := match replace_spaces with
              | Some r => replace_char SPACE r text
              | None => text
              end in
  let text := if collapse_dashes then collapse text else text in
  strip (strip_chars replace_spaces) text.

(** The steps of [_normalize_name] that follow the accent and case steps. *)
Definition normalize_tail (replace_spaces : option pystr) (collapse_dashes : bool)
    (text : pystr) : pystr :=
  let text := match replace_spaces with
              | Some r => replace_char SPACE r text
              | None => text
              end in
  let text := if collapse_dashes then collapse text else text in
  strip (strip_chars replace_spaces) text.

(** [str(counter)] *)
Definition str_of_nat (n : nat) : pystr := of_string (pretty n).

(** [f"{base}-{counter}{suffix}"] *)
Definition candidate (base sfx : pystr) (counter : nat) : pystr :=
  base ++ [DASH] ++ str_of_nat counter ++ sfx.

(** The [while True] search of [_ensure_unique_name], for at most [fuel]
    values of the counter. *)
Fixpoint unique_loop (fuel : nat) (base sfx : pystr) (used_names : gset pystr)
    (counter : nat) : option pystr :=
  match fuel with
  | O => None
  | S fuel' =>
    if bool_decide (candidate base sfx counter ∉ used_names)
    then Some (candidate base sfx counter)
    else unique_loop fuel' base sfx used_names (S counter)
  end.

(** [_ensure_unique_name] (lines 526-537); the search gets one more round
    than there are used names, which suffices (see
    [ensure_unique_name_fresh]). *)
Definition _ensure_unique_name `{Pathlib} (name : pystr) (used_names : gset pystr)
    : option pystr :=
  if bool_decide (name ∉ used_names) then Some name
  else unique_loop (S (size used_names)) (path_stem name) (path_suffix name) used_names 2.

(** The first character of a text is not one of the stripped ones. *)
Definition head_ok (chars text : pystr) : Prop :=
  match text with
  | c :: _ => c ∉ chars
  | [] => True
  end.

(** The replacement for spaces holds no space. *)
Definition space_free (replace_spaces : option pystr) : Prop :=
  match replace_spaces with
  | Some r => SPACE ∉ r
  | None => True
  end.

(** The replacement for spaces is in lower case. *)
Definition lower_stable (replace_spaces : option pystr) : Prop :=
  match replace_spaces with
  | Some r => map ascii_lower_char r = r
  | None => True
  end.

End Naming.

(** ** Data model: jobs, files and presets *)

Module Job.

Inductive Status : Type := PENDING | PROCESSING | PAUSED | CANCELED | DONE | FAILED.

#[global] Instance Status_eq_dec : EqDecision Status.
Proof. solve_decision. Defined.

(** The columns of [Job] that the engine reads or writes; the timestamps
    are left out, no decision depends on them. *)
Record t : Type := mk {
  id : Z;
  preset : string;
  status : Status;
  progress : Z;
  total_files : Z;
  processed_files : Z;
  result_zip : option string;
  error_message : string
}.

Definition with_status (v : Status) (j : t) : t :=
  mk (id j) (preset j) v (progress j) (total_files j) (processed_files j)
     (result_zip j) (error_message j).
Definition with_progress (v : Z) (j : t) : t :=
  mk (id j) (preset j) (status j) v (total_files j) (processed_files j)
     (result_zip j) (error_message j).
Definition with_processed_files (v : Z) (j : t) : t :=
  mk (id j) (preset j) (status j) (progress j) (total_files j) v
     (result_zip j) (error_message j).
Definition with_result_zip (v : option string) (j : t) : t :=
  mk (id j) (preset j) (status j) (progress j) (total_files j) (processed_files j)
     v (error_message j).
Definition with_error_message (v : string) (j : t) : t :=
  mk (id j) (preset j) (status j) (progress j) (total_files j) (processed_files j)
     (result_zip j) v.

End Job.

Module JobFile.

Inductive Status : Type := PENDING | PROCESSING | DONE | FAILED.

#[global] Instance Status_eq_dec : EqDecision Status.
Proof. solve_decision. Defined.

(** The columns of [JobFile] read or written by the orchestration and by
    the choice of the preset. *)
Record t : Type := mk {
  id : Z;
  status : Status;
  error_message : string;
  selected_preset_id : option string;
  recommended_preset_id : string;
  output_name : Naming.pystr;
  output_size : option Z;
  output_width : option Z;
  output_height : option Z
}.

Definition with_status (v : Status) (f : t) : t :=
  mk (id f) v (error_message f) (selected_preset_id f) (recommended_preset_id f)
     (output_name f) (output_size f) (output_width f) (output_height f).
Definition with_error_message (v : string) (f : t) : t :=
  mk (id f) (status f) v (selected_preset_id f) (recommended_preset_id f)
     (output_name f) (output_size f) (output_width f) (output_height f).
Definition with_recommended_preset_id (v : string) (f : t) : t :=
  mk (id f) (status f) (error_message f) (selected_preset_id f) v
     (output_name f) (output_size f) (output_width f) (output_height f).
Definition with_output (name : Naming.pystr) (size w h : option Z) (f : t) : t :=
  mk (id f) (status f) (error_message f) (selected_preset_id f)
     (recommended_preset_id f) name size w h.

End JobFile.

(** ** Preset catalog and SettingsResolver *)
Module Presets.

Record Preset : Type := {
  id : string;
  label : string;
  width : option Z;
  height : option Z
}.

(** The rows of [PresetCustom] and the ["presets"] list of the base JSON. *)
Record Catalog : Type := {
  custom : list Preset;
  base : list Preset
}.

Definition has_id (preset_id : string) (p : Preset) : bool :=
  bool_decide (id p = preset_id).

(** [get_preset] (presets.py, lines 30-39): a custom preset shadows a base
    preset of the same id. *)
Definition get_preset (c : Catalog) (preset_id : string) : option Preset :=
  match List.find (has_id preset_id) (custom c) with
  | Some p => Some p
  | None => List.find (has_id preset_id) (base c)
  end.

(** The truth value of an optional string: [None] and [""] are falsy. *)
Definition truthy (s : option string) : option string :=
  match s with
  | Some v => if bool_decide (v = "") then None else Some v
  | None => None
  end.

(** [_resolve_effective_preset] (services.py, lines 1484-1494) *)
Definition _resolve_effective_preset (c : Catalog) (job_file : JobFile.t) (job : Job.t)
    : option Preset :=
  match truthy (JobFile.selected_preset_id job_file) with
  | Some selected => get_preset c selected
  | None =>
    let from_job :=
      match truthy (Some (Job.preset job)) with
      | Some p => get_preset c p
      | None => None
      end in
    match from_job with
    | Some preset => Some preset
    | None =>
      match truthy (Some (JobFile.recommended_preset_id job_file)) with
      | Some recommended => get_preset c recommended
      | None => head (base c)
      end
    end
  end.

(** The precedence chain in the words of the specification: the first of
    the three identifiers that is set decides, the first catalog entry
    otherwise. *)
Definition precedence_chain (c : Catalog) (job_file : JobFile.t) (job : Job.t)
    : option Preset :=
  match truthy (JobFile.selected_preset_id job_file) with
  | Some selected => get_preset c selected
  | None =>
    match truthy (Some (Job.preset job)) with
    | Some p => get_preset c p
    | None =>
      match truthy (Some (JobFile.recommended_preset_id job_file)) with
      | Some recommended => get_preset c recommended
      | None => head (base c)
      end
    end
  end.

(** The same chain read the other way: an identifier decides only if the
    catalog holds a preset of that name. *)
Definition first_found_chain (c : Catalog) (job_file : JobFile.t) (job : Job.t)
    : option Preset :=
  let lookup (s : option string) : option Preset :=
    match truthy s with
    | Some v => get_preset c v
    | None => None
    end in
  match lookup (JobFile.selected_preset_id job_file) with
  | Some p => Some p
  | None =>
    match lookup (Some (Job.preset job)) with
    | Some p => Some p
    | None =>
      match lookup (Some (JobFile.recommended_preset_id job_file)) with
      | Some p => Some p
      | None => head (base c)
      end
    end
  end.

(** A job preset that the catalog does not hold counts as not set. *)
Definition forget_unknown_preset (c : Catalog) (job : Job.t) : Job.t :=
  match get_preset c (Job.preset job) with
  | Some _ => job
  | None =>
    Job.mk (Job.id job) "" (Job.status job) (Job.progress job) (Job.total_files job)
      (Job.processed_files job) (Job.result_zip job) (Job.error_message job)
  end.

(** A small catalog and plain rows for the examples. *)
Definition hero : Preset :=
  {| id := "hero-1920"; label := "Hero"; width := Some 1920%Z; height := Some 1080%Z |}.
Definition ig_post : Preset :=
  {| id := "ig-post"; label := "Instagram"; width := Some 1080%Z; height := Some 1080%Z |}.
Definition base_only : Catalog := {| custom := []; base := [hero; ig_post] |}.

Definition plain_file (selected : option string) (recommended : string) : JobFile.t :=
  JobFile.mk 1 JobFile.PENDING "" selected recommended [] None None None.
Definition plain_job (preset : string) : Job.t :=
  Job.mk 1 preset Job.PENDING 0 1 0 None "".

End Presets.

(** ** JobOrchestrator *)
Module Orchestrator.
Import Float64 Geometry Naming Presets.

(** What the per-file pipeline hands back for the primary output: its
    name, the number of its bytes, and the sizes of the report, missing
    when no primary output was rendered. *)
Record FileOutput : Type := {
  out_name : pystr;
  out_size : Z;
  out_width : option Z;
  out_height : option Z
}.

(** A report row is built from the file object and, when the file was
    rendered, from its output. *)
Record ReportRow : Type := {
  row_file : JobFile.t;
  row_output : option FileOutput
}.

(** The collaborators of the orchestrator.  The files are the rows of
    the database; its writes are taken to succeed.
    - [catalog]: the preset catalog;
    - [debug]: [SHOW_TECH_ERRORS or DEBUG or show_debug_details];
    - [MAX_IMAGE_MP]: the setting of that name (100 when absent);
    - [open_image]: [Image.open] on the original of the file of the given
      id, with the checks PIL makes itself;
    - [recommend]: the analysis of the image and the id of the preset
      that [_build_recommendation] recommends for it, empty when it
      recommends none (lines 614-618 and 948);
    - [render]: the rest of [_process_job_file] (settings, variants), on
      the file with its recommendation stored; it adds the names it gives
      out to the shared set of used names, also when it fails, and writes
      no column of [JobFile.t];
    - [storage_save]: the storage writing the primary output, returning
      the file name it chose (empty when it has none);
    - [build_zip]: [_build_zip], the archive path or nothing;
    - [refresh_status]: the status column as [refresh_from_db] reads it
      before the file of the given index. *)
Class Env : Type := {
  catalog : Catalog;
  debug : bool;
  MAX_IMAGE_MP : Z;
  open_image : Z -> result Image;
  recommend : Job.t -> Image -> result string;
  render : JobFile.t -> Job.t -> Image -> gset pystr -> result FileOutput * gset pystr;
  storage_save : JobFile.t -> FileOutput -> result pystr;
  build_zip : Job.t -> list ReportRow -> result (option string);
  refresh_status : nat -> Job.Status
}.

(** [exc.__class__.__name__] *)
Definition class_name (exc : exn) : string :=
  match exc with
  | ZeroDivisionError => "ZeroDivisionError"
  | ValueError _ => "ValueError"
  | UnidentifiedImageError => "UnidentifiedImageError"
  | MemoryError => "MemoryError"
  | PermissionError => "PermissionError"
  | OSError _ => "OSError"
  | Subclass name _ => name
  | OtherError name => name
  end.

(** [_human_error_message] (services.py, lines 25-52).  The chain of
    [isinstance] tests (lines 37-48) also holds of the instances of the
    subclasses. *)
Definition ENOSPC : Z := 28.
Definition GENERIC_ERROR : string := "Ocurrió un error al procesar la imagen.".

Fixpoint mapped_message (exc : exn) : string :=
  match exc with
  | UnidentifiedImageError => "No se pudo leer la imagen. Verifica que sea JPG/PNG/WEBP."
  | MemoryError => "Memoria insuficiente para procesar la imagen."
  | PermissionError => "Permisos insuficientes en carpeta de salida del servidor."
  | OSError (Some errno) =>
    if bool_decide (errno = ENOSPC)
    then "Espacio insuficiente para generar resultados. Libera espacio."
    else GENERIC_ERROR
  | ValueError msg => if bool_decide (msg = "") then GENERIC_ERROR else msg
  | Subclass _ base => mapped_message base
  | _ => GENERIC_ERROR
  end.

Definition _human_error_message `{Env} (exc : exn) : string :=
  let message := mapped_message exc in
  if debug then message +:+ " (detalle: " +:+ class_name exc +:+ ")" else message.

Definition TOO_LARGE : string := "Imagen demasiado grande (MP). Reduce tamaño antes.".

(** The check PIL makes itself when it opens a file: an image of more
    than twice [Image.MAX_IMAGE_PIXELS] pixels raises
    [DecompressionBombError], a direct subclass of [Exception]; the limit
    is 89478485 unless the program sets it, and the code never does. *)
Definition MAX_IMAGE_PIXELS : Z := 89478485.
Definition DecompressionBombError : exn := OtherError "DecompressionBombError".

Definition pil_open (size : Z * Z) : result Image :=
  if (2 * MAX_IMAGE_PIXELS <? size.1 * size.2)%Z then Raise DecompressionBombError
  else Ok {| Geometry.width := size.1; Geometry.height := size.2; mode := "RGB" |}.

(** [_process_job_file] (lines 595-804): the result, the row of the file
    and the shared set of used names as the call leaves them.  Lines
    611-618 are written out: the image is opened, its size is checked,
    and the recommendation is stored with the file
    ([_save_recommendation], line 950) before anything is rendered; the
    rest is [render]. *)
Definition _process_job_file `{Env} (job_file : JobFile.t) (job : Job.t)
    (used_names : gset pystr) : result FileOutput * JobFile.t * gset pystr :=
  match open_image (JobFile.id job_file) with
  | Raise exc => (Raise exc, job_file, used_names)
  | Ok image =>
    if (MAX_IMAGE_MP * 1000000 <? Geometry.width image * Geometry.height image)%Z
    then (Raise (ValueError TOO_LARGE), job_file, used_names)
    else
      match recommend job image with
      | Raise exc => (Raise exc, job_file, used_names)
      | Ok preset_id =>
        let job_file := JobFile.with_recommended_preset_id preset_id job_file in
        let '(r, used_names) := render job_file job image used_names in
        (r, job_file, used_names)
      end
  end.

(** [_save_job_file_output] (lines 807-821) *)
Definition _save_job_file_output `{Env} (job_file : JobFile.t) (out : FileOutput)
    : result JobFile.t :=
  saved_name ← storage_save job_file out;
  let name := match saved_name with [] => out_name out | _ => saved_name end in
  Ok (JobFile.with_error_message ""
        (JobFile.with_status JobFile.DONE
           (JobFile.with_output name (Some (out_size out)) (out_width out)
              (out_height out) job_file))).

(** How the [try] statement ends: the file is saved with its output, or
    an exception is raised, leaving the row of the file as it was last
    saved and the object in memory. *)
Inductive Attempt : Type :=
| Saved (saved : JobFile.t) (out : FileOutput)
| Failed (exc : exn) (row object : JobFile.t).

(** The object once [_save_job_file_output] has set its sizes (lines
    814-816), before the storage is asked to write. *)
Definition measured (job_file : JobFile.t) (out : FileOutput) : JobFile.t :=
  JobFile.with_output (JobFile.output_name job_file) (Some (out_size out))
    (out_width out) (out_height out) job_file.

(** The body of the [try] statement shared by [process_job] (lines
    103-122) and [reprocess_job_file] (lines 178-197). *)
Definition process_and_save `{Env} (job_file : JobFile.t) (job : Job.t)
    (used_names : gset pystr) : Attempt * gset pystr :=
  let '(r, job_file, used_names) := _process_job_file job_file job used_names in
  match r with
  | Raise exc => (Failed exc job_file job_file, used_names)
  | Ok out =>
    match _save_job_file_output job_file out with
    | Raise exc => (Failed exc job_file (measured job_file out), used_names)
    | Ok saved => (Saved saved out, used_names)
    end
  end.

(** The [except Exception] clause (lines 123-127 and 198-201): the status
    and the message are set, and only they are saved with the row
    ([update_fields]). *)
Definition mark_failed `{Env} (job_file : JobFile.t) (exc : exn) : JobFile.t :=
  JobFile.with_error_message (_human_error_message exc)
    (JobFile.with_status JobFile.FAILED job_file).

(** [int((processed_files / total_files) * 100) if total_files else 0]
    (line 131) *)
Definition progress_percent (processed_files total_files : Z) : Z :=
  if (total_files =? 0)%Z then 0%Z
  else match int_truediv processed_files total_files with
       | Ok q => py_int (fmul q (float 100))
       | Raise _ => 0%Z
       end.

Record LoopState : Type := {
  ls_job : Job.t;
  ls_files : list JobFile.t;
  ls_errors : bool;
  ls_used : gset pystr;
  ls_rows : list ReportRow;
  ls_saves : list Job.t
}.

Inductive LoopExit : Type :=
| Completed (st : LoopState)
| Interrupted (st : LoopState) (rest : list JobFile.t).

(** One round of the [for] loop of [process_job] (lines 100-134) on the
    file of the given index, past the pause and cancel checks. *)
Definition loop_body `{Env} (index : nat) (job_file : JobFile.t) (job : Job.t)
    (st : LoopState) : LoopState :=
  let job_file := JobFile.with_status JobFile.PROCESSING job_file in
  let '(r, used_names) := process_and_save job_file job (ls_used st) in
  let '(job_file, errors, row) :=
    match r with
    | Saved saved out =>
      (saved, ls_errors st, {| row_file := saved; row_output := Some out |})
    | Failed exc row object =>
      (mark_failed row exc, true,
       {| row_file := mark_failed object exc; row_output := None |})
    end in
  let job := Job.with_processed_files (Z.of_nat index) job in
  let job := Job.with_progress
               (progress_percent (Job.processed_files job) (Job.total_files job)) job in
  {| ls_job := job;
     ls_files := ls_files st ++ [job_file];
     ls_errors := errors;
     ls_used := used_names;
     ls_rows := ls_rows st ++ [row];
     ls_saves := ls_saves st ++ [job] |}.

(** The loop (lines 90-134), files numbered from [index]. *)
Fixpoint file_loop `{Env} (index : nat) (todo : list JobFile.t) (st : LoopState)
    : LoopExit :=
  match todo with
  | [] => Completed st
  | job_file :: rest =>
    let job := Job.with_status (refresh_status index) (ls_job st) in
    if bool_decide (Job.status job = Job.PAUSED) then
      Interrupted
        {| ls_job := job; ls_files := ls_files st; ls_errors := ls_errors st;
           ls_used := ls_used st; ls_rows := ls_rows st;
           ls_saves := ls_saves st ++ [job] |}
        (job_file :: rest)
    else if bool_decide (Job.status job = Job.CANCELED) then
      Interrupted
        {| ls_job := job; ls_files := ls_files st; ls_errors := ls_errors st;
           ls_used := ls_used st; ls_rows := ls_rows st;
           ls_saves := ls_saves st ++ [job] |}
        (job_file :: rest)
    else file_loop (S index) rest (loop_body index job_file job st)
  end.

(** The state a call leaves behind: the job, its files, and the states of
    the job at its successive [save]s. *)
Record Run : Type := {
  run_job : Job.t;
  run_files : list JobFile.t;
  run_saves : list Job.t
}.

Definition NO_PRESET : string := "El preset del trabajo no existe.".
Definition NO_ZIP : string := "No se pudo generar el ZIP de resultados.".

(** [process_job] (lines 55-149) *)
Definition process_job `{Env} (job : Job.t) (files : list JobFile.t) : Run :=
  if bool_decide (Job.status job = Job.PAUSED \/ Job.status job = Job.CANCELED) then
    {| run_job := job; run_files := files; run_saves := [] |}
  else
    match get_preset catalog (Job.preset job) with
    | None =>
      let job := Job.with_error_message NO_PRESET (Job.with_status Job.FAILED job) in
      {| run_job := job; run_files := files; run_saves := [job] |}
    | Some preset =>
      let job :=
        Job.with_error_message ""
          (Job.with_processed_files 0
             (Job.with_progress 0 (Job.with_status Job.PROCESSING job))) in
      let st := {| ls_job := job; ls_files := []; ls_errors := false; ls_used := ∅;
                   ls_rows := []; ls_saves := [job] |} in
      match file_loop 1 files st with
      | Interrupted st rest =>
        {| run_job := ls_job st; run_files := ls_files st ++ rest;
           run_saves := ls_saves st |}
      | Completed st =>
        let job := ls_job st in
        let '(job, errors) :=
          match build_zip job (ls_rows st) with
          | Ok (Some zip_path) => (Job.with_result_zip (Some zip_path) job, ls_errors st)
          | Ok None => (Job.with_error_message NO_ZIP job, true)
          | Raise exc => (Job.with_error_message (_human_error_message exc) job, true)
          end in
        let job := Job.with_status (if errors then Job.FAILED else Job.DONE) job in
        {| run_job := job; run_files := ls_files st; run_saves := ls_saves st ++ [job] |}
      end
    end.

(** [reprocess_job_file] (lines 152-222) on the file [job_file] of a job
    whose other files are [before] and [after] it: what the caller gets
    (the job, or the exception raised) and the state left behind. *)
Definition reprocess_job_file `{Env} (job : Job.t) (before : list JobFile.t)
    (job_file : JobFile.t) (after : list JobFile.t) : result Job.t * Run :=
  match get_preset catalog (Job.preset job) with
  | None =>
    (Raise (ValueError NO_PRESET),
     {| run_job := job; run_files := before ++ job_file :: after; run_saves := [] |})
  | Some preset =>
    let job := Job.with_status Job.PROCESSING job in
    let started :=
      JobFile.with_error_message "" (JobFile.with_status JobFile.PROCESSING job_file) in
    let used_names : gset pystr :=
      list_to_set (filter (fun name => name <> []) (JobFile.output_name <$> before ++ after)) in
    match process_and_save started job used_names with
    | (Failed exc row _, _) =>
      (Raise exc,
       {| run_job := job;
          run_files := before ++ mark_failed row exc :: after;
          run_saves := [job] |})
    | (Saved saved out, _) =>
      let rows :=
        ((fun f => {| row_file := f; row_output := None |}) <$> before) ++
        {| row_file := saved; row_output := Some out |} ::
        ((fun f => {| row_file := f; row_output := None |}) <$> after) in
      let job' :=
        match build_zip job rows with
        | Ok (Some zip_path) => Job.with_result_zip (Some zip_path) job
        | Ok None => Job.with_error_message NO_ZIP (Job.with_status Job.FAILED job)
        | Raise exc =>
          Job.with_error_message (_human_error_message exc)
            (Job.with_status Job.FAILED job)
        end in
      let job' := Job.with_processed_files
                    (Z.of_nat (length (before ++ job_file :: after))) job' in
      let job' := Job.with_progress 100 job' in
      let job' :=
        if bool_decide (Job.status job' <> Job.FAILED)
        then Job.with_status Job.DONE job' else job' in
      (Ok job',
       {| run_job := job'; run_files := before ++ saved :: after;
          run_saves := [job; job'] |})
    end
  end.

(** No pause or cancel request is read during the run. *)
Definition undisturbed `{Env} : Prop :=
  forall index, refresh_status index <> Job.PAUSED /\ refresh_status index <> Job.CANCELED.

Definition nondecreasing (l : list Z) : Prop :=
  forall (i j : nat) (a b : Z), i <= j -> l !! i = Some a -> l !! j = Some b -> (a <= b)%Z.

(** What a round of the loop does to a file, which keeps its id and its
    selected preset: it is failed, with a message and the output it had,
    or it is done, with no message and an output of known size in
    bytes. *)
Definition file_outcome (before after : JobFile.t) : Prop :=
  JobFile.id after = JobFile.id before /\
  JobFile.selected_preset_id after = JobFile.selected_preset_id before /\
  (JobFile.status after = JobFile.FAILED /\ JobFile.error_message after <> "" /\
   JobFile.output_name after = JobFile.output_name before /\
   JobFile.output_size after = JobFile.output_size before /\
   JobFile.output_width after = JobFile.output_width before /\
   JobFile.output_height after = JobFile.output_height before
   \/
   JobFile.status after = JobFile.DONE /\ JobFile.error_message after = "" /\
   is_Some (JobFile.output_size after)).

(** The job after the round on the file of the given index. *)
Definition job_after (index : nat) (job : Job.t) : Job.t :=
  Job.with_progress (progress_percent (Z.of_nat index) (Job.total_files job))
    (Job.with_processed_files (Z.of_nat index) job).

(** The invariant of the file loop: of [T] files at most [n] are counted,
    and the stored percentage is the one computed from the count. *)
Definition saved_ok (T n : Z) (s : Job.t) : Prop :=
  Job.total_files s = T /\ (0 <= Job.processed_files s <= n)%Z /\
  Job.progress s = progress_percent (Job.processed_files s) T.

Definition loop_inv (T n : Z) (st : LoopState) : Prop :=
  saved_ok T n (ls_job st) /\ Job.processed_files (ls_job st) = n /\
  nondecreasing (Job.processed_files <$> ls_saves st) /\
  Forall (saved_ok T n) (ls_saves st).


(** A small installation for the examples: images of the given sizes,
    opened as PIL does, a recommendation by orientation, a renderer that
    always succeeds, a storage that keeps the names. *)
Definition demo_env (dbg : bool) (cat : Catalog) (size : Z -> Z * Z) : Env :=
  {| catalog := cat;
     debug := dbg;
     MAX_IMAGE_MP := 100;
     open_image := fun file_id => pil_open (size file_id);
     recommend := fun job image =>
       Ok (if (Geometry.height image <? Geometry.width image)%Z
           then "hero-1920" else "ig-post");
     render := fun job_file job image used_names =>
       let name := of_string "salida-" ++ str_of_nat (Z.to_nat (JobFile.id job_file))
                     ++ of_string ".webp" in
       (Ok {| out_name := name; out_size := 1000;
              out_width := Some (Geometry.width image);
              out_height := Some (Geometry.height image) |},
        {[ name ]} ∪ used_names);
     storage_save := fun _ out => Ok (out_name out);
     build_zip := fun _ _ => Ok (Some "zips/resultado.zip");
     refresh_status := fun _ => Job.PROCESSING |}.

(** Files and jobs for the examples: the image of file 2 has 108 million
    pixels, the others are small. *)
Definition demo_sizes (file_id : Z) : Z * Z :=
  if (file_id =? 2)%Z then (12000, 9000)%Z else (800, 600)%Z.

Definition demo_file (file_id : Z) : JobFile.t :=
  JobFile.mk file_id JobFile.PENDING "" None "" [] None None None.

Definition demo_job (preset : string) (total : Z) : Job.t :=
  Job.mk 1 preset Job.PENDING 0 total 0 None "".

Definition demo_files (n : nat) : list JobFile.t :=
  (fun i => demo_file (Z.of_nat i)) <$> seq 1 n.

End Orchestrator.

(** ** WorkerScheduler: the claim of pending jobs *)
Module Scheduler.

(** A row of the job table as the claim reads it. *)
Record Row : Type := {
  job_id : Z;
  status : Job.Status;
  created_at : Z
}.

Definition older (a b : Row) : Prop := (created_at a <= created_at b)%Z.

#[global] Instance older_dec (a b : Row) : Decision (older a b).
Proof. unfold older. apply _. Defined.

(** [_next_jobs] (worker.py, lines 56-67), run as one transaction: the [limit] oldest pending rows
    are selected and set to processing; the selected rows are returned as
    they were read. *)
Definition _next_jobs (limit : nat) (table : list Row) : list Row * list Row :=
  let jobs :=
    take limit
      (filter (fun r => status r = Job.PENDING) (merge_sort older table)) in
  match jobs with
  | [] => ([], table)
  | _ =>
    let ids := job_id <$> jobs in
    (jobs,
     (fun r => if bool_decide (job_id r ∈ ids)
               then {| job_id := job_id r; status := Job.PROCESSING;
                       created_at := created_at r |}
               else r) <$> table)
  end.

End Scheduler.

(** ** GeometryEngine: the sizes the pipeline hands over *)
Module GeometryDomain.
Import Geometry.
Local Open Scope Z_scope.

(** A target side as a preset gives it: missing, zero (both falsy) or a
    number of pixels in the range of PIL. *)
Definition target_in_range (d : option Z) : Prop :=
  match d with
  | Some v => 0 <= v <= INT_MAX
  | None => True
  end.

(** Images for the examples. *)
Definition landscape : Image := {| width := 1600; height := 1200; mode := "RGB" |}.
Definition thumbnail : Image := {| width := 320; height := 240; mode := "P" |}.
Definition sliver : Image := {| width := 100; height := 1; mode := "RGB" |}.
Definition pixel : Image := {| width := 1; height := 1; mode := "RGB" |}.

End GeometryDomain.

(** ** API: the checks on a manual crop *)
Module CropApi.
Import Float64 Geometry.
Local Open Scope Q_scope.

(** The checks of [job_file_crop_view] (views.py, lines 248-253), repeated
    in [job_file_update_view] (lines 392-397), on the four numbers read
    with [float(...)]: the message of the first check that fails, if any.
    The sums are sums of floats. *)
Definition crop_error (crop_x crop_y crop_w crop_h : Q) : option string :=
  if negb ((Qle_bool 0 crop_x && Qle_bool crop_x 1) &&
           (Qle_bool 0 crop_y && Qle_bool crop_y 1))
  then Some "crop_x y crop_y deben estar entre 0 y 1."
  else if negb ((Qlt_bool 0 crop_w && Qle_bool crop_w 1) &&
                (Qlt_bool 0 crop_h && Qle_bool crop_h 1))
  then Some "crop_w y crop_h deben ser mayores que 0 y hasta 1."
  else if Qlt_bool 1 (fadd crop_x crop_w) || Qlt_bool 1 (fadd crop_y crop_h)
  then Some "El recorte debe estar dentro de la imagen."
  else None.

(** The crop columns the views store once the checks pass (lines 255-259
    and 398-402). *)
Definition stored_crop (crop_x crop_y crop_w crop_h : Q) : CropData :=
  {| crop_mode := "manual"; crop_x := Some crop_x; crop_y := Some crop_y;
     crop_w := Some crop_w; crop_h := Some crop_h |}.

End CropApi.

(** ** Preset catalog: categories and the listing sent to the UI *)
Module PresetList.

Definition _CATEGORY_ORDER : list string := ["web"; "redes"; "ecommerce"].
Definition _WEB_PREFIXES : list string :=
  ["hero-"; "content-"; "thumb-"; "portrait-"; "story"; "square"; "panorama"; "logo-"].
Definition _SOCIAL_PREFIXES : list string :=
  ["ig-"; "fb-"; "x-"; "thr-"; "li-"; "tt-"; "yt-"; "pin-"; "sc-"].

(** [preset_id.startswith(prefix)] for some prefix of the tuple. *)
Definition startswith_any (prefixes : list string) (preset_id : string) : bool :=
  existsb (fun prefix => String.prefix prefix preset_id) prefixes.

(** [_infer_category] (presets.py, lines 88-96), which [infer_category]
    (lines 83-85) calls. *)
Definition _infer_category (preset_id : string) : string :=
  if startswith_any _WEB_PREFIXES preset_id then "web"
  else if startswith_any _SOCIAL_PREFIXES preset_id then "redes"
  else "ecommerce".

Definition infer_category (preset_id : string) : string := _infer_category preset_id.

(** A preset of the base JSON, a row of [PresetCustom], and an entry of
    the listing.  The fields [aspect], [typeHint], [recommendedFormat] and
    [density] are copied like the label and are left out. *)
Record BasePreset : Type := {
  b_id : string;
  b_label : string;
  b_category : option string;
  b_width : option Z;
  b_height : option Z
}.

Record CustomPreset : Type := {
  c_preset_id : string;
  c_label : string;
  c_category : string;
  c_width : Z;
  c_height : Z
}.

Record Entry : Type := {
  e_id : string;
  e_label : string;
  e_category : string;
  e_width : option Z;
  e_height : option Z;
  e_source : string
}.

#[global] Instance Entry_eq_dec : EqDecision Entry.
Proof. solve_decision. Defined.

(** [value or default] on an optional string. *)
Definition str_or (value : option string) (default : string) : string :=
  match value with
  | Some v => if bool_decide (v = "") then default else v
  | None => default
  end.

(** The entry built for a base preset (lines 47-59). *)
Definition base_entry (preset : BasePreset) : Entry :=
  {| e_id := b_id preset; e_label := b_label preset;
     e_category := str_or (b_category preset) (_infer_category (b_id preset));
     e_width := b_width preset; e_height := b_height preset; e_source := "base" |}.

(** [_serialize_custom] (lines 99-112) *)
Definition _serialize_custom (custom : CustomPreset) : Entry :=
  {| e_id := c_preset_id custom; e_label := c_label custom;
     e_category := c_category custom;
     e_width := Some (c_width custom); e_height := Some (c_height custom);
     e_source := "custom" |}.

(** [grouped.setdefault(category, []).append(entry)] on a dict, which
    keeps its keys in the order of their insertion. *)
Fixpoint setdefault_append (category : string) (entry : Entry)
    (grouped : list (string * list Entry)) : list (string * list Entry) :=
  match grouped with
  | [] => [(category, [entry])]
  | (key, entries) :: rest =>
    if bool_decide (key = category) then (key, entries ++ [entry]) :: rest
    else (key, entries) :: setdefault_append category entry rest
  end.

(** [grouped.get(category, [])] *)
Fixpoint grouped_get (category : string) (grouped : list (string * list Entry))
    : list Entry :=
  match grouped with
  | [] => []
  | (key, entries) :: rest =>
    if bool_decide (key = category) then entries else grouped_get category rest
  end.

(** [list_presets_response] (lines 41-80): the list under ["presets"];
    the custom rows come in the order the table returns them. *)
Definition list_presets_response (base : list BasePreset) (custom : list CustomPreset)
    : list Entry :=
  let grouped := (fun key => (key, [])) <$> _CATEGORY_ORDER in
  let grouped :=
    foldl (fun grouped preset =>
             let entry := base_entry preset in
             setdefault_append (e_category entry) entry grouped) grouped base in
  let grouped :=
    foldl (fun grouped custom =>
             let entry := _serialize_custom custom in
             setdefault_append (str_or (Some (e_category entry)) "ecommerce") entry grouped)
          grouped custom in
  let ordered_presets :=
    flat_map (fun category => grouped_get category grouped) _CATEGORY_ORDER in
  ordered_presets ++
  flat_map (fun '(category, entries) =>
              if bool_decide (category ∈ _CATEGORY_ORDER) then [] else entries) grouped.

(** The category an entry is listed under. *)
Definition group_key (entry : Entry) : string :=
  str_or (Some (e_category entry)) "ecommerce".

(** The buckets of the dict: distinct keys, and in every bucket only
    entries listed under its key. *)
Definition buckets_ok (grouped : list (string * list Entry)) : Prop :=
  NoDup grouped.*1 /\
  Forall (fun b => Forall (fun e => group_key e = b.1) b.2) grouped.

Definition flatten (grouped : list (string * list Entry)) : list Entry :=
  flat_map snd grouped.

(** Presets for the examples. *)
Definition base_hero : BasePreset :=
  {| b_id := "hero-1920"; b_label := "Hero"; b_category := None;
     b_width := Some 1920%Z; b_height := Some 1080%Z |}.
Definition base_ig : BasePreset :=
  {| b_id := "ig-post"; b_label := "Instagram"; b_category := Some "redes";
     b_width := Some 1080%Z; b_height := Some 1080%Z |}.
Definition custom_print : CustomPreset :=
  {| c_preset_id := "cartel"; c_label := "Cartel"; c_category := "impresos";
     c_width := 3000; c_height := 4000 |}.

End PresetList.

(** ** SettingsResolver: output formats *)
Module Formats.
Import Presets.

Definition SUPPORTED_FORMATS : list string := ["webp"; "jpg"; "png"].

(** The columns of [JobFile] the format resolvers read; the two JSON
    columns hold lists of format names. *)
Record FileFormats : Type := {
  output_format : option string;
  output_formats : option (list string);
  recommended_formats : option (list string)
}.

(** [fallback_format if fallback_format in SUPPORTED_FORMATS else 'webp'] *)
Definition fallback_or_webp (fallback_format : string) : string :=
  if bool_decide (fallback_format ∈ SUPPORTED_FORMATS) then fallback_format else "webp".

(** [_resolve_effective_formats] (services.py, lines 1507-1517) *)
Definition _resolve_effective_formats (job_file : FileFormats) (fallback_format : string)
    : list string :=
  let formats :=
    match output_formats job_file with
    | Some (fmt :: rest) => filter (fun fmt => fmt ∈ SUPPORTED_FORMATS) (fmt :: rest)
    | _ => []
    end in
  match formats with
  | _ :: _ => formats
  | [] =>
    let from_recommended :=
      let recommended :=
        filter (fun fmt => fmt ∈ SUPPORTED_FORMATS)
               (default [] (recommended_formats job_file)) in
      match recommended with
      | _ :: _ => recommended
      | [] => [fallback_or_webp fallback_format]
      end in
    match truthy (output_format job_file) with
    | Some fmt =>
      if bool_decide (fmt ∈ SUPPORTED_FORMATS) then [fmt] else from_recommended
    | None => from_recommended
    end
  end.

(** [_resolve_primary_format] (lines 1520-1529) *)
Definition _resolve_primary_format (job_file : FileFormats) (formats : list string)
    (fallback_format : string) : string :=
  match truthy (output_format job_file) with
  | Some fmt =>
    if bool_decide (fmt ∈ formats) then fmt
    else match formats with
         | first :: _ => first
         | [] => fallback_or_webp fallback_format
         end
  | None =>
    match formats with
    | first :: _ => first
    | [] => fallback_or_webp fallback_format
    end
  end.

(** [_recommend_formats_and_quality] (lines 1063-1083) on the analysis of
    an image; [quality_defaults] is [defaults.get('quality', {})] and
    [empty] the empty dict. *)
Definition _recommend_formats_and_quality {Quality : Type} (empty : Quality)
    (quality_defaults : string -> option Quality)
    (has_transparency : bool) (analysis_type : string)
    : list string * Quality * string :=
  if bool_decide (analysis_type = "photo") && negb has_transparency then
    (["avif"; "webp"], default empty (quality_defaults "photo"),
     "Foto sin transparencia: se sugiere AVIF/WebP.")
  else
    let '(formats, notes) :=
      if has_transparency
      then (["webp"] ++ ["png"], "Imagen con transparencia: se sugiere WebP/PNG.")
      else (["webp"], "Gráfica UI: se sugiere WebP.") in
    (formats, default empty (quality_defaults "ui"), notes).

(** The part of [job_file_update_view] (views.py, lines 282-318) that
    stores the formats chosen by the user, over [str.lower]: an error
    message, or the file as stored.  A key of the request is absent
    ([None]) or present with its value. *)
Section Update.
Variable lower : string -> string.

Definition with_output_format (v : option string) (job_file : FileFormats) : FileFormats :=
  {| output_format := v; output_formats := output_formats job_file;
     recommended_formats := recommended_formats job_file |}.

(** Lines 282-294. *)
Definition update_output_format (data : option (option string)) (job_file : FileFormats)
    : string + FileFormats :=
  let value := match data with Some v => v | None => output_format job_file end in
  match truthy value with
  | Some v =>
    let v := lower v in
    if bool_decide (v ∉ ["webp"; "jpg"; "png"; "avif"]) then inl "Formato no permitido."
    else if bool_decide (v = "avif") then inl "AVIF no está disponible en este entorno."
    else inr (with_output_format (Some v) job_file)
  | None =>
    match data with
    | Some _ => inr (with_output_format None job_file)
    | None => inr job_file
    end
  end.

(** The loop of lines 300-313. *)
Fixpoint normalize_formats (raw_formats : list (option string)) (normalized : list string)
    : string + list string :=
  match raw_formats with
  | [] => inr normalized
  | None :: rest => normalize_formats rest normalized
  | Some value :: rest =>
    let fmt := lower value in
    if bool_decide (fmt = "avif") then inl "AVIF no está disponible en este entorno."
    else if bool_decide (fmt ∉ ["webp"; "jpg"; "png"]) then inl "Formato no permitido."
    else normalize_formats rest
           (if bool_decide (fmt ∈ normalized) then normalized else normalized ++ [fmt])
  end.

(** Lines 296-318; the value of the key is a list or [None]. *)
Definition update_output_formats (data : option (option (list (option string))))
    (job_file : FileFormats) : string + FileFormats :=
  match data with
  | None => inr job_file
  | Some value =>
    match normalize_formats (default [] value) [] with
    | inl error => inl error
    | inr [] => inl "Selecciona al menos un formato."
    | inr (first :: rest) =>
      let normalized := first :: rest in
      let chosen :=
        match truthy (output_format job_file) with
        | Some v => if bool_decide (v ∈ normalized) then output_format job_file
                    else Some first
        | None => Some first
        end in
      inr {| output_format := chosen; output_formats := Some normalized;
             recommended_formats := recommended_formats job_file |}
    end
  end.

Definition update_formats (data_format : option (option string))
    (data_formats : option (option (list (option string)))) (job_file : FileFormats)
    : string + FileFormats :=
  match update_output_format data_format job_file with
  | inl error => inl error
  | inr job_file => update_output_formats data_formats job_file
  end.

End Update.

(** A file as the upload creates it, with the recommendation stored by the
    analysis. *)
Definition fresh_file (has_transparency : bool) (analysis_type : string) : FileFormats :=
  {| output_format := None; output_formats := None;
     recommended_formats :=
       Some (_recommend_formats_and_quality 0%Z (fun _ => None)
               has_transparency analysis_type).1.1 |}.

End Formats.

(** ** Analysis of an image and the recommendation drawn from it *)
Module Analysis.
Import Float64 Geometry PresetList.
Local Open Scope Z_scope.

(** [a - b] on floats. *)
Definition fsub (a b : Q) : Q := rnd (a - b).

(** [_orientation_from_size] (services.py, lines 970-975) *)
Definition _orientation_from_size (width height : Z) : string :=
  if height <? width then "HORIZONTAL"
  else if width <? height then "VERTICAL"
  else "CUADRADA".

(** [min(items, key=key)] on a sequence that starts with [best]: the
    first item of least key. *)
Fixpoint min_by {A : Type} (key : A -> Q) (best : A) (items : list A) : A :=
  match items with
  | [] => best
  | item :: rest => min_by key (if Qlt_bool (key item) (key best) then item else best) rest
  end.

(** The dict of the candidate ratios (lines 982-990) in the order of its
    keys: each value is the quotient of two [int]s, that of ['1:1'] the
    [int] 1, which the subtraction of line 991 turns into a float. *)
Definition aspect_candidates : result ((string * Q) * list (string * Q)) :=
  r_16_9 ← int_truediv 16 9;
  r_4_5 ← int_truediv 4 5;
  r_9_16 ← int_truediv 9 16;
  r_4_3 ← int_truediv 4 3;
  r_3_2 ← int_truediv 3 2;
  r_21_9 ← int_truediv 21 9;
  Ok (("16:9", r_16_9),
      [("4:5", r_4_5); ("1:1", float 1); ("9:16", r_9_16); ("4:3", r_4_3);
       ("3:2", r_3_2); ("21:9", r_21_9)]).

(** [_closest_aspect_label] (lines 978-991) *)
Definition _closest_aspect_label (width height : Z) : result string :=
  if (width <=? 0) || (height <=? 0) then Ok ""
  else
    ratio ← fdiv (float width) (float height);
    candidates ← aspect_candidates;
    Ok (min_by (fun item => Qabs (fsub item.2 ratio)) candidates.1 candidates.2).1.

(** The fields of a preset the recommendation reads. *)
Record PresetInfo : Type := {
  p_id : string;
  p_label : string;
  p_category : option string;
  p_width : option Z;
  p_height : option Z
}.

(** [preset.get('category') or infer_category(preset.get('id', ''))] *)
Definition category_of (preset : PresetInfo) : string :=
  str_or (p_category preset) (infer_category (p_id preset)).

(** The function [score] of [_recommend_preset] (lines 1111-1129). *)
Definition score (original_width original_height : Z) (preset : PresetInfo) : result Q :=
  match truthy_dim (p_width preset), truthy_dim (p_height preset) with
  | Some width, Some height =>
    aspect_target ← fdiv (float width) (float height);
    aspect_src ← fdiv (float original_width) (float original_height);
    let aspect_diff := Qabs (fsub aspect_target aspect_src) in
    size_w ← fdiv (float (Z.abs (width - original_width))) (float original_width);
    size_h ← fdiv (float (Z.abs (height - original_height))) (float original_height);
    let size_diff := fadd size_w size_h in
    upscale_penalty ←
      (if (original_width <? width) || (original_height <? height) then
         up_w ← fdiv (float (Z.max (width - original_width) 0)) (float width);
         up_h ← fdiv (float (Z.max (height - original_height) 0)) (float height);
         Ok (fadd 2 (fadd up_w up_h))
       else Ok 0%Q);
    Ok (fadd (fadd (fmul aspect_diff 2) size_diff) (fmul upscale_penalty 3))
  | _, _ => Ok 9999%Q
  end.

(** The keys [min] computes, in the order of the sequence. *)
Fixpoint with_scores (original_width original_height : Z) (presets : list PresetInfo)
    : result (list (PresetInfo * Q)) :=
  match presets with
  | [] => Ok []
  | preset :: rest =>
    s ← score original_width original_height preset;
    scored ← with_scores original_width original_height rest;
    Ok ((preset, s) :: scored)
  end.

(** [_recommend_preset] (lines 1086-1131): [get_preset] is the lookup in
    the catalog, [presets] the list of the base JSON; the empty dict is
    [None].  Line 1091 comes first. *)
Definition job_preset_of (get_preset : string -> option PresetInfo)
    (job_preset_id : string) : option PresetInfo :=
  if bool_decide (job_preset_id = "") then None else get_preset job_preset_id.

Definition _recommend_preset (get_preset : string -> option PresetInfo)
    (job_preset_id : string) (original_width original_height : Z)
    (presets : list PresetInfo) : result (option PresetInfo) :=
  match presets with
  | [] => Ok None
  | _ :: _ =>
    let job_preset := job_preset_of get_preset job_preset_id in
    let filtered :=
      match job_preset with
      | Some jp =>
        match filter (fun preset => category_of preset = category_of jp) presets with
        | [] => presets
        | same_category => same_category
        end
      | None => presets
      end in
    if (original_width <=? 0) || (original_height <=? 0) then
      Ok (match job_preset with
          | Some jp => Some jp
          | None => head filtered
          end)
    else
      scored ← with_scores original_width original_height filtered;
      Ok (match scored with
          | [] => None
          | first :: rest => Some (min_by snd first rest).1
          end)
  end.

(** [_recommend_crop_mode] (lines 1134-1148) on the orientation found by
    the analysis. *)
Definition _recommend_crop_mode (orientation : string) (preset : option PresetInfo)
    : result (string * string) :=
  match preset with
  | None => Ok ("contain", "")
  | Some preset =>
    match truthy_dim (p_width preset), truthy_dim (p_height preset) with
    | Some width, Some height =>
      target_ratio ← fdiv (float width) (float height);
      if bool_decide (orientation = "HORIZONTAL") && Qle_bool target_ratio 1
      then Ok ("cover", "Se recomienda recorte para ajustar un formato vertical/cuadrado.")
      else Ok ("contain", "")
    | _, _ => Ok ("contain", "")
    end
  end.

(** The seven labels with the whole-number ratio each stands for. *)
Definition labelled_ratios : list (string * (Z * Z)) :=
  [("16:9", (16, 9)); ("4:5", (4, 5)); ("1:1", (1, 1)); ("9:16", (9, 16));
   ("4:3", (4, 3)); ("3:2", (3, 2)); ("21:9", (21, 9))].

(** The sides of a preset are set and in the range of PIL. *)
Definition sized (preset : PresetInfo) (width height : Z) : Prop :=
  p_width preset = Some width /\ p_height preset = Some height /\
  1 <= width <= INT_MAX /\ 1 <= height <= INT_MAX.

(** The sides of a preset are missing, zero or in the range of PIL. *)
Definition preset_in_range (preset : PresetInfo) : Prop :=
  GeometryDomain.target_in_range (p_width preset) /\
  GeometryDomain.target_in_range (p_height preset).

(** Presets for the examples. *)
Definition square_1080 : PresetInfo :=
  {| p_id := "ig-post"; p_label := "Instagram"; p_category := None;
     p_width := Some 1080; p_height := Some 1080 |}.
Definition wide_1920 : PresetInfo :=
  {| p_id := "hero-1920"; p_label := "Hero"; p_category := None;
     p_width := Some 1920; p_height := Some 1080 |}.
Definition story_1080 : PresetInfo :=
  {| p_id := "ig-story"; p_label := "Historia"; p_category := None;
     p_width := Some 1080; p_height := Some 1920 |}.

End Analysis.

(** ** WorkerScheduler: concurrency and the rounds of the main loop *)
Module Worker.
Import Scheduler.
Local Open Scope Z_scope.

(** [_get_concurrency] (worker.py, lines 69-77) on the stored setting. *)
Definition _get_concurrency (value : Z) : Z :=
  if value <? 1 then 1
  else if 10 <? value then 10
  else value.

(** The check of [settings_view] (views.py, line 205) on the number read
    from the request. *)
Definition concurrency_accepted (concurrency : Z) : bool :=
  (1 <=? concurrency) && (concurrency <=? 10).

(** One round of the loop of [handle] (worker.py, lines 27-38).  The
    futures are named by the job they run; [done] tells which of them have
    finished; [setting] is the stored concurrency. *)
Definition handle_round (done : Z -> bool) (setting : Z) (futures : list Z)
    (table : list Row) : list Z * list Row :=
  let futures := filter (fun f => done f = false) futures in
  let concurrency := _get_concurrency setting in
  let slots := Z.max 0 (concurrency - Z.of_nat (length futures)) in
  if 0 <? slots then
    let '(jobs, table) := _next_jobs (Z.to_nat slots) table in
    (futures ++ (job_id <$> jobs), table)
  else (futures, table).

(** A job table for the examples: job 2 is the oldest pending one. *)
Definition demo_table : list Row :=
  [ {| job_id := 1; status := Job.DONE; created_at := 10 |};
    {| job_id := 3; status := Job.PENDING; created_at := 30 |};
    {| job_id := 2; status := Job.PENDING; created_at := 20 |};
    {| job_id := 4; status := Job.PENDING; created_at := 40 |} ].

End Worker.

(** ** JobOrchestrator: reprocessing a whole job *)
Module Reprocess.
Import Naming Presets Orchestrator.

(** [reprocess_job] (services.py, lines 225-237): the counters, the status
    and the message of the job are reset, every file is set back to
    pending with no message, and the job is processed. *)
Definition reprocess_job `{Env} (job : Job.t) (files : list JobFile.t) : Run :=
  let job :=
    Job.with_error_message ""
      (Job.with_processed_files 0
         (Job.with_progress 0 (Job.with_status Job.PENDING job))) in
  let files :=
    (fun f => JobFile.with_error_message "" (JobFile.with_status JobFile.PENDING f))
      <$> files in
  process_job job files.

(** The small installation of the examples with a pause requested before
    the file of the given index. *)
Definition pausing_env (pause_at : nat) : Env :=
  {| catalog := base_only;
     debug := false;
     MAX_IMAGE_MP := 100;
     open_image := @open_image (demo_env false base_only demo_sizes);
     recommend := @recommend (demo_env false base_only demo_sizes);
     render := @render (demo_env false base_only demo_sizes);
     storage_save := @storage_save (demo_env false base_only demo_sizes);
     build_zip := @build_zip (demo_env false base_only demo_sizes);
     refresh_status := fun index =>
       if (index =? pause_at)%nat then Job.PAUSED else Job.PROCESSING |}.

End Reprocess.

(** ** The variants of a file: formats, scales and output names *)
Module Variants.
Import Float64 Geometry Naming.
Local Open Scope Z_scope.

(** [text.replace(old, new)] for a non-empty [old]: the occurrences are
    taken from the left and do not overlap; [skip] counts the characters
    of an occurrence still to pass over. *)
Fixpoint starts_with (old text : pystr) : bool :=
  match old, text with
  | [], _ => true
  | o :: old', c :: text' => (o =? c)%N && starts_with old' text'
  | _ :: _, [] => false
  end.

Fixpoint replace_from (old new : pystr) (skip : nat) (text : pystr) : pystr :=
  match text with
  | [] => []
  | c :: rest =>
    match skip with
    | S skip' => replace_from old new skip' rest
    | O =>
      if starts_with old text then new ++ replace_from old new (length old - 1) rest
      else c :: replace_from old new 0 rest
    end
  end.

Definition replace (old new text : pystr) : pystr := replace_from old new 0 text.

(** The ["naming"] section of the presets file as the two name builders
    read it: [naming.get('pattern')] and, of [naming.get('normalize', {})],
    the values of [get('lowercase', True)], [get('removeAccents', True)],
    [get('replaceSpacesWith', '-')] ([None] for a JSON null) and
    [get('collapseDashes', True)]. *)
Record NamingConfig : Type := {
  nc_pattern : option pystr;
  nc_lowercase : bool;
  nc_remove_accents : bool;
  nc_replace_spaces : option pystr;
  nc_collapse_dashes : bool
}.

(** The columns of [JobFile] the variants depend on. *)
Record FileSettings : Type := {
  original_name : pystr;
  rename_pattern : option pystr;
  normalize_lowercase : option bool;
  normalize_remove_accents : option bool;
  normalize_replace_spaces : pystr;
  normalize_collapse_dashes : option bool;
  keep_transparency : bool;
  keep_metadata : bool;
  crop_enabled : bool;
  crop_columns : CropData;
  quality_webp : option Z;
  quality_jpg : option Z
}.

(** The call of [_normalize_name] shared by the two name builders (lines
    488-494 and 515-521). *)
Definition normalized_stem `{Unicode} `{Pathlib} (naming : NamingConfig)
    (job_file : FileSettings) : pystr :=
  _normalize_name (path_stem (original_name job_file))
    (default (nc_lowercase naming) (normalize_lowercase job_file))
    (default (nc_remove_accents naming) (normalize_remove_accents job_file))
    (match normalize_replace_spaces job_file with
     | [] => nc_replace_spaces naming
     | r => Some r
     end)
    (default (nc_collapse_dashes naming) (normalize_collapse_dashes job_file)).

Definition DEFAULT_PATTERN : pystr := of_string "{name-normalized}.{ext}".

(** [_build_output_name] (lines 475-501) *)
Definition _build_output_name `{Unicode} `{Pathlib} (output_format preset_id : pystr)
    (naming : NamingConfig) (job_file : FileSettings) : pystr :=
  let pattern :=
    match rename_pattern job_file with
    | Some (c :: r) => c :: r
    | _ => match nc_pattern naming with
           | Some (c :: r) => c :: r
           | _ => DEFAULT_PATTERN
           end
    end in
  let base := path_stem (original_name job_file) in
  let normalized := normalized_stem naming job_file in
  replace (of_string "{name}") base
    (replace (of_string "{name-normalized}") normalized
       (replace (of_string "{ext}") output_format
          (replace (of_string "{preset}") preset_id pattern))).

(** [_build_output_base_name] (lines 504-523) *)
Definition _build_output_base_name `{Unicode} `{Pathlib} (preset_id : pystr)
    (naming : NamingConfig) (job_file : FileSettings) : pystr :=
  let normalized := normalized_stem naming job_file in
  match preset_id with
  | [] => normalized
  | _ => normalized ++ of_string "__" ++ preset_id
  end.

(** [_extract_crop_data] (lines 829-838) *)
Definition _extract_crop_data (job_file : FileSettings) : option CropData :=
  if crop_enabled job_file then Some (crop_columns job_file) else None.

Definition WEBP : pystr := of_string "webp".
Definition JPG : pystr := of_string "jpg".
Definition PNG : pystr := of_string "png".

(** [_resolve_effective_quality] (lines 1532-1552); [quality_map hint fmt]
    is [defaults.get('quality', {}).get(hint, {}).get(fmt)]. *)
Definition _resolve_effective_quality (job_file : FileSettings) (output_format : pystr)
    (analysis_type : string) (quality_map : string -> string -> option Z)
    (fallback_quality : Z) : Z :=
  if bool_decide (output_format = WEBP) then
    match truthy_dim (quality_webp job_file) with
    | Some q => q
    | None => default fallback_quality (quality_map analysis_type "webp")
    end
  else if bool_decide (output_format = JPG) then
    match truthy_dim (quality_jpg job_file) with
    | Some q => q
    | None => default 82 (quality_map "photo" "jpg")
    end
  else if bool_decide (output_format = PNG) then 0
  else fallback_quality.

(** [_apply_transparency_rules] (lines 1555-1582): the image, and the note
    and the action it leaves in [effective]. *)
Definition _apply_transparency_rules (image : Image) (has_transparency : bool)
    (output_format : pystr) (keep_transparency : bool) : Image * string * string :=
  if negb has_transparency then (image, "", "")
  else if negb keep_transparency then
    (convert image "RGB",
     _merge_notes "" "Transparencia eliminada por configuración.",
     "Transparencia eliminada")
  else if bool_decide (output_format = JPG) then
    ({| width := width image; height := height image; mode := "RGB" |},
     _merge_notes "" "Se perdió transparencia al exportar en JPG.",
     "Transparencia perdida (JPG)")
  else (image, "", "").

(** The library and the storage behind the loop: [_render_image] (lines
    401-430), of whose bytes the length is kept, for an image, a format, a
    quality and the metadata switch; and [_save_extra_output] (lines
    824-826) for a name and the length of the bytes. *)
Class Codec : Type := {
  _render_image : Image -> pystr -> Z -> bool -> result Z;
  _save_extra_output : pystr -> Z -> result unit
}.

(** An entry of [output_variants]; its [storage_name] is the name after
    ["outputs/"]. *)
Record Variant : Type := {
  v_name : pystr;
  v_size : Z;
  v_format : pystr;
  v_scale : string;
  v_width : Z;
  v_height : Z
}.

(** The settings in force for a file: the dict [effective] with its keys
    [preset_id], [target_size], [resize_mode], [output_formats],
    [primary_format], [note], [generate_2x] and [generate_sharpened]
    (the last four possibly absent). *)
Record Effective : Type := {
  ef_preset_id : pystr;
  ef_target_size : option Z * option Z;
  ef_resize_mode : string;
  ef_output_formats : option (list pystr);
  ef_primary_format : option pystr;
  ef_note : string;
  ef_generate_2x : bool;
  ef_generate_sharpened : bool
}.

(** What the arguments of [_process_job_file] and the analysis give to
    the loop. *)
Record Inputs : Type := {
  in_image : Image;
  in_has_transparency : bool;
  in_analysis_type : string;
  in_job_file : FileSettings;
  in_effective : Effective;
  in_output_format : pystr;
  in_quality : Z;
  in_no_upscale : bool;
  in_naming : NamingConfig;
  in_quality_map : string -> string -> option Z;
  in_density_scale : Q
}.

(** The variables the loop updates (lines 641-645). *)
Record Progress : Type := {
  output_variants : list Variant;
  output_size : Z;
  output_name : pystr;
  report_meta : option (ReportMeta * string);
  notes : string
}.

Definition NOTE_2X_OFF : string := "Se desactivó “Más nítido” porque 2x está activo.".
Definition NOTE_NO_2X : string :=
  "No se generó 2x porque el original no alcanza el tamaño requerido.".
Definition NOTE_SHARP_LIMIT : string :=
  "“Más nítido” se limitó al máximo posible por tamaño del original.".

(** Lines 650-665: the switches, the scales and the formats. *)
Definition generate_sharpened (i : Inputs) : bool :=
  if ef_generate_2x (in_effective i) && ef_generate_sharpened (in_effective i)
  then false else ef_generate_sharpened (in_effective i).

Definition initial_notes (i : Inputs) : string :=
  if ef_generate_2x (in_effective i) && ef_generate_sharpened (in_effective i)
  then _merge_notes (ef_note (in_effective i)) NOTE_2X_OFF
  else ef_note (in_effective i).

Definition scales (i : Inputs) : list (Q * string) :=
  if ef_generate_2x (in_effective i) then [(1%Q, "1x"); (2%Q, "2x")]
  else if generate_sharpened i then [(in_density_scale i, "1x")]
  else [(1%Q, "1x")].

Definition primary_format (i : Inputs) : pystr :=
  match ef_primary_format (in_effective i) with
  | Some (c :: r) => c :: r
  | _ => in_output_format i
  end.

Definition formats (i : Inputs) : list pystr :=
  match ef_output_formats (in_effective i) with
  | Some (f :: r) => f :: r
  | _ => [primary_format i]
  end.

(** The target of a variant (lines 671-675). *)
Definition variant_target (i : Inputs) (scale_value : Q) : option Z * option Z :=
  match truthy_dim (ef_target_size (in_effective i)).1,
        truthy_dim (ef_target_size (in_effective i)).2 with
  | Some base_target_width, Some base_target_height =>
    (Some (py_round (fmul (float base_target_width) scale_value)),
     Some (py_round (fmul (float base_target_height) scale_value)))
  | _, _ => (None, None)
  end.

(** [resized.width < target_width or resized.height < target_height]
    under [target_width and target_height] (lines 698-699, 706-707). *)
Definition falls_short (resized : Image) (target : option Z * option Z) : bool :=
  match truthy_dim target.1, truthy_dim target.2 with
  | Some target_width, Some target_height =>
    (width resized <? target_width) || (height resized <? target_height)
  | _, _ => false
  end.

(** The candidate name of a variant (lines 713-731). *)
Definition name_candidate `{Unicode} `{Pathlib} (i : Inputs) (fmt : pystr)
    (scale_label : string) : pystr :=
  if ef_generate_2x (in_effective i) then
    let base_name :=
      _build_output_base_name (ef_preset_id (in_effective i)) (in_naming i)
        (in_job_file i) in
    if bool_decide (scale_label = "2x") then base_name ++ of_string "__2x." ++ fmt
    else base_name ++ of_string "." ++ fmt
  else
    _build_output_name fmt (ef_preset_id (in_effective i)) (in_naming i) (in_job_file i).

(** The body of the inner loop (lines 671-770) for a format, its quality
    and a scale: the variables and the shared set of used names as the
    round leaves them.  The search of a free name always returns (see
    [unique_loop_None] and [used_candidates_bound]). *)
Definition variant_round `{Unicode} `{Pathlib} `{Codec} `{Memory} (i : Inputs) (fmt : pystr)
    (fmt_quality : Z) (scale : Q * string) (p : Progress) (used_names : gset pystr)
    : result Progress * gset pystr :=
  let '(scale_value, scale_label) := scale in
  let target := variant_target i scale_value in
  let '(variant_image, variant_note, transparency_action) :=
    _apply_transparency_rules (in_image i) (in_has_transparency i) fmt
      (keep_transparency (in_job_file i)) in
  let keep_alpha :=
    in_has_transparency i && bool_decide (fmt = WEBP \/ fmt = PNG)
    && keep_transparency (in_job_file i) in
  match _prepare_image variant_image target (ef_resize_mode (in_effective i))
          (in_no_upscale i) (_extract_crop_data (in_job_file i)) keep_alpha with
  | Raise exc => (Raise exc, used_names)
  | Ok (resized, variant_meta) =>
    if bool_decide (scale_label = "2x") && falls_short resized target then
      (Ok {| output_variants := output_variants p; output_size := output_size p;
             output_name := output_name p; report_meta := report_meta p;
             notes := _merge_notes (notes p) NOTE_NO_2X |}, used_names)
    else
      let notes :=
        if generate_sharpened i && falls_short resized target
        then _merge_notes (notes p) NOTE_SHARP_LIMIT else notes p in
      let candidate := name_candidate i fmt scale_label in
      let name := default candidate (_ensure_unique_name candidate used_names) in
      let used_names := {[ name ]} ∪ used_names in
      match _render_image resized fmt fmt_quality (keep_metadata (in_job_file i)) with
      | Raise exc => (Raise exc, used_names)
      | Ok size =>
        let is_primary :=
          bool_decide (scale_label = "1x") && bool_decide (fmt = primary_format i)
          && bool_decide (output_name p = []) in
        match (if is_primary then Ok tt else _save_extra_output name size) with
        | Raise exc => (Raise exc, used_names)
        | Ok _ =>
          let variant :=
            {| v_name := name; v_size := size; v_format := fmt; v_scale := scale_label;
               v_width := width resized; v_height := height resized |} in
          (Ok (if is_primary then
                 {| output_variants := output_variants p ++ [variant];
                    output_size := size; output_name := name;
                    report_meta :=
                      Some ({| input_width := input_width variant_meta;
                               input_height := input_height variant_meta;
                               output_width := width resized;
                               output_height := height resized;
                               resize_mode := resize_mode variant_meta;
                               no_upscale_applied := no_upscale_applied variant_meta;
                               note := _merge_notes
                                         (_merge_notes (note variant_meta) variant_note)
                                         notes |},
                            transparency_action);
                    notes := notes |}
               else
                 {| output_variants := output_variants p ++ [variant];
                    output_size := output_size p; output_name := output_name p;
                    report_meta := report_meta p; notes := notes |}),
           used_names)
        end
      end
  end.

(** A [for] loop whose body may raise: the rounds run in order until one
    raises. *)
Fixpoint for_each {A : Type}
    (body : A -> Progress -> gset pystr -> result Progress * gset pystr)
    (items : list A) (p : Progress) (used_names : gset pystr)
    : result Progress * gset pystr :=
  match items with
  | [] => (Ok p, used_names)
  | item :: rest =>
    match body item p used_names with
    | (Ok p', used_names') => for_each body rest p' used_names'
    | (Raise exc, used_names') => (Raise exc, used_names')
    end
  end.

(** The two loops (lines 668-770), from the variables of lines 641-645. *)
Definition variants_loop `{Unicode} `{Pathlib} `{Codec} `{Memory} (i : Inputs)
    (used_names : gset pystr) : result Progress * gset pystr :=
  for_each
    (fun fmt =>
       let fmt_quality :=
         _resolve_effective_quality (in_job_file i) fmt (in_analysis_type i)
           (in_quality_map i) (in_quality i) in
       for_each (variant_round i fmt fmt_quality) (scales i))
    (formats i)
    {| output_variants := []; output_size := 0; output_name := [];
       report_meta := None; notes := initial_notes i |}
    used_names.

(** The names of the variants are pairwise distinct, none of them was
    used before the loop, and the shared set holds them besides the names
    it held. *)
Definition names_ok (used_before : gset pystr) (p : Progress) (used_names : gset pystr)
    : Prop :=
  NoDup (v_name <$> output_variants p) /\
  (forall v, v ∈ output_variants p -> v_name v ∉ used_before) /\
  used_names = list_to_set (v_name <$> output_variants p) ∪ used_before.

(** The primary output recorded by the loop is one of the variants: a
    variant at scale 1x in the primary format; with none recorded, no
    variant is at scale 1x in the primary format. *)
Definition primary_ok (i : Inputs) (p : Progress) : Prop :=
  match report_meta p with
  | Some (m, _) =>
    exists v, v ∈ output_variants p /\ v_scale v = "1x" /\ v_format v = primary_format i /\
      v_name v = output_name p /\ v_size v = output_size p /\
      output_width m = v_width v /\ output_height m = v_height v
  | None =>
    output_name p = [] /\ output_size p = 0 /\
    forall v, v ∈ output_variants p -> ~ (v_scale v = "1x" /\ v_format v = primary_format i)
  end.

(** A codec and a file for the examples: the encoded size grows with the
    image, nothing fails. *)
Definition demo_codec : Codec :=
  {| _render_image := fun image fmt quality keep_metadata =>
       Ok (width image * height image / 10 + quality);
     _save_extra_output := fun name size => Ok tt |}.

Definition demo_settings : FileSettings :=
  {| original_name := of_string "Mi Foto.PNG";
     rename_pattern := None;
     normalize_lowercase := None;
     normalize_remove_accents := None;
     normalize_replace_spaces := [DASH];
     normalize_collapse_dashes := None;
     keep_transparency := true;
     keep_metadata := false;
     crop_enabled := false;
     crop_columns := {| crop_mode := ""; crop_x := None; crop_y := None;
                        crop_w := None; crop_h := None |};
     quality_webp := None;
     quality_jpg := None |}.

Definition demo_inputs (image : Image) (generate_2x : bool) : Inputs :=
  {| in_image := image;
     in_has_transparency := false;
     in_analysis_type := "photo";
     in_job_file := demo_settings;
     in_effective :=
       {| ef_preset_id := of_string "ig-post";
          ef_target_size := (Some 400, Some 400);
          ef_resize_mode := "cover";
          ef_output_formats := Some [WEBP; JPG];
          ef_primary_format := Some WEBP;
          ef_note := "";
          ef_generate_2x := generate_2x;
          ef_generate_sharpened := false |};
     in_output_format := WEBP;
     in_quality := 80;
     in_no_upscale := true;
     in_naming := {| nc_pattern := None; nc_lowercase := true; nc_remove_accents := true;
                     nc_replace_spaces := Some [DASH]; nc_collapse_dashes := true |};
     in_quality_map := fun _ _ => None;
     in_density_scale := 133 # 100 |}.

End Variants.

(* ===================================================================== *)
(** * Part II: lemmas and theorems *)
(* ===================================================================== *)

(** ** Rounding to binary64 *)
Module Float64Facts.
Import Float64.
Local Open Scope Q_scope.

Lemma pow2_pos (e : Z) : 0 < 2 ^ e.
Proof. apply Qpower_0_lt. reflexivity. Qed.

Lemma pow2_add (a b : Z) : 2 ^ (a + b) == 2 ^ a * 2 ^ b.
Proof. apply Qpower_plus. discriminate. Qed.

Lemma pow2_succ (a : Z) : 2 ^ (a + 1) == 2 * 2 ^ a.
Proof. rewrite pow2_add. change (2 ^ 1) with 2. ring. Qed.

Lemma pow2_le (a b : Z) : (a <= b)%Z -> 2 ^ a <= 2 ^ b.
Proof. intros H. apply Qpower_le_compat_l; [exact H | discriminate]. Qed.

Lemma pow2_lt (a b : Z) : (a < b)%Z -> 2 ^ a < 2 ^ b.
Proof. intros H. apply Qpower_lt_compat_l; [exact H | reflexivity]. Qed.

Lemma pow2_Z (e : Z) : (0 <= e)%Z -> 2 ^ e == inject_Z (2 ^ e).
Proof. intros H. symmetry. apply (Zpower_Qpower 2 e H). Qed.

Lemma pow2_sub (a b : Z) : 2 ^ (a - b) == 2 ^ a / 2 ^ b.
Proof. apply Qpower_minus. discriminate. Qed.

Lemma inject_Z_lt (a b : Z) : (a < b)%Z -> inject_Z a < inject_Z b.
Proof. rewrite <- Zlt_Qlt. auto. Qed.

Lemma inject_Z_le (a b : Z) : (a <= b)%Z -> inject_Z a <= inject_Z b.
Proof. rewrite <- Zle_Qle. auto. Qed.

Lemma Qdiv_mult_cancel (a b : Q) : 0 < b -> a / b * b == a.
Proof. intros H. field. intros E. rewrite E in H. discriminate. Qed.

Lemma Qdiv_le_mono (a b c : Q) : 0 < c -> a <= b -> a / c <= b / c.
Proof.
intros Hc H. apply Qle_shift_div_l; [exact Hc|].
rewrite Qdiv_mult_cancel by exact Hc. exact H.
Qed.

Lemma ilog2_spec (q : Q) : 0 < q -> 2 ^ ilog2 q <= q /\ q < 2 ^ (ilog2 q + 1).
Proof.
intros Hq. destruct q as [n d]. unfold ilog2. cbn [Qnum Qden].
assert (Hn : (0 < n)%Z).
{ unfold Qlt in Hq. cbn in Hq. lia. }
set (a := Z.log2 n). set (b := Z.log2 (Z.pos d)).
destruct (Z.log2_spec n Hn) as [Ha1 Ha2]. fold a in Ha1, Ha2.
destruct (Z.log2_spec (Z.pos d) eq_refl) as [Hb1 Hb2]. fold b in Hb1, Hb2.
assert (Ha0 : (0 <= a)%Z) by apply Z.log2_nonneg.
assert (Hb0 : (0 <= b)%Z) by apply Z.log2_nonneg.
apply inject_Z_le in Ha1, Hb1. apply inject_Z_lt in Ha2, Hb2.
rewrite <- !pow2_Z in Ha1, Ha2, Hb1, Hb2 by lia.
replace (Z.succ a) with (a + 1)%Z in Ha2 by lia.
replace (Z.succ b) with (b + 1)%Z in Hb2 by lia.
rewrite pow2_succ in Ha2, Hb2.
pose proof (pow2_pos a) as HA. pose proof (pow2_pos b) as HB.
assert (HD : 0 < inject_Z (Z.pos d)) by reflexivity.
assert (Eq : n # d == inject_Z n / inject_Z (Z.pos d)) by apply Qmake_Qdiv.
assert (Hup : n # d < 2 ^ (a - b + 1)).
{ rewrite Eq, pow2_succ, pow2_sub.
  apply Qlt_shift_div_r; [exact HD|].
  assert (2 * (2 ^ a / 2 ^ b) * inject_Z (Z.pos d)
    == (2 * 2 ^ a) * (inject_Z (Z.pos d) / 2 ^ b)) as -> by (field; lra).
  assert (1 <= inject_Z (Z.pos d) / 2 ^ b).
  { apply Qle_shift_div_l; [exact HB | lra]. }
  nra. }
assert (Hlo : 2 ^ (a - b - 1) < n # d).
{ rewrite Eq. replace (a - b - 1)%Z with (a - (b + 1))%Z by lia.
  rewrite pow2_sub, pow2_succ.
  apply Qlt_shift_div_l; [exact HD|].
  assert (2 ^ a / (2 * 2 ^ b) * inject_Z (Z.pos d)
    == 2 ^ a * (inject_Z (Z.pos d) / (2 * 2 ^ b))) as -> by (field; lra).
  assert (inject_Z (Z.pos d) / (2 * 2 ^ b) < 1).
  { apply Qlt_shift_div_r; lra. }
  nra. }
destruct (Qle_bool (2 ^ (a - b)) (n # d)) eqn:E.
- apply Qle_bool_iff in E. split; assumption.
- assert (~ 2 ^ (a - b) <= n # d) as E'.
  { intros C. apply Qle_bool_iff in C. congruence. }
  apply Qnot_le_lt in E'. split.
  + apply Qlt_le_weak. exact Hlo.
  + replace (a - b - 1 + 1)%Z with (a - b)%Z by lia. exact E'.
Qed.

Lemma ilog2_unique (q : Q) (k : Z) : 2 ^ k <= q -> q < 2 ^ (k + 1) -> ilog2 q = k.
Proof.
intros H1 H2.
assert (Hq : 0 < q) by (pose proof (pow2_pos k); lra).
destruct (ilog2_spec q Hq) as [L1 L2].
destruct (Z.lt_trichotomy (ilog2 q) k) as [C|[C|C]]; [|exact C|].
- assert (2 ^ (ilog2 q + 1) <= 2 ^ k) by (apply pow2_le; lia). lra.
- assert (2 ^ (k + 1) <= 2 ^ ilog2 q) by (apply pow2_le; lia). lra.
Qed.

Lemma ilog2_mono (p q : Q) : 0 < p -> p <= q -> (ilog2 p <= ilog2 q)%Z.
Proof.
intros Hp H.
destruct (ilog2_spec p Hp) as [L1 L2].
destruct (ilog2_spec q) as [M1 M2]; [lra|].
destruct (Z.le_gt_cases (ilog2 p) (ilog2 q)) as [C|C]; [exact C|].
assert (2 ^ (ilog2 q + 1) <= 2 ^ ilog2 p) by (apply pow2_le; lia). lra.
Qed.


#[export] Instance round_half_even_comp : Proper (Qeq ==> eq) round_half_even.
Proof.
intros p q E. unfold round_half_even.
rewrite (Qfloor_comp p q E).
assert (E' : p - inject_Z (Qfloor q) == q - inject_Z (Qfloor q)) by (rewrite E; reflexivity).
rewrite (Qcompare_comp _ _ E' _ _ (Qeq_refl (1 # 2))). reflexivity.
Qed.

Lemma round_half_even_Z (z : Z) : round_half_even (inject_Z z) = z.
Proof.
unfold round_half_even. rewrite Qfloor_Z.
assert (E : inject_Z z - inject_Z z == 0) by ring.
rewrite (Qcompare_comp _ _ E _ _ (Qeq_refl (1 # 2))). reflexivity.
Qed.

Lemma round_half_even_bounds (q : Q) :
  (Qfloor q <= round_half_even q <= Qfloor q + 1)%Z.
Proof.
unfold round_half_even.
destruct (Qcompare (q - inject_Z (Qfloor q)) (1 # 2)); [destruct (Z.even _)| |]; lia.
Qed.

Lemma round_half_even_mono (p q : Q) : p <= q -> (round_half_even p <= round_half_even q)%Z.
Proof.
intros H.
pose proof (Qfloor_resp_le p q H) as Hf.
destruct (Z.eq_dec (Qfloor p) (Qfloor q)) as [E|NE].
- unfold round_half_even. rewrite E.
  destruct (Qcompare_spec (p - inject_Z (Qfloor q)) (1 # 2)) as [C1|C1|C1];
  destruct (Qcompare_spec (q - inject_Z (Qfloor q)) (1 # 2)) as [C2|C2|C2];
  try destruct (Z.even (Qfloor q)); try lia; exfalso; lra.
- pose proof (round_half_even_bounds p). pose proof (round_half_even_bounds q). lia.
Qed.

Lemma round_half_even_ge (z : Z) (q : Q) : inject_Z z <= q -> (z <= round_half_even q)%Z.
Proof. intros H. rewrite <- (round_half_even_Z z). apply round_half_even_mono, H. Qed.

Lemma round_half_even_le (z : Z) (q : Q) : q <= inject_Z z -> (round_half_even q <= z)%Z.
Proof. intros H. rewrite <- (round_half_even_Z z). apply round_half_even_mono, H. Qed.

Lemma round_pos_nonneg (q : Q) : 0 < q -> 0 <= round_pos q.
Proof.
intros Hq. unfold round_pos.
set (e := Z.max _ _). pose proof (pow2_pos e) as He.
apply Qmult_le_0_compat; [|lra].
apply (inject_Z_le 0). apply round_half_even_ge.
apply Qle_shift_div_l; [exact He|]. change (inject_Z 0) with 0. lra.
Qed.

Lemma round_pos_mono (p q : Q) : 0 < p -> p <= q -> round_pos p <= round_pos q.
Proof.
intros Hp H. assert (Hq : 0 < q) by lra.
pose proof (ilog2_mono p q Hp H) as Hl.
destruct (ilog2_spec p Hp) as [_ P2]. destruct (ilog2_spec q Hq) as [Q1 _].
unfold round_pos, prec.
set (ep := Z.max (ilog2 p - (53 - 1)) emin).
set (eq := Z.max (ilog2 q - (53 - 1)) emin).
pose proof (pow2_pos ep) as Hep. pose proof (pow2_pos eq) as Heq.
destruct (Z.eq_dec ep eq) as [E|NE].
- rewrite E. apply Qmult_le_compat_r; [|lra].
  apply inject_Z_le, round_half_even_mono, Qdiv_le_mono; assumption.
- assert (Hlt : (ep < eq)%Z) by lia.
  assert (Eeq : eq = (ilog2 q - 52)%Z) by lia.
  assert (B1 : (round_half_even (p / 2 ^ ep) <= 2 ^ 53)%Z).
  { apply round_half_even_le. apply Qle_shift_div_r; [exact Hep|].
    rewrite <- pow2_Z by lia. rewrite <- pow2_add.
    assert (2 ^ (ilog2 p + 1) <= 2 ^ (53 + ep)) by (apply pow2_le; lia). lra. }
  assert (B2 : (2 ^ 52 <= round_half_even (q / 2 ^ eq))%Z).
  { apply round_half_even_ge. apply Qle_shift_div_l; [exact Heq|].
    rewrite <- pow2_Z by lia. rewrite <- pow2_add.
    replace (52 + eq)%Z with (ilog2 q) by lia. exact Q1. }
  apply inject_Z_le in B1, B2. rewrite <- pow2_Z in B1, B2 by lia.
  assert (2 ^ 53 * 2 ^ ep <= 2 ^ 52 * 2 ^ eq).
  { rewrite <- !pow2_add. apply pow2_le. lia. }
  pose proof (pow2_pos 53). pose proof (pow2_pos 52).
  nra.
Qed.

Lemma round_pos_repr (q : Q) (m e : Z) :
  0 < q -> q == inject_Z m * 2 ^ e -> (m < 2 ^ 53)%Z -> (emin <= e)%Z ->
  round_pos q == q.
Proof.
intros Hq E Hm He.
destruct (ilog2_spec q Hq) as [L1 _].
pose proof (pow2_pos e) as Hpe.
assert (Hl : (ilog2 q < 53 + e)%Z).
{ destruct (Z.lt_ge_cases (ilog2 q) (53 + e)) as [C|C]; [exact C|exfalso].
  assert (2 ^ (53 + e) <= 2 ^ ilog2 q) by (apply pow2_le; lia).
  rewrite pow2_add, pow2_Z in H by lia.
  apply inject_Z_lt in Hm. nra. }
unfold round_pos, prec. set (e' := Z.max (ilog2 q - (53 - 1)) emin).
assert (He' : (e' <= e)%Z) by lia.
pose proof (pow2_pos e') as Hpe'.
assert (Ed : q / 2 ^ e' == inject_Z (m * 2 ^ (e - e'))).
{ rewrite E, inject_Z_mult, <- pow2_Z by lia. rewrite pow2_sub. field. lra. }
rewrite Ed, round_half_even_Z, <- Ed. field. lra.
Qed.

#[export] Instance rnd_comp : Proper (Qeq ==> eq) rnd.
Proof. intros p q E. unfold rnd. rewrite (Qred_complete p q E). reflexivity. Qed.

Lemma rnd_pos_eq (q : Q) : 0 < q -> rnd q == round_pos (Qred q).
Proof.
intros H. unfold rnd.
assert (C : Qcompare (Qred q) 0 = Gt) by (apply Qgt_alt; rewrite Qred_correct; exact H).
rewrite C. apply Qred_correct.
Qed.

Lemma rnd_neg_eq (q : Q) : q < 0 -> rnd q == - round_pos (- Qred q).
Proof.
intros H. unfold rnd.
assert (C : Qcompare (Qred q) 0 = Lt) by (apply Qlt_alt; rewrite Qred_correct; exact H).
rewrite C. apply Qred_correct.
Qed.

Lemma rnd_zero_eq (q : Q) : q == 0 -> rnd q = 0.
Proof.
intros H. unfold rnd.
assert (C : Qcompare (Qred q) 0 = Eq) by (apply Qeq_alt; rewrite Qred_correct; exact H).
rewrite C. reflexivity.
Qed.

Lemma rnd_nonneg (q : Q) : 0 <= q -> 0 <= rnd q.
Proof.
intros H. destruct (Qlt_le_dec 0 q) as [C|C].
- rewrite rnd_pos_eq by exact C. apply round_pos_nonneg. rewrite Qred_correct. exact C.
- rewrite rnd_zero_eq by lra. lra.
Qed.

Lemma rnd_nonpos (q : Q) : q <= 0 -> rnd q <= 0.
Proof.
intros H. destruct (Qlt_le_dec q 0) as [C|C].
- rewrite rnd_neg_eq by exact C.
  assert (0 <= round_pos (- Qred q)); [|lra].
  apply round_pos_nonneg. rewrite Qred_correct. lra.
- rewrite rnd_zero_eq by lra. lra.
Qed.

Theorem rnd_mono (p q : Q) : p <= q -> rnd p <= rnd q.
Proof.
intros H.
destruct (Qlt_le_dec 0 p) as [Hp|Hp].
- rewrite (rnd_pos_eq p), (rnd_pos_eq q) by lra.
  apply round_pos_mono; rewrite !Qred_correct; assumption.
- destruct (Qlt_le_dec 0 q) as [Hq|Hq].
  + pose proof (rnd_nonpos p Hp). pose proof (rnd_nonneg q (Qlt_le_weak _ _ Hq)). lra.
  + destruct (Qlt_le_dec q 0) as [Hq'|Hq'].
    * rewrite (rnd_neg_eq p), (rnd_neg_eq q) by lra.
      assert (round_pos (- Qred q) <= round_pos (- Qred p)); [|lra].
      apply round_pos_mono; rewrite !Qred_correct; lra.
    * pose proof (rnd_nonpos p Hp). rewrite (rnd_zero_eq q) by lra. exact H0.
Qed.

Theorem rnd_representable (q : Q) : representable q -> rnd q == q.
Proof.
intros (m & e & E & Hm & He). pose proof (pow2_pos e) as Hpe.
destruct (Z.lt_trichotomy m 0) as [C|[C|C]].
- assert (Hq : q < 0). { rewrite E. apply inject_Z_lt in C. change (inject_Z 0) with 0 in C. nra. }
  rewrite rnd_neg_eq by exact Hq.
  assert (R : round_pos (- Qred q) == - Qred q).
  { apply (round_pos_repr _ (- m) e).
    - rewrite Qred_correct. lra.
    - rewrite Qred_correct, E, inject_Z_opp. ring.
    - lia.
    - exact He. }
  rewrite R, Qred_correct. ring.
- subst m. rewrite rnd_zero_eq; rewrite E; ring.
- assert (Hq : 0 < q). { rewrite E. apply (inject_Z_lt 0) in C. change (inject_Z 0) with 0 in C. nra. }
  rewrite rnd_pos_eq by exact Hq.
  assert (R : round_pos (Qred q) == Qred q).
  { apply (round_pos_repr _ m e).
    - rewrite Qred_correct. lra.
    - rewrite Qred_correct. exact E.
    - lia.
    - exact He. }
  rewrite R. apply Qred_correct.
Qed.

Lemma representable_Z (z : Z) : (Z.abs z < 2 ^ 53)%Z -> representable (inject_Z z).
Proof. intros H. exists z, 0%Z. split; [change (2 ^ 0) with 1; ring|]. split; [exact H|discriminate]. Qed.

Lemma rnd_Z (z : Z) : (Z.abs z < 2 ^ 53)%Z -> rnd (inject_Z z) == inject_Z z.
Proof. intros H. apply rnd_representable, representable_Z, H. Qed.

Lemma rnd_le_repr (q x : Q) : representable x -> q <= x -> rnd q <= x.
Proof. intros R H. rewrite <- (rnd_representable x R). apply rnd_mono, H. Qed.

Lemma rnd_ge_repr (q x : Q) : representable x -> x <= q -> x <= rnd q.
Proof. intros R H. rewrite <- (rnd_representable x R). apply rnd_mono, H. Qed.

(** *** The operations on representable arguments *)

Lemma Qlt_bool_iff (a b : Q) : Qlt_bool a b = true <-> a < b.
Proof.
unfold Qlt_bool. rewrite negb_true_iff. split.
- intros H. apply Qnot_le_lt. intros C. apply Qle_bool_iff in C. congruence.
- intros H. destruct (Qle_bool b a) eqn:E; [|reflexivity].
  apply Qle_bool_iff in E. lra.
Qed.

Lemma Qlt_bool_false_iff (a b : Q) : Qlt_bool a b = false <-> b <= a.
Proof.
unfold Qlt_bool. rewrite negb_false_iff. apply Qle_bool_iff.
Qed.

Lemma Qeq_bool_false_iff (a b : Q) : Qeq_bool a b = false <-> ~ a == b.
Proof.
split.
- intros H C. apply Qeq_bool_iff in C. congruence.
- intros H. destruct (Qeq_bool a b) eqn:E; [|reflexivity].
  apply Qeq_bool_iff in E. contradiction.
Qed.

Lemma fdiv_Ok (a b : Q) : ~ b == 0 -> fdiv a b = Ok (rnd (a / b)).
Proof. intros H. unfold fdiv. apply Qeq_bool_false_iff in H. rewrite H. reflexivity. Qed.

Lemma int_truediv_Ok (a b : Z) : b <> 0%Z -> int_truediv a b = Ok (rnd (inject_Z a / inject_Z b)).
Proof. intros H. unfold int_truediv. apply Z.eqb_neq in H. rewrite H. reflexivity. Qed.

Lemma float_Z (z : Z) : (Z.abs z < 2 ^ 53)%Z -> float z == inject_Z z.
Proof. apply rnd_Z. Qed.

Lemma py_round_Z (x : Q) (z : Z) : x == inject_Z z -> py_round x = z.
Proof. intros E. unfold py_round. rewrite E. apply round_half_even_Z. Qed.

Lemma math_ceil_le (x : Q) (z : Z) : x <= inject_Z z -> (math_ceil x <= z)%Z.
Proof. intros H. unfold math_ceil. rewrite <- (Qceiling_Z z). apply Qceiling_resp_le, H. Qed.

Lemma math_ceil_pos (x : Q) : 0 < x -> (1 <= math_ceil x)%Z.
Proof.
intros H. unfold math_ceil. pose proof (Qle_ceiling x) as C.
assert (0 < inject_Z (Qceiling x)) as C' by lra.
rewrite <- (Zlt_Qlt 0) in C'. lia.
Qed.

Lemma representable_pow2 (e : Z) : (emin <= e)%Z -> representable (2 ^ e).
Proof.
intros H. exists 1%Z, e. split; [ring|]. split; [reflexivity | exact H].
Qed.

(** Rounding never carries a value past a power of two, so a bound on
    the operands of an operation bounds its result. *)
Lemma rnd_within_pow2 (q : Q) (k : Z) :
  (emin <= k)%Z -> - 2 ^ k <= q <= 2 ^ k -> - 2 ^ k <= rnd q <= 2 ^ k.
Proof.
intros Hk [H1 H2].
assert (R1 : representable (2 ^ k)) by (apply representable_pow2, Hk).
assert (R2 : representable (- 2 ^ k)).
{ exists (-1)%Z, k. split; [ring|]. split; [reflexivity | exact Hk]. }
split; [apply rnd_ge_repr | apply rnd_le_repr]; assumption.
Qed.

(** *** Agreement with the primitive binary64 numbers on samples *)

Lemma rnd_agrees_on_quotients :
  forallb agree_on_quotient
    [(57, 100); (29, 100); (1, 3); (2, 3); (7, 10); (1080, 2000); (1080, 1000);
     (1080, 800); (1080, 400); (1, 2147483647); (2147483647, 3);
     (2147483646, 2147483647)]%Z = true.
Proof. vm_compute. reflexivity. Qed.

Lemma rnd_agrees_on_percentages :
  forallb agree_on_percent ((fun i => (Z.of_nat i, 100%Z)) <$> seq 0 101) = true /\
  forallb agree_on_percent ((fun i => (Z.of_nat i, 7%Z)) <$> seq 0 8) = true.
Proof. split; vm_compute; reflexivity. Qed.

End Float64Facts.

(** ** GeometryEngine *)
Module GeometryFacts.
Import Float64 Float64Facts Geometry.
Local Open Scope Z_scope.

Lemma dim_abs (z : Z) : 0 <= z <= INT_MAX -> Z.abs z < 2 ^ 53.
Proof. unfold INT_MAX. intros H. rewrite Z.abs_eq by lia. lia. Qed.

Lemma float_dim (z : Z) : 0 <= z <= INT_MAX -> (float z == inject_Z z)%Q.
Proof. intros H. apply float_Z, dim_abs, H. Qed.

Lemma float_dim_nonzero (z : Z) : 1 <= z <= INT_MAX -> ~ (float z == 0)%Q.
Proof.
intros H E. rewrite float_dim in E by lia.
assert (C : (0 < inject_Z z)%Q) by (rewrite <- (Zlt_Qlt 0); lia). lra.
Qed.

Lemma inject_dim_pos (z : Z) : 1 <= z -> (1 <= inject_Z z)%Q.
Proof. intros H. rewrite <- (Zle_Qle 1). exact H. Qed.

(** The quotient of two dimensions compares with 1 as the dimensions
    compare with each other. *)
Lemma aspect_le_1 (w h : Z) :
  1 <= w <= INT_MAX -> 1 <= h <= INT_MAX -> w <= h ->
  (rnd (float w / float h) <= 1)%Q.
Proof.
intros Hw Hh H.
apply rnd_le_repr; [apply (representable_Z 1); reflexivity|].
rewrite !float_dim by lia.
pose proof (inject_dim_pos h ltac:(lia)).
apply Qle_shift_div_r; [lra|]. rewrite Qmult_1_l. rewrite <- Zle_Qle. exact H.
Qed.

Lemma aspect_gt_1 (w h : Z) :
  1 <= w <= INT_MAX -> 1 <= h <= INT_MAX -> h < w ->
  (1 < rnd (float w / float h))%Q.
Proof.
intros Hw Hh H.
assert (R : representable (inject_Z (2 ^ 52 + 1) * 2 ^ (-52))%Q).
{ exists (2 ^ 52 + 1), (-52). split; [reflexivity|]. split; [reflexivity|discriminate]. }
apply Qlt_le_trans with (inject_Z (2 ^ 52 + 1) * 2 ^ (-52))%Q; [reflexivity|].
apply rnd_ge_repr; [exact R|].
rewrite !float_dim by lia.
pose proof (inject_dim_pos h ltac:(lia)) as Hh1.
apply Qle_shift_div_l; [lra|].
assert (Hw' : (inject_Z h + 1 <= inject_Z w)%Q).
{ change 1%Q with (inject_Z 1). rewrite <- inject_Z_plus, <- Zle_Qle. lia. }
assert (Hh' : (inject_Z h <= inject_Z (2 ^ 52))%Q).
{ rewrite <- Zle_Qle. unfold INT_MAX in Hh. lia. }
assert (E : (inject_Z (2 ^ 52 + 1) * 2 ^ (-52) == 1 + / inject_Z (2 ^ 52))%Q) by reflexivity.
rewrite E.
assert (E2 : (inject_Z (2 ^ 52) * / inject_Z (2 ^ 52) == 1)%Q) by reflexivity.
assert (P : (0 < / inject_Z (2 ^ 52))%Q) by reflexivity.
nra.
Qed.

(** The centred crop never fails on a valid image, and its result is no
    larger than the image it crops. *)
Lemma crop_centred_size (resized : Image) (l t cw ch : Z) :
  width (crop resized (l, t, l + cw, t + ch)) = cw /\
  height (crop resized (l, t, l + cw, t + ch)) = ch.
Proof. cbn. lia. Qed.

Lemma cover_crop_square (resized : Image) (t : Z) :
  valid_size resized -> 1 <= t <= INT_MAX ->
  exists out, cover_crop resized t t = Ok out /\
    width out = height out /\
    1 <= width out <= width resized /\ height out <= height resized.
Proof.
intros [Hw Hh] Ht. unfold cover_crop.
destruct ((t <=? width resized) && (t <=? height resized)) eqn:B.
- apply andb_true_iff in B. destruct B as [B1 B2].
  apply Z.leb_le in B1, B2.
  rewrite !int_truediv_Ok by discriminate. cbn [mbind result_bind].
  eexists. split; [reflexivity|].
  destruct (crop_centred_size resized
    (py_int (rnd (inject_Z (width resized - t) / inject_Z 2)))
    (py_int (rnd (inject_Z (height resized - t) / inject_Z 2))) t t) as [E1 E2].
  rewrite E1, E2. lia.
- clear B.
  rewrite (fdiv_Ok (float t) (float t)) by (apply float_dim_nonzero; lia).
  rewrite (fdiv_Ok (float (width resized)) (float (height resized)))
    by (apply float_dim_nonzero; lia).
  cbn [mbind result_bind].
  assert (Eta : (rnd (float t / float t) == 1)%Q).
  { assert (E : (float t / float t == inject_Z 1)%Q).
    { change (inject_Z 1) with 1%Q. field. apply float_dim_nonzero; lia. }
    rewrite (rnd_comp _ _ E). apply rnd_Z. reflexivity. }
  set (ta := rnd (float t / float t)) in *.
  set (ia := rnd (float (width resized) / float (height resized))).
  destruct (Qlt_bool ta ia) eqn:C.
  + apply Qlt_bool_iff in C. rewrite Eta in C.
    assert (Hlt : height resized < width resized).
    { destruct (Z.lt_ge_cases (height resized) (width resized)) as [L|L]; [exact L|].
      pose proof (aspect_le_1 _ _ Hw Hh L) as A. fold ia in A. lra. }
    cbn [mbind result_bind].
    assert (Ecw : py_round (fmul (float (height resized)) ta) = height resized).
    { apply py_round_Z. unfold fmul.
      assert (E : (float (height resized) * ta == inject_Z (height resized))%Q).
      { rewrite Eta, float_dim by lia. ring. }
      rewrite (rnd_comp _ _ E). apply rnd_Z, dim_abs. lia. }
    rewrite Ecw.
    rewrite (Z.min_l (height resized) (width resized)) by lia.
    rewrite Z.min_id.
    rewrite !int_truediv_Ok by discriminate. cbn [mbind result_bind].
    eexists. split; [reflexivity|].
    match goal with |- context [crop resized (?l, ?t0, _, _)] =>
      destruct (crop_centred_size resized l t0 (height resized) (height resized)) as [E1 E2]
    end.
    rewrite E1, E2. lia.
  + apply Qlt_bool_false_iff in C. rewrite Eta in C.
    assert (Hle : width resized <= height resized).
    { destruct (Z.le_gt_cases (width resized) (height resized)) as [L|L]; [exact L|].
      pose proof (aspect_gt_1 _ _ Hw Hh ltac:(lia)) as A. fold ia in A. lra. }
    rewrite (fdiv_Ok (float (width resized)) ta) by (rewrite Eta; discriminate).
    cbn [mbind result_bind].
    assert (Ech : py_round (rnd (float (width resized) / ta)) = width resized).
    { apply py_round_Z.
      assert (E : (float (width resized) / ta == inject_Z (width resized))%Q).
      { rewrite Eta, float_dim by lia. field. }
      rewrite (rnd_comp _ _ E). apply rnd_Z, dim_abs. lia. }
    rewrite Ech.
    rewrite Z.min_id.
    rewrite (Z.min_l (width resized) (height resized)) by lia.
    rewrite !int_truediv_Ok by discriminate. cbn [mbind result_bind].
    eexists. split; [reflexivity|].
    match goal with |- context [crop resized (?l, ?t0, _, _)] =>
      destruct (crop_centred_size resized l t0 (width resized) (width resized)) as [E1 E2]
    end.
    rewrite E1, E2. lia.
Qed.

(** The scaling step with no-upscale never enlarges the image. *)
Lemma ratio_lower (tw w : Z) :
  1 <= tw <= INT_MAX -> 1 <= w <= INT_MAX ->
  (2 ^ (-31) <= rnd (float tw / float w))%Q.
Proof.
intros Ht Hw. apply rnd_ge_repr; [apply representable_pow2; discriminate|].
rewrite !float_dim by lia.
pose proof (inject_dim_pos w ltac:(lia)) as Hw1.
pose proof (inject_dim_pos tw ltac:(lia)) as Ht1.
apply Qle_shift_div_l; [lra|].
assert (Hw' : (inject_Z w <= inject_Z (2 ^ 31))%Q).
{ rewrite <- Zle_Qle. unfold INT_MAX in Hw. lia. }
assert (E : (2 ^ (-31) * inject_Z (2 ^ 31) == 1)%Q) by reflexivity.
assert (P : (0 < 2 ^ (-31))%Q) by reflexivity.
nra.
Qed.

Lemma scaled_dim (w : Z) (ratio : Q) :
  1 <= w <= INT_MAX -> (2 ^ (-31) <= ratio)%Q -> (ratio <= 1)%Q ->
  1 <= math_ceil (fmul (float w) ratio) <= w.
Proof.
intros Hw Hlo Hhi. unfold fmul.
pose proof (inject_dim_pos w ltac:(lia)) as Hw1.
assert (P : (0 < 2 ^ (-31))%Q) by reflexivity.
split.
- apply math_ceil_pos.
  apply Qlt_le_trans with (2 ^ (-31))%Q; [exact P|].
  apply rnd_ge_repr; [apply representable_pow2; discriminate|].
  rewrite float_dim by lia. nra.
- apply math_ceil_le.
  apply rnd_le_repr; [apply representable_Z, dim_abs; lia|].
  rewrite float_dim by lia. nra.
Qed.

Lemma py_max_ge_l (a b : Q) : (a <= py_max a b)%Q.
Proof.
unfold py_max. destruct (Qlt_bool a b) eqn:E.
- apply Qlt_bool_iff in E. lra.
- lra.
Qed.

(** A resize to a size within that of the image always returns. *)
Lemma resize_within `{Memory} (im : Image) (w h : Z) :
  1 <= w <= width im -> 1 <= h <= height im ->
  resize im w h = Ok {| width := w; height := h; mode := mode im |}.
Proof.
intros Hw Hh. unfold resize.
assert ((w <? 1) = false) as -> by (apply Z.ltb_ge; lia).
assert ((h <? 1) = false) as -> by (apply Z.ltb_ge; lia).
assert ((w <=? width im) = true) as -> by (apply Z.leb_le; lia).
assert ((h <=? height im) = true) as -> by (apply Z.leb_le; lia).
reflexivity.
Qed.

Lemma cover_scale_no_upscale `{Memory} (image : Image) (tw th : Z) :
  valid_size image -> 1 <= tw <= INT_MAX -> 1 <= th <= INT_MAX ->
  exists resized note, cover_scale image tw th true = Ok (resized, note) /\
    valid_size resized /\
    width resized <= width image /\ height resized <= height image.
Proof.
intros [Hw Hh] Htw Hth. unfold cover_scale.
rewrite !fdiv_Ok by (apply float_dim_nonzero; lia).
cbn [mbind result_bind].
set (rw := rnd (float tw / float (width image))).
set (rh := rnd (float th / float (height image))).
pose proof (ratio_lower tw (width image) Htw Hw) as Lw. fold rw in Lw.
pose proof (py_max_ge_l rw rh) as Lm.
unfold clamp_ratio. cbn [andb].
destruct (Qlt_bool 1 (py_max rw rh)) eqn:C.
- change (Qeq_bool 1 1) with true. cbn iota.
  eexists _, _. split; [reflexivity|]. split; [split; assumption | lia].
- apply Qlt_bool_false_iff in C.
  destruct (Qeq_bool (py_max rw rh) 1) eqn:E.
  + eexists _, _. split; [reflexivity|]. split; [split; assumption | lia].
  + pose proof (scaled_dim (width image) (py_max rw rh) Hw ltac:(lra) C).
    pose proof (scaled_dim (height image) (py_max rw rh) Hh ltac:(lra) C).
    rewrite resize_within by assumption. cbn [mbind result_bind].
    eexists _, _. split; [reflexivity|].
    unfold valid_size. cbn [width height]. lia.
Qed.

(** C1, as the code has it.  With a 1080 x 1080 target and no upscale the
    2000 x 1000 image comes out 1000 x 1000 and the 800 x 400 image comes
    out 400 x 400: the shorter side bounds the square, since neither image
    reaches 1080 pixels on both axes. *)
Theorem cover_no_upscale_scenarios `{Memory} :
  _resize_cover {| width := 2000; height := 1000; mode := "RGB" |} 1080 1080 true
    = Ok ({| width := 1000; height := 1000; mode := "RGB" |}, NO_UPSCALE_NOTE) /\
  _resize_cover {| width := 800; height := 400; mode := "RGB" |} 1080 1080 true
    = Ok ({| width := 400; height := 400; mode := "RGB" |}, NO_UPSCALE_NOTE).
Proof. split; vm_compute; reflexivity. Qed.

(** C1 as the specification states it fails: neither output has the size
    the scenario gives (1080 x 1080, respectively 800 x 800). *)
Lemma cover_scenarios_as_specified_fail :
  ~ (exists (memory : Memory) out note,
       _resize_cover {| width := 2000; height := 1000; mode := "RGB" |} 1080 1080 true
         = Ok (out, note) /\ width out = 1080 /\ height out = 1080) /\
  ~ (exists (memory : Memory) out note,
       _resize_cover {| width := 800; height := 400; mode := "RGB" |} 1080 1080 true
         = Ok (out, note) /\ width out = 800 /\ height out = 800).
Proof.
split; intros (memory & out & note & E & Hw & Hh);
  vm_compute in E; injection E as <- _; discriminate Hw.
Qed.

(** The regression script [crop_regression_test.py] runs these two inputs
    through [_prepare_image]; its three assertions hold. *)
Lemma crop_regression_cases `{Memory} (w h : Z) :
  (w, h) = (2000, 1000) \/ (w, h) = (800, 400) ->
  exists prepared meta,
    _prepare_image {| width := w; height := h; mode := "RGB" |}
      (Some 1080, Some 1080) "cover" true None false = Ok (prepared, meta) /\
    width prepared = height prepared /\
    width prepared <= w /\ height prepared <= h /\
    resize_mode meta = Some "cover".
Proof.
intros [E|E]; injection E as -> ->; eexists _, _;
  (split; [vm_compute; reflexivity|]); cbn; repeat split; lia.
Qed.

(** C2.  For a square target and no upscale the cover resize returns a
    square image; and its sides never exceed those of the original, in
    particular when the original is smaller than the target on both axes. *)
Theorem cover_square_no_upscale `{Memory} (image : Image) (t : Z) :
  valid_size image -> 1 <= t <= INT_MAX ->
  exists out note, _resize_cover image t t true = Ok (out, note) /\
    width out = height out /\
    (width image < t -> height image < t ->
       width out <= width image /\ height out <= height image).
Proof.
intros Hv Ht. unfold _resize_cover.
destruct (cover_scale_no_upscale image t t Hv Ht Ht)
  as (resized & note & E & Hr & Hw & Hh).
rewrite E. cbn [mbind result_bind].
destruct (cover_crop_square resized t Hr Ht) as (out & E' & Hsq & Hw' & Hh').
rewrite E'. cbn [mbind result_bind].
exists out, note. split; [reflexivity|]. split; [exact Hsq|]. lia.
Qed.

Lemma cover_square_no_upscale_witness :
  exists out note,
    @_resize_cover demo_memory {| width := 800; height := 400; mode := "RGB" |}
      1080 1080 true
      = Ok (out, note) /\
    width out = height out /\
    (800 < 1080 -> 400 < 1080 -> width out <= 800 /\ height out <= 400).
Proof.
apply (@cover_square_no_upscale demo_memory
         {| width := 800; height := 400; mode := "RGB" |} 1080).
- unfold valid_size, INT_MAX. cbn. lia.
- unfold INT_MAX. lia.
Defined.

(** *** Manual crop *)

(** Whatever the fractions, the rectangle lies inside the image and holds
    at least one pixel. *)
Lemma manual_crop_box_bounds (image : Image) (cd : CropData) (x0 y0 x1 y1 : Z) :
  1 <= width image -> 1 <= height image ->
  manual_crop_box image cd = Some (x0, y0, x1, y1) ->
  0 <= x0 < x1 /\ x1 <= width image /\ 0 <= y0 < y1 /\ y1 <= height image.
Proof.
intros Hw Hh. unfold manual_crop_box.
destruct (crop_x cd), (crop_y cd), (crop_w cd), (crop_h cd); try discriminate.
intros [= <- <- <- <-]. lia.
Qed.

(** A fraction of the unit interval lands on a pixel column of the image. *)
Lemma pixel_in_range (x : Q) (size : Z) :
  (0 <= x <= 1)%Q -> 1 <= size <= INT_MAX ->
  0 <= py_round (fmul x (float size)) <= size.
Proof.
intros Hx Hs. unfold fmul, py_round.
pose proof (inject_dim_pos size ltac:(lia)) as S1.
assert (E : (x * float size == x * inject_Z size)%Q) by (rewrite float_dim by lia; reflexivity).
rewrite (rnd_comp _ _ E). split.
- apply round_half_even_ge. apply rnd_nonneg. change (inject_Z 0) with 0%Q. nra.
- apply round_half_even_le. apply rnd_le_repr; [apply representable_Z, dim_abs; lia|]. nra.
Qed.

Lemma fadd_unit (x w : Q) :
  (0 <= x)%Q -> (0 <= w)%Q -> (x + w <= 1)%Q -> (0 <= fadd x w <= 1)%Q.
Proof.
intros Hx Hw Hs. unfold fadd. split.
- apply rnd_nonneg. lra.
- apply rnd_le_repr; [apply (representable_Z 1); reflexivity | exact Hs].
Qed.

(** C8.  For fractions of the unit interval with [x + w <= 1] and
    [y + h <= 1] the manual crop rectangle is made of the rounded products
    of the fractions and the image size, the left and top edges kept
    below the last pixel and the right and bottom edges kept at least one
    pixel further; it lies inside the image and is never empty.  The
    fractions (1/4, 1/4, 1/2, 1/2) on a 400 x 200 image give
    (100, 50)-(300, 150). *)
Theorem manual_crop_in_bounds (image : Image) (m : string) (cx cy cw ch : Q) :
  valid_size image ->
  (0 <= cx <= 1)%Q -> (0 <= cy <= 1)%Q -> (0 <= cw <= 1)%Q -> (0 <= ch <= 1)%Q ->
  (cx + cw <= 1)%Q -> (cy + ch <= 1)%Q ->
  exists x0 y0 x1 y1,
    manual_crop_box image
      {| crop_mode := m; crop_x := Some cx; crop_y := Some cy;
         crop_w := Some cw; crop_h := Some ch |} = Some (x0, y0, x1, y1) /\
    x0 = Z.min (py_round (fmul cx (float (width image)))) (width image - 1) /\
    y0 = Z.min (py_round (fmul cy (float (height image)))) (height image - 1) /\
    x1 = Z.max (x0 + 1) (py_round (fmul (fadd cx cw) (float (width image)))) /\
    y1 = Z.max (y0 + 1) (py_round (fmul (fadd cy ch) (float (height image)))) /\
    0 <= x0 < x1 /\ x1 <= width image /\ 0 <= y0 < y1 /\ y1 <= height image /\
    width (_apply_manual_crop image
             {| crop_mode := m; crop_x := Some cx; crop_y := Some cy;
                crop_w := Some cw; crop_h := Some ch |}) = x1 - x0 /\
    height (_apply_manual_crop image
              {| crop_mode := m; crop_x := Some cx; crop_y := Some cy;
                 crop_w := Some cw; crop_h := Some ch |}) = y1 - y0 /\
    manual_crop_box {| width := 400; height := 200; mode := "RGB" |}
      {| crop_mode := "manual"; crop_x := Some (1 # 4); crop_y := Some (1 # 4);
         crop_w := Some (1 # 2); crop_h := Some (1 # 2) |}
      = Some (100, 50, 300, 150).
Proof.
intros [Hw Hh] Hx Hy Hcw Hch Hsx Hsy.
pose proof (pixel_in_range cx (width image) Hx Hw) as Px.
pose proof (pixel_in_range cy (height image) Hy Hh) as Py.
pose proof (pixel_in_range (fadd cx cw) (width image)
              (fadd_unit cx cw ltac:(lra) ltac:(lra) Hsx) Hw) as Pr.
pose proof (pixel_in_range (fadd cy ch) (height image)
              (fadd_unit cy ch ltac:(lra) ltac:(lra) Hsy) Hh) as Pb.
unfold _apply_manual_crop, manual_crop_box. cbn [crop_x crop_y crop_w crop_h].
eexists _, _, _, _. split; [reflexivity|]. cbn [crop width height].
repeat split; lia.
Qed.

Lemma manual_crop_in_bounds_witness :
  manual_crop_box {| width := 400; height := 200; mode := "RGB" |}
    {| crop_mode := "manual"; crop_x := Some (1 # 4); crop_y := Some (1 # 4);
       crop_w := Some (1 # 2); crop_h := Some (1 # 2) |}
    = Some (100, 50, 300, 150).
Proof.
destruct (manual_crop_in_bounds {| width := 400; height := 200; mode := "RGB" |}
            "manual" (1 # 4) (1 # 4) (1 # 2) (1 # 2)) as (x0 & y0 & x1 & y1 & H).
- unfold valid_size, INT_MAX. cbn. lia.
- lra.
- lra.
- lra.
- lra.
- lra.
- lra.
- apply H.
Defined.

(** A degenerate rectangle, of no width and no height at the far corner,
    still yields the last pixel. *)
Lemma manual_crop_degenerate :
  manual_crop_box {| width := 400; height := 200; mode := "RGB" |}
    {| crop_mode := "manual"; crop_x := Some 1%Q; crop_y := Some 1%Q;
       crop_w := Some 0%Q; crop_h := Some 0%Q |}
    = Some (399, 199, 400, 200).
Proof. vm_compute. reflexivity. Qed.

End GeometryFacts.

(** ** NamingEngine *)
Module NamingFacts.
Import Naming.

(** *** Stripping *)

Lemma lstrip_head_ok (chars text : pystr) : head_ok chars (lstrip chars text).
Proof.
induction text as [|c rest IH]; cbn; [exact I|].
case_bool_decide; [exact IH | assumption].
Qed.

Lemma lstrip_id (chars text : pystr) : head_ok chars text -> lstrip chars text = text.
Proof.
destruct text as [|c rest]; cbn; [reflexivity|].
intros Hc. case_bool_decide; [contradiction | reflexivity].
Qed.

Lemma lstrip_suffix (chars text : pystr) : lstrip chars text `suffix_of` text.
Proof.
induction text as [|c rest IH]; cbn; [reflexivity|].
case_bool_decide; [|reflexivity].
by apply suffix_cons_r.
Qed.

Lemma rstrip_prefix (chars text : pystr) : rstrip chars text `prefix_of` text.
Proof.
unfold rstrip. destruct (lstrip_suffix chars (reverse text)) as [k Hk].
exists (reverse k).
apply (f_equal reverse) in Hk.
rewrite reverse_involutive, reverse_app in Hk. exact Hk.
Qed.

Lemma strip_infix (chars text : pystr) :
  exists a b, text = a ++ strip chars text ++ b.
Proof.
unfold strip.
destruct (lstrip_suffix chars text) as [a Ha].
destruct (rstrip_prefix chars (lstrip chars text)) as [b Hb].
exists a, b. rewrite <- Hb. exact Ha.
Qed.

Lemma head_ok_prefix (chars u v : pystr) :
  u `prefix_of` v -> head_ok chars v -> head_ok chars u.
Proof.
intros [k ->]. destruct u; cbn; [intros; exact I | auto].
Qed.

Lemma strip_ends (chars text : pystr) :
  head_ok chars (strip chars text) /\ head_ok chars (reverse (strip chars text)).
Proof.
split.
- apply head_ok_prefix with (lstrip chars text).
  + apply rstrip_prefix.
  + apply lstrip_head_ok.
- unfold strip, rstrip. rewrite reverse_involutive. apply lstrip_head_ok.
Qed.

Lemma strip_id (chars text : pystr) :
  head_ok chars text -> head_ok chars (reverse text) -> strip chars text = text.
Proof.
intros H1 H2. unfold strip, rstrip.
rewrite (lstrip_id chars text H1), (lstrip_id chars (reverse text) H2).
apply reverse_involutive.
Qed.

Lemma strip_idempotent (chars text : pystr) :
  strip chars (strip chars text) = strip chars text.
Proof. destruct (strip_ends chars text). by apply strip_id. Qed.

(** *** Collapsing the dashes *)

Lemma pair_induction (P : pystr -> Prop) :
  P [] -> (forall c, P [c]) ->
  (forall c c' rest, P rest -> P (c' :: rest) -> P (c :: c' :: rest)) ->
  forall text, P text.
Proof.
intros H0 H1 H2 text.
assert (H : P text /\ forall c, P (c :: text)); [|apply H].
induction text as [|c' rest [IH1 IH2]]; [split; auto|].
split; [apply IH2|]. intros c. apply H2; [exact IH1 | apply IH2].
Qed.

Lemma replace_double_dash_length (text : pystr) :
  length (replace_double_dash text) <= length text /\
  (has_double_dash text = true ->
   length (replace_double_dash text) < length text).
Proof.
induction text as [|c|c c' rest [IH1 IH1'] [IH2 IH2']] using pair_induction.
- cbn. split; [lia | discriminate].
- cbn. split; [lia | discriminate].
- change (replace_double_dash (c :: c' :: rest)) with
    (if ((c =? DASH)%N && (c' =? DASH)%N) then DASH :: replace_double_dash rest
     else c :: replace_double_dash (c' :: rest)).
  change (has_double_dash (c :: c' :: rest)) with
    (((c =? DASH)%N && (c' =? DASH)%N) || has_double_dash (c' :: rest)).
  destruct ((c =? DASH)%N && (c' =? DASH)%N); cbn [orb length] in *.
  + split; intros; lia.
  + split; [lia|]. intros H. specialize (IH2' H). lia.
Qed.

Lemma collapse_loop_no_double_dash (fuel : nat) (text : pystr) :
  length text <= fuel -> has_double_dash (collapse_loop fuel text) = false.
Proof.
revert text. induction fuel as [|fuel IH]; intros text Hlen.
- destruct text; [reflexivity | cbn in Hlen; lia].
- cbn [collapse_loop]. destruct (has_double_dash text) eqn:E; [|exact E].
  apply IH. destruct (replace_double_dash_length text) as [_ H].
  specialize (H E). lia.
Qed.

Lemma collapse_no_double_dash (text : pystr) : has_double_dash (collapse text) = false.
Proof. apply collapse_loop_no_double_dash. reflexivity. Qed.

Lemma collapse_loop_id (fuel : nat) (text : pystr) :
  has_double_dash text = false -> collapse_loop fuel text = text.
Proof. intros H. destruct fuel; cbn; [reflexivity|]. rewrite H. reflexivity. Qed.

Lemma collapse_id (text : pystr) : has_double_dash text = false -> collapse text = text.
Proof. apply collapse_loop_id. Qed.

Lemma has_double_dash_cons (c : N) (text : pystr) :
  has_double_dash (c :: text) = false -> has_double_dash text = false.
Proof.
destruct text as [|c' rest]; [reflexivity|].
change (has_double_dash (c :: c' :: rest)) with
  (((c =? DASH)%N && (c' =? DASH)%N) || has_double_dash (c' :: rest)).
intros H. apply orb_false_iff in H. apply H.
Qed.

Lemma has_double_dash_app (u v : pystr) :
  has_double_dash (u ++ v) = false ->
  has_double_dash u = false /\ has_double_dash v = false.
Proof.
induction u as [|c u IH]; cbn [app]; intros H; [split; [reflexivity | exact H]|].
destruct (IH (has_double_dash_cons _ _ H)) as [IHu IHv].
split; [|exact IHv].
destruct u as [|c' u]; [reflexivity|].
cbn [app] in H.
change (has_double_dash (c :: c' :: u ++ v)) with
  (((c =? DASH)%N && (c' =? DASH)%N) || has_double_dash (c' :: u ++ v)) in H.
change (has_double_dash (c :: c' :: u)) with
  (((c =? DASH)%N && (c' =? DASH)%N) || has_double_dash (c' :: u)).
apply orb_false_iff in H. destruct H as [H1 _].
rewrite H1. exact IHu.
Qed.

Lemma replace_double_dash_Forall (P : N -> Prop) (text : pystr) :
  Forall P text -> Forall P (replace_double_dash text).
Proof.
induction text as [|c|c c' rest IH1 IH2] using pair_induction; intros H.
- constructor.
- exact H.
- change (replace_double_dash (c :: c' :: rest)) with
    (if ((c =? DASH)%N && (c' =? DASH)%N) then DASH :: replace_double_dash rest
     else c :: replace_double_dash (c' :: rest)).
  inversion H as [|? ? Hc H']; subst. inversion H' as [|? ? Hc' H'']; subst.
  destruct ((c =? DASH)%N && (c' =? DASH)%N) eqn:E.
  + apply andb_true_iff in E. destruct E as [E _]. apply N.eqb_eq in E. subst c.
    constructor; [exact Hc | apply IH1, H''].
  + constructor; [exact Hc | apply IH2, H'].
Qed.

Lemma collapse_loop_Forall (P : N -> Prop) (fuel : nat) (text : pystr) :
  Forall P text -> Forall P (collapse_loop fuel text).
Proof.
revert text. induction fuel as [|fuel IH]; intros text H; cbn; [exact H|].
destruct (has_double_dash text); [|exact H].
apply IH, replace_double_dash_Forall, H.
Qed.

Lemma strip_Forall (P : N -> Prop) (chars text : pystr) :
  Forall P text -> Forall P (strip chars text).
Proof.
intros H. destruct (strip_infix chars text) as (a & b & E).
rewrite E in H. apply Forall_app in H. destruct H as [_ H].
apply Forall_app in H. apply H.
Qed.

Lemma strip_no_double_dash (chars text : pystr) :
  has_double_dash text = false -> has_double_dash (strip chars text) = false.
Proof.
intros H. destruct (strip_infix chars text) as (a & b & E).
rewrite E in H. apply has_double_dash_app in H. destruct H as [_ H].
apply has_double_dash_app in H. apply H.
Qed.

(** *** Replacing the spaces *)

Lemma replace_char_Forall (P : N -> Prop) (old : N) (new text : pystr) :
  Forall P new -> Forall (fun c => c <> old -> P c) text ->
  Forall P (replace_char old new text).
Proof.
intros Hnew. unfold replace_char.
induction 1 as [|c rest Hc _ IH]; cbn; [constructor|].
apply Forall_app. split; [|exact IH].
destruct (N.eqb_spec c old); [exact Hnew | constructor; auto].
Qed.

Lemma replace_char_id (old : N) (new text : pystr) :
  Forall (fun c => c <> old) text -> replace_char old new text = text.
Proof.
unfold replace_char. induction 1 as [|c rest Hc _ IH]; cbn; [reflexivity|].
destruct (N.eqb_spec c old); [contradiction|]. cbn. f_equal. exact IH.
Qed.

(** *** Idempotence of [_normalize_name] *)

(** The steps after the accent and case steps undo nothing of their own
    work: run twice they give what they give once. *)
Lemma normalize_tail_Forall (P : N -> Prop) (replace_spaces : option pystr)
    (collapse_dashes : bool) (text : pystr) :
  match replace_spaces with Some r => Forall P r | None => True end ->
  Forall (fun c => replace_spaces = None \/ c <> SPACE -> P c) text ->
  Forall P (normalize_tail replace_spaces collapse_dashes text).
Proof.
intros Hr Htext. unfold normalize_tail. apply strip_Forall.
assert (Forall P match replace_spaces with
                 | Some r => replace_char SPACE r text
                 | None => text
                 end) as Hpre.
{ destruct replace_spaces as [r|].
  - apply replace_char_Forall; [exact Hr|].
    eapply Forall_impl; [exact Htext|]. cbn. auto.
  - eapply Forall_impl; [exact Htext|]. cbn. auto. }
destruct collapse_dashes; [apply collapse_loop_Forall|]; exact Hpre.
Qed.

Lemma normalize_tail_idempotent (replace_spaces : option pystr) (collapse_dashes : bool)
    (text : pystr) :
  space_free replace_spaces ->
  normalize_tail replace_spaces collapse_dashes
    (normalize_tail replace_spaces collapse_dashes text)
  = normalize_tail replace_spaces collapse_dashes text.
Proof.
intros Hsp.
set (once := normalize_tail replace_spaces collapse_dashes text).
assert (E3 : match replace_spaces with
             | Some r => replace_char SPACE r once
             | None => once
             end = once).
{ destruct replace_spaces as [r|] eqn:Er; [|reflexivity].
  apply replace_char_id. unfold once.
  apply (normalize_tail_Forall (fun c => c <> SPACE)).
  - apply Forall_forall. intros c Hc ->. exact (Hsp Hc).
  - apply Forall_forall. intros c _ [C|C]; [discriminate C | exact C]. }
assert (E4 : (if collapse_dashes then collapse once else once) = once).
{ destruct collapse_dashes eqn:Ec; [|reflexivity].
  apply collapse_id. unfold once, normalize_tail.
  apply strip_no_double_dash, collapse_no_double_dash. }
unfold normalize_tail at 1. rewrite E3, E4.
unfold once, normalize_tail. apply strip_idempotent.
Qed.

(** C7, as the code has it.  Normalising twice gives the same name as
    normalising once when the replacement for spaces holds no space and
    the accent and case steps, where enabled, leave the first result as it
    is. *)
Theorem normalize_idempotent `{Unicode} (value : pystr) (lowercase remove_accents : bool)
    (replace_spaces : option pystr) (collapse_dashes : bool) :
  let once := _normalize_name value lowercase remove_accents replace_spaces collapse_dashes in
  space_free replace_spaces ->
  (remove_accents = true -> remove_accents_step once = once) ->
  (lowercase = true -> lower once = once) ->
  _normalize_name once lowercase remove_accents replace_spaces collapse_dashes = once.
Proof.
intros once Hsp Hacc Hlow.
change (_normalize_name once lowercase remove_accents replace_spaces collapse_dashes)
  with (normalize_tail replace_spaces collapse_dashes
          (let text := if remove_accents then remove_accents_step once else once in
           if lowercase then lower text else text)).
cbv zeta.
assert (E1 : (if remove_accents then remove_accents_step once else once) = once).
{ destruct remove_accents; [apply Hacc|]; reflexivity. }
rewrite E1.
assert (E2 : (if lowercase then lower once else once) = once).
{ destruct lowercase; [apply Hlow|]; reflexivity. }
rewrite E2.
apply normalize_tail_idempotent, Hsp.
Qed.

Lemma normalize_idempotent_witness :
  @_normalize_name ascii_unicode
    (@_normalize_name ascii_unicode (of_string " Mi Foto -- Final ") true true
       (Some [DASH]) true)
    true true (Some [DASH]) true
  = @_normalize_name ascii_unicode (of_string " Mi Foto -- Final ") true true
      (Some [DASH]) true.
Proof.
apply (@normalize_idempotent ascii_unicode (of_string " Mi Foto -- Final ") true true
         (Some [DASH]) true).
- cbn. intros C. apply list_elem_of_singleton in C. discriminate C.
- intros _. vm_compute. reflexivity.
- intros _. vm_compute. reflexivity.
Defined.

(** C7 as the specification states it fails on two choices of the
    replacement string: one in upper case while lower-casing is on (the
    replacement is inserted after the case step), and one that itself
    holds spaces. *)
Lemma normalize_not_idempotent :
  (let normalize := fun s =>
     @_normalize_name ascii_unicode s true true (Some (of_string "X")) true in
   normalize (of_string "a b") = of_string "aXb" /\
   normalize (normalize (of_string "a b")) = of_string "axb" /\
   normalize (normalize (of_string "a b")) <> normalize (of_string "a b")) /\
  (let normalize := fun s =>
     @_normalize_name ascii_unicode s false false (Some (of_string "  ")) false in
   normalize (of_string "a b") = of_string "a  b" /\
   normalize (normalize (of_string "a b")) = of_string "a    b" /\
   normalize (normalize (of_string "a b")) <> normalize (of_string "a b")).
Proof.
split; cbv zeta; (split; [vm_compute; reflexivity|]);
  (split; [vm_compute; reflexivity|]); vm_compute; discriminate.
Qed.

(** On the ASCII tables the two side conditions on the accent and case
    steps follow from the replacement string being in lower case. *)
Lemma ascii_lower_char_idempotent (c : N) :
  ascii_lower_char (ascii_lower_char c) = ascii_lower_char c.
Proof.
unfold ascii_lower_char.
destruct ((65 <=? c)%N && (c <=? 90)%N) eqn:E; [|rewrite E; reflexivity].
apply andb_true_iff in E. destruct E as [E1 E2].
apply N.leb_le in E1, E2.
assert ((c + 32 <=? 90)%N = false) as -> by (apply N.leb_gt; lia).
rewrite andb_false_r. reflexivity.
Qed.

Lemma map_fixed (f : N -> N) (text : pystr) :
  Forall (fun c => f c = c) text <-> map f text = text.
Proof.
split.
- induction 1 as [|c rest Hc _ IH]; cbn; [reflexivity|]. by rewrite Hc, IH.
- induction text as [|c rest IH]; cbn; intros E; [constructor|].
  injection E as E1 E2. constructor; auto.
Qed.

Lemma filter_all (text : list N) : filter (fun _ : N => false = false) text = text.
Proof.
induction text as [|c rest IH]; [reflexivity|].
rewrite filter_cons_True by reflexivity. by rewrite IH.
Qed.

#[local] Existing Instance ascii_unicode.

Lemma normalize_idempotent_ascii (value : pystr) (lowercase remove_accents : bool)
    (replace_spaces : option pystr) (collapse_dashes : bool) :
  space_free replace_spaces ->
  (lowercase = true -> lower_stable replace_spaces) ->
  _normalize_name
    (_normalize_name value lowercase remove_accents replace_spaces collapse_dashes)
    lowercase remove_accents replace_spaces collapse_dashes
  = _normalize_name value lowercase remove_accents replace_spaces collapse_dashes.
Proof.
intros Hsp Hls.
set (once := _normalize_name value lowercase remove_accents replace_spaces collapse_dashes).
assert (E1 : (if remove_accents then remove_accents_step once else once) = once).
{ destruct remove_accents; [|reflexivity].
  unfold remove_accents_step. cbn [nfd category_Mn ascii_unicode]. apply filter_all. }
assert (E2 : (if lowercase then lower once else once) = once).
{ destruct lowercase; [|reflexivity]. specialize (Hls eq_refl).
  cbn [lower ascii_unicode]. apply map_fixed.
  apply (normalize_tail_Forall (fun c => ascii_lower_char c = c)).
  - destruct replace_spaces as [r|]; [apply map_fixed, Hls | exact I].
  - cbn [lower ascii_unicode]. apply Forall_forall. intros c Hc _.
    apply list_elem_of_fmap in Hc. destruct Hc as (c0 & -> & _).
    apply ascii_lower_char_idempotent. }
change (_normalize_name once lowercase remove_accents replace_spaces collapse_dashes)
  with (normalize_tail replace_spaces collapse_dashes
          (let text := if remove_accents then remove_accents_step once else once in
           if lowercase then lower text else text)).
cbv zeta. rewrite E1, E2. apply normalize_tail_idempotent, Hsp.
Qed.

(** *** Uniqueness of the output names *)

Lemma of_string_inj (s1 s2 : string) : of_string s1 = of_string s2 -> s1 = s2.
Proof.
unfold of_string. intros E.
assert (E' : String.list_ascii_of_string s1 = String.list_ascii_of_string s2).
{ revert E. generalize (String.list_ascii_of_string s1) (String.list_ascii_of_string s2).
  induction l as [|a l IH]; intros [|b l']; cbn; intros E; try discriminate; [reflexivity|].
  injection E as E1 E2. f_equal; [|by apply IH].
  rewrite <- (Ascii.ascii_N_embedding a), <- (Ascii.ascii_N_embedding b). by rewrite E1. }
rewrite <- (String.string_of_list_ascii_of_string s1),
        <- (String.string_of_list_ascii_of_string s2). by rewrite E'.
Qed.

Lemma str_of_nat_inj (n m : nat) : str_of_nat n = str_of_nat m -> n = m.
Proof. intros E. apply of_string_inj in E. by apply (inj pretty) in E. Qed.

Lemma candidate_inj (base sfx : pystr) (n m : nat) :
  candidate base sfx n = candidate base sfx m -> n = m.
Proof.
unfold candidate. intros E.
apply app_inv_head in E. apply app_inv_head in E. apply app_inv_tail in E.
by apply str_of_nat_inj.
Qed.

(** The search returns the first candidate that is free. *)
Lemma unique_loop_Some (fuel : nat) (base sfx : pystr) (used_names : gset pystr)
    (counter : nat) (r : pystr) :
  unique_loop fuel base sfx used_names counter = Some r ->
  exists k, k < fuel /\ r = candidate base sfx (counter + k) /\ (r ∉ used_names) /\
    forall j, j < k -> candidate base sfx (counter + j) ∈ used_names.
Proof.
revert counter. induction fuel as [|fuel IH]; intros counter; cbn; [discriminate|].
case_bool_decide as Hc.
- intros [= <-]. exists 0. rewrite Nat.add_0_r.
  split; [lia|]. split; [reflexivity|]. split; [exact Hc|]. intros j Hj. lia.
- intros E. destruct (IH _ E) as (k & Hk & -> & Hr & Hall).
  exists (S k). split; [lia|].
  replace (counter + S k) with (S counter + k) by lia.
  split; [reflexivity|]. split; [exact Hr|].
  intros [|j] Hj.
  + rewrite Nat.add_0_r. destruct (decide (candidate base sfx counter ∈ used_names)); tauto.
  + replace (counter + S j) with (S counter + j) by lia. apply Hall. lia.
Qed.

Lemma unique_loop_None (fuel : nat) (base sfx : pystr) (used_names : gset pystr)
    (counter : nat) :
  unique_loop fuel base sfx used_names counter = None ->
  forall j, j < fuel -> candidate base sfx (counter + j) ∈ used_names.
Proof.
revert counter. induction fuel as [|fuel IH]; intros counter; cbn; [intros _ j Hj; lia|].
case_bool_decide as Hc; [discriminate|].
intros E [|j] Hj.
- rewrite Nat.add_0_r. destruct (decide (candidate base sfx counter ∈ used_names)); tauto.
- replace (counter + S j) with (S counter + j) by lia. apply (IH _ E). lia.
Qed.

(** There are no more used candidates than used names. *)
Lemma used_candidates_bound (fuel : nat) (base sfx : pystr) (used_names : gset pystr)
    (counter : nat) :
  (forall j, j < fuel -> candidate base sfx (counter + j) ∈ used_names) ->
  fuel <= size used_names.
Proof.
intros Hall.
set (l := candidate base sfx <$> seq counter fuel).
assert (Hnd : NoDup l).
{ apply NoDup_fmap_2; [intros n m; apply candidate_inj | apply NoDup_seq]. }
assert (Hsub : (list_to_set l : gset pystr) ⊆ used_names).
{ intros x Hx. apply elem_of_list_to_set in Hx.
  apply list_elem_of_fmap in Hx. destruct Hx as (n & -> & Hn).
  apply elem_of_seq in Hn.
  replace n with (counter + (n - counter)) by lia. apply Hall. lia. }
apply subseteq_size in Hsub.
rewrite size_list_to_set in Hsub by exact Hnd.
unfold l in Hsub. rewrite length_fmap, length_seq in Hsub. exact Hsub.
Qed.

Lemma unique_loop_more_fuel (fuel fuel' : nat) (base sfx : pystr)
    (used_names : gset pystr) (counter : nat) (r : pystr) :
  unique_loop fuel base sfx used_names counter = Some r -> fuel <= fuel' ->
  unique_loop fuel' base sfx used_names counter = Some r.
Proof.
revert fuel' counter. induction fuel as [|fuel IH]; intros fuel' counter; cbn; [discriminate|].
intros E Hle. destruct fuel' as [|fuel']; [lia|]. cbn.
case_bool_decide; [exact E|]. apply IH; [exact E | lia].
Qed.

(** C6.  [_ensure_unique_name] returns a name, the name is not among the
    used ones, and it is the same name for any set with the same members
    and for any larger bound on the search. *)
Theorem ensure_unique_name_fresh `{Pathlib} (name : pystr) (used_names : gset pystr) :
  exists r, _ensure_unique_name name used_names = Some r /\
    (r ∉ used_names) /\
    (forall used', used' ≡ used_names -> _ensure_unique_name name used' = Some r) /\
    (name ∈ used_names -> forall fuel, size used_names < fuel ->
       unique_loop fuel (path_stem name) (path_suffix name) used_names 2 = Some r).
Proof.
unfold _ensure_unique_name.
destruct (decide (name ∈ used_names)) as [Hin|Hout].
- rewrite bool_decide_eq_false_2 by tauto.
  destruct (unique_loop (S (size used_names)) (path_stem name) (path_suffix name)
              used_names 2) as [r|] eqn:E.
  + exists r. split; [reflexivity|].
    destruct (unique_loop_Some _ _ _ _ _ _ E) as (k & _ & _ & Hr & _).
    split; [exact Hr|]. split.
    * intros used' Heq. apply leibniz_equiv in Heq. subst used'.
      rewrite bool_decide_eq_false_2 by tauto. exact E.
    * intros _ fuel Hf. apply (unique_loop_more_fuel _ _ _ _ _ _ _ E). lia.
  + exfalso. pose proof (used_candidates_bound _ _ _ _ _ (unique_loop_None _ _ _ _ _ E)). lia.
- rewrite bool_decide_eq_true_2 by exact Hout.
  exists name. split; [reflexivity|]. split; [exact Hout|]. split.
  + intros used' Heq. apply leibniz_equiv in Heq. subst used'.
    rewrite bool_decide_eq_true_2 by exact Hout. reflexivity.
  + intros Hin. contradiction.
Qed.

Lemma ensure_unique_name_example :
  @_ensure_unique_name flat_pathlib (of_string "foto.webp")
    {[ of_string "foto.webp"; of_string "foto-2.webp" ]}
  = Some (of_string "foto-3.webp").
Proof. vm_compute. reflexivity. Qed.

End NamingFacts.

(** ** SettingsResolver: the effective preset *)
Module PresetsFacts.
Import Presets.

(** C5, as the code has it.  The effective preset follows the precedence
    chain selected, job, recommended, first catalog entry, where the job's
    preset takes part only if the catalog holds it; whenever the job's
    preset is unset or known, that is the chain of the specification. *)
Theorem effective_preset_precedence (c : Catalog) (job_file : JobFile.t) (job : Job.t) :
  _resolve_effective_preset c job_file job
    = precedence_chain c job_file (forget_unknown_preset c job) /\
  (Job.preset job = "" \/ is_Some (get_preset c (Job.preset job)) ->
   _resolve_effective_preset c job_file job = precedence_chain c job_file job).
Proof.
assert (T0 : forall s, s = "" -> truthy (Some s) = None).
{ intros s ->. reflexivity. }
assert (T1 : forall s, s <> "" -> truthy (Some s) = Some s).
{ intros s Hs. unfold truthy. rewrite bool_decide_eq_false_2 by exact Hs. reflexivity. }
unfold _resolve_effective_preset, precedence_chain.
destruct (truthy (JobFile.selected_preset_id job_file)) as [selected|]; [tauto|].
destruct (decide (Job.preset job = "")) as [Hp|Hp].
- rewrite (T0 _ Hp).
  assert (E : Job.preset (forget_unknown_preset c job) = "").
  { unfold forget_unknown_preset. destruct (get_preset c (Job.preset job)); [exact Hp | reflexivity]. }
  rewrite (T0 _ E). tauto.
- rewrite (T1 _ Hp). unfold forget_unknown_preset.
  destruct (get_preset c (Job.preset job)) as [p|] eqn:E.
  + rewrite (T1 _ Hp), E. tauto.
  + cbn [Job.preset]. rewrite (T0 "" eq_refl). split; [reflexivity|].
    intros [C|[p C]]; [contradiction | discriminate].
Qed.

(** C5 as the specification states it fails, however its "else" is read.
    If an identifier decides as soon as it is set, the chain stops at a job
    preset that the catalog lacks and finds nothing, while the code goes on
    to the recommended preset.  If an identifier decides only when the
    catalog holds it, the chain passes over a selected preset that the
    catalog lacks and finds the job's preset, while the code stops there
    with nothing. *)
Lemma effective_preset_unknown_job_preset :
  (precedence_chain base_only (plain_file None "ig-post") (plain_job "ghost") = None /\
   _resolve_effective_preset base_only (plain_file None "ig-post") (plain_job "ghost")
     = Some ig_post) /\
  (first_found_chain base_only (plain_file (Some "ghost") "") (plain_job "hero-1920")
     = Some hero /\
   _resolve_effective_preset base_only (plain_file (Some "ghost") "") (plain_job "hero-1920")
     = None).
Proof. repeat split; vm_compute; reflexivity. Qed.

Lemma effective_preset_examples :
  _resolve_effective_preset base_only (plain_file (Some "ig-post") "") (plain_job "hero-1920")
    = Some ig_post /\
  _resolve_effective_preset base_only (plain_file None "ig-post") (plain_job "hero-1920")
    = Some hero /\
  _resolve_effective_preset base_only (plain_file None "ig-post") (plain_job "")
    = Some ig_post /\
  _resolve_effective_preset base_only (plain_file None "") (plain_job "")
    = Some hero /\
  _resolve_effective_preset base_only (plain_file (Some "ghost") "ig-post") (plain_job "hero-1920")
    = None.
Proof. repeat split; vm_compute; reflexivity. Qed.

End PresetsFacts.

(** ** JobOrchestrator *)
Module OrchestratorFacts.
Import Float64 Float64Facts Geometry GeometryFacts Naming Presets Orchestrator.
Local Open Scope Z_scope.

(** *** The percentage of progress *)


Lemma py_int_nonneg (y : Q) : (0 <= y)%Q -> py_int y = Qfloor y.
Proof. intros H. unfold py_int. apply Qle_bool_iff in H. rewrite H. reflexivity. Qed.

Lemma Qfloor_lt_Z (y : Q) (z : Z) : (y < inject_Z z)%Q -> Qfloor y < z.
Proof.
intros H. pose proof (Qfloor_le y) as F.
assert (C : (inject_Z (Qfloor y) < inject_Z z)%Q) by lra.
rewrite <- Zlt_Qlt in C. exact C.
Qed.

Lemma Qfloor_ge_Z (y : Q) (z : Z) : (inject_Z z <= y)%Q -> z <= Qfloor y.
Proof. intros H. rewrite <- (Qfloor_Z z). apply Qfloor_resp_le, H. Qed.



Lemma progress_percent_57_of_100 : progress_percent 57 100 = 56.
Proof. vm_compute. reflexivity. Qed.

Lemma nondecreasing_snoc (l : list Z) (x : Z) :
  nondecreasing l -> Forall (fun a => a <= x) l -> nondecreasing (l ++ [x]).
Proof.
intros Hl Hx i j a b Hij Hi Hj.
destruct (decide (j < length l)%nat) as [Hjl|Hjl].
- rewrite lookup_app_l in Hi, Hj by lia. exact (Hl i j a b Hij Hi Hj).
- assert (Ej : j = length l).
  { apply lookup_lt_Some in Hj. rewrite length_app in Hj. cbn in Hj. lia. }
  subst j. rewrite lookup_app_r, Nat.sub_diag in Hj by lia. injection Hj as <-.
  destruct (decide (i < length l)%nat) as [Hil|Hil].
  + rewrite lookup_app_l in Hi by lia.
    rewrite Forall_forall in Hx. apply Hx. eapply list_elem_of_lookup_2, Hi.
  + assert (i = length l) by lia. subst i.
    rewrite lookup_app_r, Nat.sub_diag in Hi by lia. injection Hi as <-. lia.
Qed.

Lemma nondecreasing_singleton (x : Z) : nondecreasing [x].
Proof.
intros i j a b _ Hi Hj.
destruct i as [|i]; [|destruct i; discriminate Hi].
destruct j as [|j]; [|destruct j; discriminate Hj].
cbn in Hi, Hj. injection Hi as <-. injection Hj as <-. lia.
Qed.

Section Orchestration.
Context `{Env}.

(** *** The per-file step *)

(** The mapped message is never empty, so a failed file always carries
    one. *)
Lemma mapped_message_nonempty (exc : exn) : mapped_message exc <> "".
Proof.
induction exc as [|msg| | | |errno|name base IH|name]; cbn; try discriminate.
- case_bool_decide as E; [discriminate | exact E].
- destruct errno as [errno|]; [case_bool_decide|]; discriminate.
- exact IH.
Qed.

Lemma human_error_message_nonempty (exc : exn) : _human_error_message exc <> "".
Proof.
unfold _human_error_message. pose proof (mapped_message_nonempty exc) as M.
destruct debug; [|exact M].
destruct (mapped_message exc); [congruence | discriminate].
Qed.

(** The mapping of the exceptions to messages, subclasses included. *)
Lemma human_error_message_cases :
  debug = false ->
  _human_error_message UnidentifiedImageError
    = "No se pudo leer la imagen. Verifica que sea JPG/PNG/WEBP." /\
  _human_error_message MemoryError = "Memoria insuficiente para procesar la imagen." /\
  _human_error_message PermissionError
    = "Permisos insuficientes en carpeta de salida del servidor." /\
  _human_error_message (OSError (Some ENOSPC))
    = "Espacio insuficiente para generar resultados. Libera espacio." /\
  (forall msg, msg <> "" -> _human_error_message (ValueError msg) = msg) /\
  (forall name msg, msg <> "" -> _human_error_message (Subclass name (ValueError msg)) = msg) /\
  _human_error_message (ValueError "") = GENERIC_ERROR /\
  (forall name, _human_error_message (OtherError name) = GENERIC_ERROR) /\
  _human_error_message ZeroDivisionError = GENERIC_ERROR.
Proof.
intros D. unfold _human_error_message. rewrite D. cbn.
repeat split; try reflexivity; intros; rewrite bool_decide_eq_false_2 by assumption;
  reflexivity.
Qed.

(** The row a call of [_process_job_file] leaves is the row it was given,
    with the recommendation stored when the call got that far. *)
Lemma process_job_file_row (job_file row : JobFile.t) (job : Job.t) (r : result FileOutput)
    (used used' : gset pystr) :
  _process_job_file job_file job used = (r, row, used') ->
  row = job_file \/
  exists preset_id, row = JobFile.with_recommended_preset_id preset_id job_file.
Proof.
unfold _process_job_file.
destruct (open_image (JobFile.id job_file)) as [image|exc]; [|intros [= _ <- _]; auto].
destruct (_ <? _); [intros [= _ <- _]; auto|].
destruct (recommend job image) as [preset_id|exc]; [|intros [= _ <- _]; auto].
destruct (render _ job image used) as [r' u]. intros [= _ <- _]. eauto.
Qed.

Lemma save_job_file_output_done (job_file saved : JobFile.t) (out : FileOutput) :
  _save_job_file_output job_file out = Ok saved ->
  JobFile.status saved = JobFile.DONE /\ JobFile.error_message saved = "" /\
  JobFile.id saved = JobFile.id job_file /\
  JobFile.selected_preset_id saved = JobFile.selected_preset_id job_file /\
  JobFile.output_size saved = Some (out_size out) /\
  JobFile.output_width saved = out_width out /\
  JobFile.output_height saved = out_height out.
Proof.
unfold _save_job_file_output. destruct (storage_save job_file out) as [n|e]; cbn; [|discriminate].
intros [= <-]. cbn. repeat split.
Qed.

Lemma process_and_save_Saved (job_file saved : JobFile.t) (job : Job.t) (out : FileOutput)
    (used used' : gset pystr) :
  process_and_save job_file job used = (Saved saved out, used') ->
  JobFile.status saved = JobFile.DONE /\ JobFile.error_message saved = "" /\
  JobFile.id saved = JobFile.id job_file /\
  JobFile.selected_preset_id saved = JobFile.selected_preset_id job_file /\
  JobFile.output_size saved = Some (out_size out) /\
  JobFile.output_width saved = out_width out /\
  JobFile.output_height saved = out_height out.
Proof.
unfold process_and_save.
destruct (_process_job_file job_file job used) as [[[o|e] row] u] eqn:P; [|discriminate].
destruct (_save_job_file_output row o) as [sv|e] eqn:E; [|discriminate].
intros [= <- <- <-]. apply save_job_file_output_done in E.
destruct (process_job_file_row _ _ _ _ _ _ P) as [->|[preset_id ->]]; exact E.
Qed.

(** When the [try] statement raises, the row differs from the one it was
    given in the recommendation at most. *)
Lemma process_and_save_Failed (job_file row object : JobFile.t) (job : Job.t) (exc : exn)
    (used used' : gset pystr) :
  process_and_save job_file job used = (Failed exc row object, used') ->
  row = job_file \/
  exists preset_id, row = JobFile.with_recommended_preset_id preset_id job_file.
Proof.
unfold process_and_save.
destruct (_process_job_file job_file job used) as [[[o|e] row'] u] eqn:P.
- destruct (_save_job_file_output row' o) as [sv|e]; [discriminate|].
  intros [= _ <- _ _]. eapply process_job_file_row, P.
- intros [= _ <- _ _]. eapply process_job_file_row, P.
Qed.

(** The row of a file after the [except] clause. *)
Lemma mark_failed_row (job_file row : JobFile.t) (exc : exn) :
  row = job_file \/
  (exists preset_id, row = JobFile.with_recommended_preset_id preset_id job_file) ->
  JobFile.status (mark_failed row exc) = JobFile.FAILED /\
  JobFile.error_message (mark_failed row exc) = _human_error_message exc /\
  JobFile.id (mark_failed row exc) = JobFile.id job_file /\
  JobFile.selected_preset_id (mark_failed row exc) = JobFile.selected_preset_id job_file /\
  JobFile.output_name (mark_failed row exc) = JobFile.output_name job_file /\
  JobFile.output_size (mark_failed row exc) = JobFile.output_size job_file /\
  JobFile.output_width (mark_failed row exc) = JobFile.output_width job_file /\
  JobFile.output_height (mark_failed row exc) = JobFile.output_height job_file.
Proof. intros [->|[preset_id ->]]; cbn; repeat split. Qed.

Lemma loop_body_spec (index : nat) (job_file : JobFile.t) (job : Job.t) (st : LoopState) :
  exists job_file',
    file_outcome job_file job_file' /\
    ls_job (loop_body index job_file job st) = job_after index job /\
    ls_files (loop_body index job_file job st) = ls_files st ++ [job_file'] /\
    ls_saves (loop_body index job_file job st) = ls_saves st ++ [job_after index job] /\
    (forall exc row object used',
       process_and_save (JobFile.with_status JobFile.PROCESSING job_file) job (ls_used st)
         = (Failed exc row object, used') ->
       job_file' = mark_failed row exc /\
       ls_errors (loop_body index job_file job st) = true /\
       ls_used (loop_body index job_file job st) = used').
Proof.
unfold loop_body.
destruct (process_and_save (JobFile.with_status JobFile.PROCESSING job_file) job (ls_used st))
  as [[saved out|exc row object] used'] eqn:E.
- exists saved. cbn. split.
  + apply process_and_save_Saved in E.
    destruct E as (E1 & E2 & E3 & E4 & E5 & E6 & E7).
    unfold file_outcome. rewrite E1, E2, E3, E4, E5, E6, E7. cbn.
    split; [reflexivity|]. split; [reflexivity|]. right. repeat split; eexists; reflexivity.
  + repeat split; try reflexivity; congruence.
- exists (mark_failed row exc). cbn. split.
  + apply process_and_save_Failed in E.
    destruct (mark_failed_row (JobFile.with_status JobFile.PROCESSING job_file) row exc E)
      as (F1 & F2 & F3 & F4 & F5 & F6 & F7 & F8).
    unfold file_outcome. rewrite F1, F2, F3, F4, F5, F6, F7, F8. cbn.
    split; [reflexivity|]. split; [reflexivity|]. left.
    split; [reflexivity|]. split; [apply human_error_message_nonempty|]. repeat split.
  + split; [reflexivity|]. split; [reflexivity|]. split; [reflexivity|].
    intros ? ? ? ? [= <- <- <- <-]. repeat split.
Qed.


(** *** The invariant of the file loop *)

Lemma saved_ok_weaken (T n n' : Z) (s : Job.t) : n <= n' -> saved_ok T n s -> saved_ok T n' s.
Proof. unfold saved_ok. intros Hn (H1 & H2 & H3). repeat split; try assumption; lia. Qed.

Lemma saved_ok_with_status (T n : Z) (v : Job.Status) (s : Job.t) :
  saved_ok T n s -> saved_ok T n (Job.with_status v s).
Proof. unfold saved_ok. cbn. auto. Qed.

Lemma loop_inv_save (T n n' : Z) (st : LoopState) (job : Job.t) :
  loop_inv T n st -> n <= n' -> saved_ok T n' job -> Job.processed_files job = n' ->
  nondecreasing (Job.processed_files <$> (ls_saves st ++ [job])) /\
  Forall (saved_ok T n') (ls_saves st ++ [job]).
Proof.
intros (_ & _ & Hnd & Hall) Hn Hj Hpf. split.
- rewrite fmap_app. cbn [fmap list_fmap]. apply nondecreasing_snoc; [exact Hnd|].
  apply Forall_fmap. eapply Forall_impl; [exact Hall|].
  intros s (_ & Hs & _). cbn. lia.
- apply Forall_app. split.
  + eapply Forall_impl; [exact Hall|]. intros s. apply saved_ok_weaken, Hn.
  + constructor; [exact Hj | constructor].
Qed.

Lemma file_loop_inv (T : Z) (todo : list JobFile.t) :
  forall (index : nat) (st : LoopState),
    (1 <= index)%nat -> loop_inv T (Z.of_nat index - 1) st ->
    match file_loop index todo st with
    | Completed st' =>
      loop_inv T (Z.of_nat index - 1 + Z.of_nat (length todo)) st' /\
      exists new, ls_files st' = ls_files st ++ new /\ Forall2 file_outcome todo new
    | Interrupted st' rest =>
      (exists n, Z.of_nat index - 1 <= n <= Z.of_nat index - 1 + Z.of_nat (length todo) /\
                 loop_inv T n st') /\
      (Job.status (ls_job st') = Job.PAUSED \/ Job.status (ls_job st') = Job.CANCELED)
    end.
Proof.
induction todo as [|job_file rest IH]; intros index st Hi Hinv.
- cbn. split.
  + replace (Z.of_nat index - 1 + Z.of_nat 0) with (Z.of_nat index - 1) by lia. exact Hinv.
  + exists []. rewrite app_nil_r. split; [reflexivity | constructor].
- cbn [file_loop].
  set (job := Job.with_status (refresh_status index) (ls_job st)).
  assert (Hjob : saved_ok T (Z.of_nat index - 1) job /\
                 Job.processed_files job = Z.of_nat index - 1).
  { destruct Hinv as (H1 & H2 & _). split; [apply saved_ok_with_status, H1 | exact H2]. }
  destruct Hjob as [Hjob Hpf].
  assert (Hint : forall st',
            st' = {| ls_job := job; ls_files := ls_files st; ls_errors := ls_errors st;
                     ls_used := ls_used st; ls_rows := ls_rows st;
                     ls_saves := ls_saves st ++ [job] |} ->
            exists n, Z.of_nat index - 1 <= n
                        <= Z.of_nat index - 1 + Z.of_nat (length (job_file :: rest)) /\
                      loop_inv T n st').
  { intros st' ->. exists (Z.of_nat index - 1). split; [cbn [length]; lia|].
    destruct (loop_inv_save T _ (Z.of_nat index - 1) st job Hinv ltac:(lia) Hjob Hpf).
    unfold loop_inv. cbn. auto. }
  case_bool_decide as Hp; [split; [apply Hint; reflexivity | left; exact Hp]|].
  case_bool_decide as Hc; [split; [apply Hint; reflexivity | right; exact Hc]|].
  destruct (loop_body_spec index job_file job st) as (jf' & Hout & Ej & Ef & Es & _).
  assert (Hafter : saved_ok T (Z.of_nat (S index) - 1) (job_after index job) /\
                   Job.processed_files (job_after index job) = Z.of_nat (S index) - 1).
  { destruct Hjob as (Ht & _ & _). unfold saved_ok, job_after.
    cbn [Job.total_files Job.processed_files Job.progress Job.with_progress
         Job.with_processed_files].
    rewrite Ht. repeat split; lia. }
  destruct Hafter as [Hafter Hpf'].
  assert (Hinv' : loop_inv T (Z.of_nat (S index) - 1) (loop_body index job_file job st)).
  { destruct (loop_inv_save T _ (Z.of_nat (S index) - 1) st (job_after index job)
                Hinv ltac:(lia) Hafter Hpf').
    unfold loop_inv. rewrite Ej, Es. auto. }
  specialize (IH (S index) (loop_body index job_file job st) ltac:(lia) Hinv').
  destruct (file_loop (S index) rest (loop_body index job_file job st)) as [st'|st' rest'].
  + destruct IH as (IH1 & new & En & Hnew). split.
    * replace (Z.of_nat index - 1 + Z.of_nat (length (job_file :: rest)))
        with (Z.of_nat (S index) - 1 + Z.of_nat (length rest)) by (cbn [length]; lia).
      exact IH1.
    * exists (jf' :: new). split; [|constructor; assumption].
      rewrite En, Ef, <- app_assoc. reflexivity.
  + destruct IH as ((n & Hn & IH1) & IH2). split; [|exact IH2].
    exists n. split; [cbn [length]; lia | exact IH1].
Qed.

Lemma file_loop_undisturbed (todo : list JobFile.t) :
  undisturbed -> forall (index : nat) (st : LoopState),
    exists st', file_loop index todo st = Completed st'.
Proof.
intros Hu. induction todo as [|job_file rest IH]; intros index st; cbn [file_loop].
- eexists. reflexivity.
- destruct (Hu index) as [Hp Hc]. cbn [Job.status Job.with_status].
  rewrite !bool_decide_eq_false_2 by assumption. apply IH.
Qed.


(** *** Progress of a job *)

Lemma progress_percent_zero (t : Z) : progress_percent 0 t = 0.
Proof.
unfold progress_percent. destruct (Z.eqb_spec t 0) as [|Ht]; [reflexivity|].
rewrite int_truediv_Ok by exact Ht.
assert (E : rnd (inject_Z 0 / inject_Z t) = 0%Q).
{ apply rnd_zero_eq. unfold Qdiv. rewrite Qmult_0_l. reflexivity. }
rewrite E. vm_compute. reflexivity.
Qed.



(** *** Failures of single files *)

(** C4.  In the loop of a full job, when the processing of a file raises,
    that file is stored Failed with the message mapped from the
    exception, with its id and the output it had; the files before it and
    after it are not touched, the job is neither failed nor stopped at
    that point, and the loop goes on with the next file.  With no pause
    or cancel request every file ends Failed with a message or Done with
    none, every file is counted and the job ends Done or Failed.  The
    single-file reprocess stores the file Failed in the same way and
    raises the exception to its caller.  The mapped message is the one of
    the first class of the chain the exception is an instance of, its own
    text for a [ValueError] or a subclass of it, the generic message
    otherwise. *)
Theorem file_failure_handling :
  (forall index job_file rest st exc row object used',
     refresh_status index <> Job.PAUSED -> refresh_status index <> Job.CANCELED ->
     process_and_save (JobFile.with_status JobFile.PROCESSING job_file)
       (Job.with_status (refresh_status index) (ls_job st)) (ls_used st)
       = (Failed exc row object, used') ->
     exists st' failed,
       file_loop index (job_file :: rest) st = file_loop (S index) rest st' /\
       ls_files st' = ls_files st ++ [failed] /\
       JobFile.status failed = JobFile.FAILED /\
       JobFile.error_message failed = _human_error_message exc /\
       JobFile.id failed = JobFile.id job_file /\
       JobFile.output_name failed = JobFile.output_name job_file /\
       JobFile.output_size failed = JobFile.output_size job_file /\
       ls_errors st' = true /\
       Job.processed_files (ls_job st') = Z.of_nat index /\
       Job.status (ls_job st') = refresh_status index /\
       Job.error_message (ls_job st') = Job.error_message (ls_job st)) /\
  (forall job files,
     undisturbed ->
     Job.status job <> Job.PAUSED -> Job.status job <> Job.CANCELED ->
     is_Some (get_preset catalog (Job.preset job)) ->
     Forall2 (fun before after =>
                JobFile.id after = JobFile.id before /\
                (JobFile.status after = JobFile.FAILED /\
                 JobFile.error_message after <> "" \/
                 JobFile.status after = JobFile.DONE /\
                 JobFile.error_message after = ""))
       files (run_files (process_job job files)) /\
     Job.processed_files (run_job (process_job job files)) = Z.of_nat (length files) /\
     (Job.status (run_job (process_job job files)) = Job.DONE \/
      Job.status (run_job (process_job job files)) = Job.FAILED)) /\
  (forall job before job_file after exc row object used',
     is_Some (get_preset catalog (Job.preset job)) ->
     process_and_save
       (JobFile.with_error_message "" (JobFile.with_status JobFile.PROCESSING job_file))
       (Job.with_status Job.PROCESSING job)
       (list_to_set (filter (fun name => name <> [])
                       (JobFile.output_name <$> before ++ after)))
       = (Failed exc row object, used') ->
     exists failed,
       reprocess_job_file job before job_file after
         = (Raise exc,
            {| run_job := Job.with_status Job.PROCESSING job;
               run_files := before ++ failed :: after;
               run_saves := [Job.with_status Job.PROCESSING job] |}) /\
       JobFile.status failed = JobFile.FAILED /\
       JobFile.error_message failed = _human_error_message exc /\
       JobFile.id failed = JobFile.id job_file /\
       JobFile.output_name failed = JobFile.output_name job_file /\
       JobFile.output_size failed = JobFile.output_size job_file) /\
  (debug = false ->
   _human_error_message UnidentifiedImageError
     = "No se pudo leer la imagen. Verifica que sea JPG/PNG/WEBP." /\
   _human_error_message MemoryError = "Memoria insuficiente para procesar la imagen." /\
   _human_error_message PermissionError
     = "Permisos insuficientes en carpeta de salida del servidor." /\
   _human_error_message (OSError (Some ENOSPC))
     = "Espacio insuficiente para generar resultados. Libera espacio." /\
   (forall msg, msg <> "" -> _human_error_message (ValueError msg) = msg) /\
   (forall name msg, msg <> "" ->
      _human_error_message (Subclass name (ValueError msg)) = msg) /\
   _human_error_message (ValueError "") = GENERIC_ERROR /\
   (forall name, _human_error_message (OtherError name) = GENERIC_ERROR) /\
   _human_error_message ZeroDivisionError = GENERIC_ERROR).
Proof.
split; [|split; [|split]]; [| | |exact human_error_message_cases].
- intros index job_file rest st exc row object used' Hp Hc E.
  cbn [file_loop]. cbn [Job.status Job.with_status].
  rewrite !bool_decide_eq_false_2 by assumption.
  destruct (loop_body_spec index job_file
              (Job.with_status (refresh_status index) (ls_job st)) st)
    as (jf' & _ & Ej & Ef & _ & Hr).
  destruct (Hr exc row object used' E) as (-> & Herr & _).
  apply process_and_save_Failed in E.
  destruct (mark_failed_row _ row exc E) as (F1 & F2 & F3 & _ & F5 & F6 & _).
  eexists _, _. split; [reflexivity|]. split; [exact Ef|].
  split; [exact F1|]. split; [exact F2|]. split; [exact F3|].
  split; [exact F5|]. split; [exact F6|]. split; [exact Herr|].
  rewrite Ej. repeat split.
- intros job files Hu Hp Hc [preset Epre]. unfold process_job.
  rewrite bool_decide_eq_false_2 by tauto. rewrite Epre.
  set (job0 := Job.with_error_message "" _).
  set (st0 := {| ls_job := job0; ls_files := []; ls_errors := false; ls_used := ∅;
                 ls_rows := []; ls_saves := [job0] |}).
  assert (Hinv : loop_inv (Job.total_files job) (Z.of_nat 1 - 1) st0).
  { assert (saved_ok (Job.total_files job) (Z.of_nat 1 - 1) job0) as Hs.
    { unfold saved_ok. cbn. rewrite progress_percent_zero. repeat split; lia. }
    unfold loop_inv. cbn [ls_job ls_saves st0]. split; [exact Hs|]. split; [reflexivity|].
    split; [|constructor; [exact Hs | constructor]].
    apply nondecreasing_singleton. }
  pose proof (file_loop_inv (Job.total_files job) files 1 st0 ltac:(lia) Hinv) as L.
  destruct (file_loop_undisturbed files Hu 1 st0) as [st' E]. rewrite E in *.
  destruct L as [(_ & Hpf & _) (new & En & Hnew)]. cbn [ls_files st0 app] in En.
  assert (Hnew' : Forall2 (fun before after =>
                    JobFile.id after = JobFile.id before /\
                    (JobFile.status after = JobFile.FAILED /\
                     JobFile.error_message after <> "" \/
                     JobFile.status after = JobFile.DONE /\
                     JobFile.error_message after = "")) files new).
  { eapply Forall2_impl; [exact Hnew|]. intros b a (Hid & _ & Ho).
    split; [exact Hid|]. destruct Ho as [(S1 & S2 & _)|(S1 & S2 & _)]; auto. }
  destruct (build_zip (ls_job st') (ls_rows st')) as [[zip|]|exc];
    cbn [run_job run_files]; rewrite En; (split; [exact Hnew'|]);
    (split; [cbn; lia|]); cbn; destruct (ls_errors st'); auto.
- intros job before job_file after exc row object used' [preset Epre] E.
  unfold reprocess_job_file. rewrite Epre, E.
  apply process_and_save_Failed in E.
  destruct (mark_failed_row _ row exc E) as (F1 & F2 & F3 & _ & F5 & F6 & _).
  eexists. split; [reflexivity|]. auto.
Qed.

(** *** The size limit *)



End Orchestration.

(** *** Runs of a small installation *)

(** Three files, the second too large: it alone fails, the others are
    done, every file is counted and the job ends Failed. *)
Lemma run_with_one_failure :
  let r := @process_job (demo_env false base_only demo_sizes)
             (demo_job "hero-1920" 3) (demo_files 3) in
  JobFile.status <$> run_files r = [JobFile.DONE; JobFile.FAILED; JobFile.DONE] /\
  JobFile.error_message <$> run_files r = [""; TOO_LARGE; ""] /\
  Job.status (run_job r) = Job.FAILED /\
  Job.processed_files <$> run_saves r = [0; 1; 2; 3; 3] /\
  Job.progress <$> run_saves r = [0; 33; 66; 100; 100].
Proof. vm_compute. repeat split. Qed.





End OrchestratorFacts.

(** ** WorkerScheduler *)
Module SchedulerFacts.
Import Scheduler.

Lemma next_jobs_claimed (limit : nat) (table : list Row) (r : Row) :
  r ∈ (_next_jobs limit table).1 -> r ∈ table /\ status r = Job.PENDING.
Proof.
unfold _next_jobs.
set (jobs := take limit _).
assert (H : forall x, x ∈ jobs -> x ∈ table /\ status x = Job.PENDING).
{ intros x Hx. unfold jobs in Hx. apply elem_of_take in Hx.
  destruct Hx as (i & Hx & _). apply list_elem_of_lookup_2 in Hx.
  apply list_elem_of_filter in Hx. destruct Hx as [Hs Hx].
  rewrite merge_sort_Permutation in Hx. auto. }
destruct jobs as [|j jobs']; cbn; [intros C; inversion C | apply H].
Qed.

Lemma next_jobs_table (limit : nat) (table : list Row) (r : Row) :
  r ∈ (_next_jobs limit table).2 -> status r = Job.PENDING ->
  r ∈ table /\ job_id r ∉ (job_id <$> (_next_jobs limit table).1).
Proof.
unfold _next_jobs.
destruct (take limit _) as [|j jobs'] eqn:E; cbn [fst snd].
- intros H _. split; [exact H|]. intros C. inversion C.
- intros H Hs. apply list_elem_of_fmap in H. destruct H as (r0 & -> & Hr0).
  case_bool_decide as Hid; [discriminate Hs|]. split; assumption.
Qed.

(** When one claim runs after the other, they return disjoint sets of
    jobs, whatever the limits. *)
Lemma next_jobs_serial_disjoint (limit1 limit2 : nat) (table : list Row) (r1 r2 : Row) :
  r1 ∈ (_next_jobs limit1 table).1 ->
  r2 ∈ (_next_jobs limit2 (_next_jobs limit1 table).2).1 ->
  job_id r1 <> job_id r2.
Proof.
intros H1 H2 E.
apply next_jobs_claimed in H2. destruct H2 as [H2 Hs].
destruct (next_jobs_table _ _ _ H2 Hs) as [_ Hn].
apply Hn. rewrite <- E. apply list_elem_of_fmap. exists r1. split; [reflexivity | exact H1].
Qed.

End SchedulerFacts.

Module GeometryBounds.
Import Float64 Float64Facts Geometry GeometryDomain GeometryFacts OrchestratorFacts.
Local Open Scope Z_scope.

(** Rounding moves a normal number by at most one part in 2^52. *)
Lemma rnd_rel_error (x : Q) :
  (2 ^ (-1022) <= x)%Q ->
  (x * (1 - 2 ^ (-52)) <= rnd x /\ rnd x <= x * (1 + 2 ^ (-52)))%Q.
Proof.
intros Hx.
assert (Hx0 : (0 < x)%Q) by (pose proof (pow2_pos (-1022)); lra).
destruct (ilog2_spec x Hx0) as [L1 L2]. set (k := ilog2 x) in *.
assert (Hk : -1022 <= k).
{ destruct (Z.le_gt_cases (-1022) k) as [C|C]; [exact C|exfalso].
  assert (2 ^ (k + 1) <= 2 ^ (-1022))%Q by (apply pow2_le; lia). lra. }
set (g := (2 ^ (k - 52))%Q).
assert (Hg : (0 < g)%Q) by apply pow2_pos.
assert (Eg : (g * inject_Z (2 ^ 52) == 2 ^ k)%Q).
{ unfold g. rewrite <- pow2_Z by lia. rewrite <- pow2_add.
  replace (k - 52 + 52) with k by lia. reflexivity. }
assert (E52 : (2 ^ (-52) * inject_Z (2 ^ 52) == 1)%Q) by reflexivity.
assert (P52 : (0 < inject_Z (2 ^ 52))%Q) by reflexivity.
assert (Q52 : (0 < 2 ^ (-52))%Q) by reflexivity.
assert (Hgx : (g <= x * 2 ^ (-52))%Q) by nra.
set (y := (x / g)%Q).
assert (Ey : (y * g == x)%Q) by (unfold y; field; lra).
assert (Y1 : (inject_Z (2 ^ 52) <= y)%Q).
{ unfold y. apply Qle_shift_div_l; [exact Hg|]. nra. }
assert (Y2 : (y < inject_Z (2 ^ 53))%Q).
{ unfold y. apply Qlt_shift_div_r; [exact Hg|].
  rewrite pow2_succ in L2.
  assert (inject_Z (2 ^ 53) == 2 * inject_Z (2 ^ 52))%Q as -> by reflexivity. nra. }
pose proof (Qfloor_le y) as F1. pose proof (Qlt_floor y) as F2.
pose proof (Qle_ceiling y) as C1. pose proof (Qceiling_lt y) as C2.
rewrite inject_Z_plus in F2. change (inject_Z 1) with 1%Q in F2.
replace (Qceiling y - 1) with (Qceiling y + -1) in C2 by lia.
rewrite inject_Z_plus in C2. change (inject_Z (-1)) with (-1)%Q in C2.
assert (Fl : 2 ^ 52 <= Qfloor y) by (apply Qfloor_ge_Z, Y1).
assert (Fu : Qfloor y < 2 ^ 53) by (apply Qfloor_lt_Z, Y2).
assert (Cl : 0 <= Qceiling y).
{ rewrite <- (Qceiling_Z 0). apply Qceiling_resp_le. change (inject_Z 0) with 0%Q. lra. }
assert (Cu : Qceiling y <= 2 ^ 53).
{ rewrite <- (Qceiling_Z (2 ^ 53)). apply Qceiling_resp_le. lra. }
assert (Rl : representable (inject_Z (Qfloor y) * g)).
{ exists (Qfloor y), (k - 52). split; [reflexivity|]. split; [lia | unfold emin; lia]. }
assert (Ru : representable (inject_Z (Qceiling y) * g)).
{ destruct (Z.eq_dec (Qceiling y) (2 ^ 53)) as [E|NE].
  - exists 1, (k + 1). split; [|split; [reflexivity | unfold emin; lia]].
    rewrite E, pow2_succ.
    assert (inject_Z (2 ^ 53) == 2 * inject_Z (2 ^ 52))%Q as -> by reflexivity.
    change (inject_Z 1) with 1%Q. nra.
  - exists (Qceiling y), (k - 52). split; [reflexivity|]. split; [lia | unfold emin; lia]. }
assert (L : (inject_Z (Qfloor y) * g <= rnd x)%Q).
{ apply rnd_ge_repr; [exact Rl|]. nra. }
assert (U : (rnd x <= inject_Z (Qceiling y) * g)%Q).
{ apply rnd_le_repr; [exact Ru|]. nra. }
split; nra.
Qed.


Lemma quotient_rel (tw w : Z) :
  1 <= tw <= INT_MAX -> 1 <= w <= INT_MAX ->
  (inject_Z tw - 2 ^ (-21) <= inject_Z w * rnd (float tw / float w) /\
   inject_Z w * rnd (float tw / float w) <= inject_Z tw + 2 ^ (-21))%Q.
Proof.
intros Ht Hw.
pose proof (inject_dim_pos w ltac:(lia)) as W1.
pose proof (inject_dim_pos tw ltac:(lia)) as T1.
assert (T2 : (inject_Z tw <= inject_Z (2 ^ 31))%Q).
{ rewrite <- Zle_Qle. unfold INT_MAX in Ht. lia. }
assert (W2 : (inject_Z w <= inject_Z (2 ^ 31))%Q).
{ rewrite <- Zle_Qle. unfold INT_MAX in Hw. lia. }
set (x := (inject_Z tw / inject_Z w)%Q).
assert (Ex : (x * inject_Z w == inject_Z tw)%Q) by (unfold x; field; lra).
assert (E : rnd (float tw / float w) = rnd x).
{ apply rnd_comp. rewrite !float_dim by lia. reflexivity. }
rewrite E.
assert (c31 : (inject_Z (2 ^ 31) == 2147483648)%Q) by reflexivity.
rewrite c31 in T2, W2.
assert (X0 : (2 ^ (-1022) <= x)%Q).
{ apply Qle_trans with (2 ^ (-31))%Q; [apply pow2_le; lia|].
  unfold x. apply Qle_shift_div_l; [lra|].
  assert (2 ^ (-31) == 1 # 2147483648)%Q as -> by reflexivity. nra. }
destruct (rnd_rel_error x X0) as [R1 R2].
assert (c52 : (2 ^ (-52) == 1 # 4503599627370496)%Q) by reflexivity.
assert (c21 : (2 ^ (-21) == 1 # 2097152)%Q) by reflexivity.
rewrite c52 in R1, R2. rewrite c21.
set (r := rnd x) in *. split; nra.
Qed.

(** A side scaled by a ratio no larger than the quotient of the target
    side and that side stays within the target side. *)
Lemma scaled_upper (tw w : Z) (ratio : Q) :
  1 <= tw <= INT_MAX -> 1 <= w <= INT_MAX ->
  (0 <= ratio)%Q -> (ratio <= rnd (float tw / float w))%Q ->
  0 <= py_int (fmul (float w) ratio) <= tw.
Proof.
intros Ht Hw H0 H1.
destruct (quotient_rel tw w Ht Hw) as [_ U].
pose proof (inject_dim_pos w ltac:(lia)) as W1.
unfold fmul.
assert (E : rnd (float w * ratio) = rnd (inject_Z w * ratio)).
{ apply rnd_comp. rewrite float_dim by lia. reflexivity. }
rewrite E. set (y := rnd (inject_Z w * ratio)).
assert (y0 : (0 <= y)%Q) by (apply rnd_nonneg; nra).
rewrite (py_int_nonneg y y0).
split; [apply (Qfloor_ge_Z y 0), y0|].
assert (Rz : representable (inject_Z (tw * 2 ^ 21 + 1) * 2 ^ (-21))%Q).
{ exists (tw * 2 ^ 21 + 1), (-21). split; [reflexivity|].
  split; [unfold INT_MAX in Ht; lia | discriminate]. }
assert (Ez : (inject_Z (tw * 2 ^ 21 + 1) * 2 ^ (-21) == inject_Z tw + 2 ^ (-21))%Q).
{ rewrite inject_Z_plus, inject_Z_mult.
  assert (inject_Z (2 ^ 21) * 2 ^ (-21) == 1)%Q as E1 by reflexivity.
  change (inject_Z 1) with 1%Q. nra. }
assert (Hy : (y <= inject_Z (tw * 2 ^ 21 + 1) * 2 ^ (-21))%Q).
{ apply rnd_le_repr; [exact Rz|]. rewrite Ez. nra. }
rewrite Ez in Hy.
assert (c21 : (2 ^ (-21) == 1 # 2097152)%Q) by reflexivity.
rewrite c21 in Hy.
assert (Qfloor y < tw + 1); [|lia].
apply Qfloor_lt_Z. rewrite inject_Z_plus. change (inject_Z 1) with 1%Q. lra.
Qed.

(** A side scaled by a ratio no smaller than the quotient of the target
    side and that side reaches the target side once rounded up. *)
Lemma scaled_lower (tw w : Z) (ratio : Q) :
  1 <= tw <= INT_MAX -> 1 <= w <= INT_MAX ->
  (rnd (float tw / float w) <= ratio)%Q ->
  tw <= math_ceil (fmul (float w) ratio).
Proof.
intros Ht Hw H1.
destruct (quotient_rel tw w Ht Hw) as [L _].
pose proof (inject_dim_pos w ltac:(lia)) as W1.
unfold fmul.
assert (E : rnd (float w * ratio) = rnd (inject_Z w * ratio)).
{ apply rnd_comp. rewrite float_dim by lia. reflexivity. }
rewrite E. set (y := rnd (inject_Z w * ratio)).
assert (Rz : representable (inject_Z (tw * 2 ^ 21 - 1) * 2 ^ (-21))%Q).
{ exists (tw * 2 ^ 21 - 1), (-21). split; [reflexivity|].
  split; [unfold INT_MAX in Ht; lia | discriminate]. }
assert (Ez : (inject_Z (tw * 2 ^ 21 - 1) * 2 ^ (-21) == inject_Z tw - 2 ^ (-21))%Q).
{ replace (tw * 2 ^ 21 - 1) with (tw * 2 ^ 21 + -1) by lia.
  rewrite inject_Z_plus, inject_Z_mult.
  assert (inject_Z (2 ^ 21) * 2 ^ (-21) == 1)%Q as E1 by reflexivity.
  change (inject_Z (-1)) with (-1)%Q. nra. }
assert (Hy : (inject_Z (tw * 2 ^ 21 - 1) * 2 ^ (-21) <= y)%Q).
{ apply rnd_ge_repr; [exact Rz|]. rewrite Ez. nra. }
rewrite Ez in Hy.
assert (c21 : (2 ^ (-21) == 1 # 2097152)%Q) by reflexivity.
rewrite c21 in Hy.
unfold math_ceil. pose proof (Qle_ceiling y) as C.
assert (inject_Z (tw - 1) < inject_Z (Qceiling y))%Q as C'.
{ replace (tw - 1) with (tw + -1) by lia. rewrite inject_Z_plus.
  change (inject_Z (-1)) with (-1)%Q. lra. }
rewrite <- Zlt_Qlt in C'. lia.
Qed.

Lemma aspect_lt_1 (w h : Z) :
  1 <= w <= INT_MAX -> 1 <= h <= INT_MAX -> w < h ->
  (rnd (float w / float h) < 1)%Q.
Proof.
intros Hw Hh H.
assert (R : representable (inject_Z (2 ^ 31 - 1) * 2 ^ (-31))%Q).
{ exists (2 ^ 31 - 1), (-31). split; [reflexivity|]. split; [reflexivity|discriminate]. }
apply Qle_lt_trans with (inject_Z (2 ^ 31 - 1) * 2 ^ (-31))%Q; [|reflexivity].
apply rnd_le_repr; [exact R|].
rewrite !float_dim by lia.
pose proof (inject_dim_pos h ltac:(lia)) as Hh1.
apply Qle_shift_div_r; [lra|].
assert (Hw' : (inject_Z w + 1 <= inject_Z h)%Q).
{ change 1%Q with (inject_Z 1). rewrite <- inject_Z_plus, <- Zle_Qle. lia. }
assert (Hh' : (inject_Z h <= inject_Z (2 ^ 31))%Q).
{ rewrite <- Zle_Qle. unfold INT_MAX in Hh. lia. }
assert (E : (inject_Z (2 ^ 31 - 1) * 2 ^ (-31) == 1 - (1 # 2147483648))%Q) by reflexivity.
assert (c31 : (inject_Z (2 ^ 31) == 2147483648)%Q) by reflexivity.
rewrite E. rewrite c31 in Hh'. nra.
Qed.

(** The rounded quotient of two sides compares with 1 as the sides
    compare with each other. *)
Lemma quotient_vs_1 (tw w : Z) :
  1 <= tw <= INT_MAX -> 1 <= w <= INT_MAX ->
  ((1 < rnd (float tw / float w))%Q <-> w < tw) /\
  ((rnd (float tw / float w) < 1)%Q <-> tw < w) /\
  ((rnd (float tw / float w) == 1)%Q <-> tw = w).
Proof.
intros Ht Hw.
destruct (Z.lt_trichotomy tw w) as [C|[C|C]].
- pose proof (aspect_lt_1 tw w Ht Hw C) as A.
  repeat split; intros; try lia; try lra.
- subst w. pose proof (aspect_le_1 tw tw Ht Ht ltac:(lia)) as A.
  assert (B : (rnd (float tw / float tw) == 1)%Q).
  { assert (E : (float tw / float tw == inject_Z 1)%Q).
    { change (inject_Z 1) with 1%Q. field. apply float_dim_nonzero; lia. }
    rewrite (rnd_comp _ _ E). apply rnd_Z. reflexivity. }
  repeat split; intros; try lia; try lra.
- pose proof (aspect_gt_1 tw w Ht Hw C) as A.
  repeat split; intros; try lia; try lra.
Qed.


Lemma py_min_spec (a b : Q) :
  (py_min a b <= a)%Q /\ (py_min a b <= b)%Q /\ (py_min a b = a \/ py_min a b = b).
Proof.
unfold py_min. destruct (Qlt_bool b a) eqn:E.
- apply Qlt_bool_iff in E. repeat split; try lra. right. reflexivity.
- apply Qlt_bool_false_iff in E. repeat split; try lra. left. reflexivity.
Qed.

Lemma py_max_spec (a b : Q) :
  (a <= py_max a b)%Q /\ (b <= py_max a b)%Q /\ (py_max a b = a \/ py_max a b = b).
Proof.
unfold py_max. destruct (Qlt_bool a b) eqn:E.
- apply Qlt_bool_iff in E. repeat split; try lra. right. reflexivity.
- apply Qlt_bool_false_iff in E. repeat split; try lra. left. reflexivity.
Qed.

(** A resize to a size of at least one pixel returns the image of that
    size, or raises [MemoryError] when the new size is not within that of
    the image and PIL does not get the memory. *)
Lemma resize_cases `{Memory} (im : Image) (w h : Z) :
  1 <= w -> 1 <= h ->
  resize im w h = Ok {| width := w; height := h; mode := mode im |} \/
  resize im w h = Raise MemoryError /\ can_allocate w h = false /\
  ~ (w <= width im /\ h <= height im).
Proof.
intros Hw Hh. unfold resize.
assert ((w <? 1) = false) as -> by (apply Z.ltb_ge; lia).
assert ((h <? 1) = false) as -> by (apply Z.ltb_ge; lia).
cbn [orb].
destruct ((w <=? width im) && (h <=? height im)) eqn:B; [left; reflexivity|].
destruct (can_allocate w h); [left; reflexivity|]. right.
split; [reflexivity|]. split; [reflexivity|].
intros [A1 A2]. apply Z.leb_le in A1, A2. rewrite A1, A2 in B. discriminate B.
Qed.

(** The steps of [_resize_contain] on sizes in the range of PIL: the
    image is returned as it is, or it is resized to a size inside the
    target box, which is within the size of the image unless the image is
    enlarged. *)
Lemma resize_contain_steps `{Memory} (image : Image) (tw th : Z) (no_upscale : bool) :
  valid_size image -> 1 <= tw <= INT_MAX -> 1 <= th <= INT_MAX ->
  let note := if no_upscale && (width image <? tw) && (height image <? th)
              then NO_UPSCALE_NOTE else "" in
  _resize_contain image tw th no_upscale = Ok (image, note) /\
  width image <= tw /\ height image <= th
  \/
  exists w h,
    _resize_contain image tw th no_upscale = (resized ← resize image w h; Ok (resized, note)) /\
    1 <= w <= tw /\ 1 <= h <= th /\
    (no_upscale = true \/ ~ (width image < tw /\ height image < th) ->
     w <= width image /\ h <= height image) /\
    ~ (no_upscale = true /\ width image <= tw /\ height image <= th).
Proof.
intros [Hw Hh] Htw Hth note. unfold _resize_contain.
rewrite !fdiv_Ok by (apply float_dim_nonzero; lia).
cbn [mbind result_bind].
set (rw := rnd (float tw / float (width image))).
set (rh := rnd (float th / float (height image))).
destruct (quotient_vs_1 tw (width image) Htw Hw) as (Wg & Wl & We). fold rw in Wg, Wl, We.
destruct (quotient_vs_1 th (height image) Hth Hh) as (Hg & Hl & He). fold rh in Hg, Hl, He.
pose proof (ratio_lower tw (width image) Htw Hw) as Lw. fold rw in Lw.
pose proof (ratio_lower th (height image) Hth Hh) as Lh. fold rh in Lh.
destruct (py_min_spec rw rh) as (M1 & M2 & M3).
assert (P31 : (0 < 2 ^ (-31))%Q) by reflexivity.
assert (M0 : (2 ^ (-31) <= py_min rw rh)%Q) by (destruct M3 as [-> | ->]; assumption).
set (m := py_min rw rh) in *.
unfold clamp_ratio.
destruct (no_upscale && Qlt_bool 1 m) eqn:C.
- apply andb_true_iff in C. destruct C as [En C]. apply Qlt_bool_iff in C.
  assert (width image < tw) as A1 by (apply Wg; lra).
  assert (height image < th) as A2 by (apply Hg; lra).
  change (Qeq_bool 1 1) with true. cbn iota. left.
  unfold note. rewrite En.
  apply Z.ltb_lt in A1 as B1. apply Z.ltb_lt in A2 as B2. rewrite B1, B2. cbn.
  split; [reflexivity | lia].
- assert (Enote : note = "").
  { unfold note. destruct no_upscale; [|reflexivity]. cbn [andb] in C |- *.
    apply Qlt_bool_false_iff in C.
    destruct (Z.ltb_spec (width image) tw) as [A1|A1]; [|reflexivity].
    destruct (Z.ltb_spec (height image) th) as [A2|A2]; [|reflexivity].
    exfalso. apply Wg in A1. apply Hg in A2. destruct M3 as [E|E]; rewrite E in C; lra. }
  rewrite Enote.
  destruct (Qeq_bool m 1) eqn:E.
  + apply Qeq_bool_iff in E. left.
    assert (width image <= tw) as A1.
    { destruct (Z.le_gt_cases (width image) tw) as [A|A]; [exact A|].
      apply Wl in A. lra. }
    assert (height image <= th) as A2.
    { destruct (Z.le_gt_cases (height image) th) as [A|A]; [exact A|].
      apply Hl in A. lra. }
    split; [reflexivity | lia].
  + apply Qeq_bool_false_iff in E. right.
    pose proof (scaled_upper tw (width image) m Htw Hw ltac:(lra) M1) as S1.
    pose proof (scaled_upper th (height image) m Hth Hh ltac:(lra) M2) as S2.
    assert (Hsmall : (m <= 1)%Q -> Z.max 1 (py_int (fmul (float (width image)) m))
                                     <= width image /\
                                   Z.max 1 (py_int (fmul (float (height image)) m))
                                     <= height image).
    { intros Hm1.
      pose proof (scaled_upper (width image) (width image) m Hw Hw ltac:(lra)) as T1.
      pose proof (scaled_upper (height image) (height image) m Hh Hh ltac:(lra)) as T2.
      destruct (quotient_vs_1 (width image) (width image) Hw Hw) as (_ & _ & Q1).
      destruct (quotient_vs_1 (height image) (height image) Hh Hh) as (_ & _ & Q2).
      specialize (T1 ltac:(rewrite (proj2 Q1 eq_refl); exact Hm1)).
      specialize (T2 ltac:(rewrite (proj2 Q2 eq_refl); exact Hm1)).
      lia. }
    eexists _, _. split; [reflexivity|].
    split; [lia|]. split; [lia|]. split.
    * intros Hor. apply Hsmall. destruct Hor as [En|Hns].
      -- rewrite En in C. cbn [andb] in C. apply Qlt_bool_false_iff in C. exact C.
      -- destruct (Qlt_le_dec 1 m) as [B|B]; [|exact B]. exfalso. apply Hns.
         split; [apply Wg | apply Hg]; lra.
    * intros (En & A1 & A2). rewrite En in C. cbn [andb] in C.
      apply Qlt_bool_false_iff in C.
      assert (1 <= rw)%Q as B1.
      { destruct (Qlt_le_dec rw 1) as [B|B]; [|exact B]. apply Wl in B. lia. }
      assert (1 <= rh)%Q as B2.
      { destruct (Qlt_le_dec rh 1) as [B|B]; [|exact B]. apply Hl in B. lia. }
      apply E. destruct M3 as [E'|E']; rewrite E' in *; lra.
Qed.

(** What [_resize_contain] returns with no-upscale on sizes in the range
    of PIL. *)
Lemma resize_contain_spec `{Memory} (image : Image) (tw th : Z) :
  valid_size image -> 1 <= tw <= INT_MAX -> 1 <= th <= INT_MAX ->
  exists out note,
    _resize_contain image tw th true = Ok (out, note) /\
    mode out = mode image /\
    1 <= width out <= tw /\ 1 <= height out <= th /\
    width out <= width image /\ height out <= height image /\
    (width image <= tw -> height image <= th -> out = image) /\
    note = (if (width image <? tw) && (height image <? th)
            then NO_UPSCALE_NOTE else "").
Proof.
intros Hv Htw Hth.
destruct (resize_contain_steps image tw th true Hv Htw Hth)
  as [(E & A1 & A2)|(w & h & E & Bw & Bh & Hin & Hno)]; cbn [andb] in E.
- destruct Hv as [Hw Hh].
  eexists _, _. split; [exact E|]. repeat split; auto; lia.
- destruct (Hin ltac:(left; reflexivity)) as [I1 I2].
  rewrite resize_within in E by lia. cbn [mbind result_bind] in E.
  eexists _, _. split; [exact E|]. cbn [width height mode].
  repeat split; try lia. all: intros A1 A2; exfalso; apply Hno; auto.
Qed.


(** The centred crop of the cover mode never fails on sizes in the range
    of PIL, and never reaches outside the image it crops. *)
Lemma cover_crop_bounds (resized : Image) (tw th : Z) :
  valid_size resized -> 1 <= tw <= INT_MAX -> 1 <= th <= INT_MAX ->
  exists out, cover_crop resized tw th = Ok out /\
    mode out = mode resized /\
    0 <= width out <= width resized /\ 0 <= height out <= height resized /\
    (tw <= width resized -> th <= height resized -> width out = tw /\ height out = th).
Proof.
intros [Hw Hh] Htw Hth. unfold cover_crop.
destruct ((tw <=? width resized) && (th <=? height resized)) eqn:B.
- apply andb_true_iff in B. destruct B as [B1 B2].
  apply Z.leb_le in B1, B2.
  rewrite !int_truediv_Ok by discriminate. cbn [mbind result_bind].
  eexists. split; [reflexivity|]. cbn [crop width height mode].
  split; [reflexivity|]. lia.
- assert (Hno : ~ (tw <= width resized /\ th <= height resized)).
  { intros [A1 A2]. apply Z.leb_le in A1, A2. rewrite A1, A2 in B. discriminate B. }
  clear B.
  rewrite (fdiv_Ok (float tw) (float th)) by (apply float_dim_nonzero; lia).
  rewrite (fdiv_Ok (float (width resized)) (float (height resized)))
    by (apply float_dim_nonzero; lia).
  cbn [mbind result_bind].
  pose proof (ratio_lower tw th Htw Hth) as Lt.
  set (ta := rnd (float tw / float th)) in *.
  set (ia := rnd (float (width resized) / float (height resized))).
  assert (P31 : (0 < 2 ^ (-31))%Q) by reflexivity.
  pose proof (inject_dim_pos (width resized) ltac:(lia)) as W1.
  pose proof (inject_dim_pos (height resized) ltac:(lia)) as H1.
  destruct (Qlt_bool ta ia).
  + cbn [mbind result_bind].
    assert (R0 : 0 <= py_round (fmul (float (height resized)) ta)).
    { unfold py_round, fmul. apply round_half_even_ge. apply rnd_nonneg.
      rewrite float_dim by lia. change (inject_Z 0) with 0%Q. nra. }
    rewrite !int_truediv_Ok by discriminate. cbn [mbind result_bind].
    eexists. split; [reflexivity|]. cbn [crop width height mode].
    split; [reflexivity|]. lia.
  + rewrite (fdiv_Ok (float (width resized)) ta) by lra.
    cbn [mbind result_bind].
    assert (R0 : 0 <= py_round (rnd (float (width resized) / ta))).
    { unfold py_round. apply round_half_even_ge. apply rnd_nonneg.
      rewrite float_dim by lia. change (inject_Z 0) with 0%Q.
      apply Qle_shift_div_l; lra. }
    rewrite !int_truediv_Ok by discriminate. cbn [mbind result_bind].
    eexists. split; [reflexivity|]. cbn [crop width height mode].
    split; [reflexivity|]. lia.
Qed.

(** The steps of the scaling of the cover mode on sizes in the range of
    PIL: the image is kept as it is, or it is resized to a size that
    reaches the target on both axes. *)
Lemma cover_scale_steps `{Memory} (image : Image) (tw th : Z) (no_upscale : bool) :
  valid_size image -> 1 <= tw <= INT_MAX -> 1 <= th <= INT_MAX ->
  let note := if no_upscale && ((width image <? tw) || (height image <? th))
              then NO_UPSCALE_NOTE else "" in
  cover_scale image tw th no_upscale = Ok (image, note) /\
  (no_upscale = true \/ tw <= width image /\ th <= height image)
  \/
  exists w h,
    cover_scale image tw th no_upscale = (resized ← resize image w h; Ok (resized, note)) /\
    tw <= w /\ th <= h /\
    (no_upscale = true \/ tw <= width image /\ th <= height image ->
     w <= width image /\ h <= height image).
Proof.
intros [Hw Hh] Htw Hth note. unfold cover_scale.
rewrite !fdiv_Ok by (apply float_dim_nonzero; lia).
cbn [mbind result_bind].
set (rw := rnd (float tw / float (width image))).
set (rh := rnd (float th / float (height image))).
destruct (quotient_vs_1 tw (width image) Htw Hw) as (Wg & Wl & We). fold rw in Wg, Wl, We.
destruct (quotient_vs_1 th (height image) Hth Hh) as (Hg & Hl & He). fold rh in Hg, Hl, He.
pose proof (ratio_lower tw (width image) Htw Hw) as Lw. fold rw in Lw.
pose proof (ratio_lower th (height image) Hth Hh) as Lh. fold rh in Lh.
destruct (py_max_spec rw rh) as (M1 & M2 & M3).
assert (P31 : (0 < 2 ^ (-31))%Q) by reflexivity.
set (m := py_max rw rh) in *.
assert (Hbig : (1 < m)%Q <-> (width image < tw \/ height image < th)).
{ split.
  - intros C. destruct M3 as [E|E]; rewrite E in C; [left; apply Wg | right; apply Hg]; exact C.
  - intros [A|A]; [apply Wg in A | apply Hg in A]; lra. }
unfold clamp_ratio.
destruct (no_upscale && Qlt_bool 1 m) eqn:C.
- apply andb_true_iff in C. destruct C as [En C]. apply Qlt_bool_iff in C.
  change (Qeq_bool 1 1) with true. cbn iota. cbn [mbind result_bind]. left.
  unfold note. rewrite En.
  assert ((width image <? tw) || (height image <? th) = true) as ->.
  { apply orb_true_iff. destruct (proj1 Hbig C) as [A|A]; [left|right]; apply Z.ltb_lt, A. }
  cbn. auto.
- assert (Enote : note = "").
  { unfold note. destruct no_upscale; [|reflexivity]. cbn [andb] in C |- *.
    apply Qlt_bool_false_iff in C.
    destruct ((width image <? tw) || (height image <? th)) eqn:O; [|reflexivity].
    exfalso. apply orb_true_iff in O.
    assert (1 < m)%Q; [|lra].
    apply Hbig. destruct O as [O|O]; apply Z.ltb_lt in O; auto. }
  rewrite Enote.
  assert (Hfit : no_upscale = true \/ tw <= width image /\ th <= height image -> (m <= 1)%Q).
  { intros [En|[A1 A2]].
    - rewrite En in C. cbn [andb] in C. apply Qlt_bool_false_iff in C. exact C.
    - destruct (Qlt_le_dec 1 m) as [B|B]; [|exact B]. apply Hbig in B. lia. }
  destruct (Qeq_bool m 1) eqn:E.
  + apply Qeq_bool_iff in E. cbn [mbind result_bind]. left. split; [reflexivity|]. right.
    split.
    * destruct (Z.le_gt_cases tw (width image)) as [A|A]; [exact A|].
      assert (1 < m)%Q; [apply Hbig; left; lia | lra].
    * destruct (Z.le_gt_cases th (height image)) as [A|A]; [exact A|].
      assert (1 < m)%Q; [apply Hbig; right; lia | lra].
  + apply Qeq_bool_false_iff in E. right.
    pose proof (scaled_lower tw (width image) m Htw Hw M1) as S1.
    pose proof (scaled_lower th (height image) m Hth Hh M2) as S2.
    eexists _, _. split; [reflexivity|]. split; [exact S1|]. split; [exact S2|].
    intros Hor. specialize (Hfit Hor).
    pose proof (scaled_dim (width image) m Hw ltac:(lra) Hfit).
    pose proof (scaled_dim (height image) m Hh ltac:(lra) Hfit).
    lia.
Qed.

(** What the scaling step of the cover mode returns when it does not
    enlarge: with no-upscale, or for a target within the image. *)
Lemma cover_scale_spec `{Memory} (image : Image) (tw th : Z) (no_upscale : bool) :
  valid_size image -> 1 <= tw <= INT_MAX -> 1 <= th <= INT_MAX ->
  no_upscale = true \/ tw <= width image /\ th <= height image ->
  exists resized note,
    cover_scale image tw th no_upscale = Ok (resized, note) /\
    mode resized = mode image /\
    1 <= width resized /\ 1 <= height resized /\
    width resized <= width image /\ height resized <= height image /\
    (tw <= width image -> th <= height image ->
       tw <= width resized /\ th <= height resized) /\
    note = (if no_upscale && ((width image <? tw) || (height image <? th))
            then NO_UPSCALE_NOTE else "").
Proof.
intros Hv Htw Hth Hor.
destruct (cover_scale_steps image tw th no_upscale Hv Htw Hth)
  as [(E & _)|(w & h & E & Bw & Bh & Hin)].
- destruct Hv as [Hw Hh].
  eexists _, _. split; [exact E|]. repeat split; auto; lia.
- destruct (Hin Hor) as [I1 I2].
  rewrite resize_within in E by lia. cbn [mbind result_bind] in E.
  eexists _, _. split; [exact E|]. cbn [width height mode].
  repeat split; lia.
Qed.


(** X1.  On sizes in the range of PIL the contain resize returns an
    image that fits inside the target box, with at least one pixel on
    each axis, or it raises [MemoryError].  It raises only when it
    enlarges the image, upscaling being allowed and the image smaller
    than the target on both axes, and PIL does not get the memory of an
    image inside the target box: a 1 x 1 image cannot be enlarged to the
    largest target. *)
Theorem contain_fits_target_box `{Memory} (image : Image) (tw th : Z) (no_upscale : bool) :
  valid_size image -> 1 <= tw <= INT_MAX -> 1 <= th <= INT_MAX ->
  match _resize_contain image tw th no_upscale with
  | Ok (out, note) =>
    1 <= width out <= tw /\ 1 <= height out <= th /\ mode out = mode image
  | Raise exc =>
    exc = MemoryError /\ no_upscale = false /\
    width image < tw /\ height image < th /\
    exists w h, 1 <= w <= tw /\ 1 <= h <= th /\ can_allocate w h = false
  end /\
  @_resize_contain demo_memory pixel INT_MAX INT_MAX false = Raise MemoryError.
Proof.
intros Hv Htw Hth. split; [|vm_compute; reflexivity].
destruct (resize_contain_steps image tw th no_upscale Hv Htw Hth)
  as [(E & A1 & A2)|(w & h & E & Bw & Bh & Hin & _)].
- rewrite E. destruct Hv as [Hw Hh]. repeat split; lia.
- rewrite E.
  destruct (resize_cases image w h ltac:(lia) ltac:(lia)) as [R|(R & Ha & Hout)];
    rewrite R; cbn [mbind result_bind].
  + cbn [width height mode]. repeat split; lia.
  + split; [reflexivity|].
    destruct no_upscale; [exfalso; apply Hout, Hin; left; reflexivity|].
    split; [reflexivity|].
    destruct (Z.lt_ge_cases (width image) tw) as [A1|A1];
      [destruct (Z.lt_ge_cases (height image) th) as [A2|A2]|];
      [|exfalso; apply Hout, Hin; right; lia ..].
    split; [exact A1|]. split; [exact A2|]. exists w, h. auto.
Qed.

Lemma contain_fits_target_box_witness :
  match @_resize_contain demo_memory landscape 3200 3200 false with
  | Ok (out, note) =>
    1 <= width out <= 3200 /\ 1 <= height out <= 3200 /\ mode out = mode landscape
  | Raise exc =>
    exc = MemoryError /\ false = false /\
    width landscape < 3200 /\ height landscape < 3200 /\
    exists w h, 1 <= w <= 3200 /\ 1 <= h <= 3200 /\
      @can_allocate demo_memory w h = false
  end.
Proof.
apply (@contain_fits_target_box demo_memory landscape 3200 3200 false).
- unfold valid_size, INT_MAX. cbn. lia.
- unfold INT_MAX. lia.
- unfold INT_MAX. lia.
Defined.

(** X2.  With no-upscale the contain resize never enlarges: no side of
    the result exceeds that of the input; an input that already fits the
    target box is returned untouched; and the no-upscale note is set
    exactly when the input is smaller than the target on both axes. *)
Theorem contain_no_upscale `{Memory} (image : Image) (tw th : Z) :
  valid_size image -> 1 <= tw <= INT_MAX -> 1 <= th <= INT_MAX ->
  exists out note,
    _resize_contain image tw th true = Ok (out, note) /\
    width out <= width image /\ height out <= height image /\
    (width image <= tw -> height image <= th -> out = image) /\
    (note = NO_UPSCALE_NOTE <-> width image < tw /\ height image < th) /\
    (note = "" \/ note = NO_UPSCALE_NOTE).
Proof.
intros Hv Htw Hth.
destruct (resize_contain_spec image tw th Hv Htw Hth)
  as (out & note & E & _ & _ & _ & L1 & L2 & Hid & Hn).
exists out, note. split; [exact E|].
split; [exact L1|]. split; [exact L2|]. split; [exact Hid|].
rewrite Hn.
destruct (Z.ltb_spec (width image) tw) as [A1|A1];
  destruct (Z.ltb_spec (height image) th) as [A2|A2]; cbn [andb];
  (split; [split; [intros N; try discriminate N; lia | intros [? ?]; try reflexivity; lia]
          | auto]).
Qed.

Lemma contain_no_upscale_witness :
  exists out note,
    @_resize_contain demo_memory thumbnail 800 800 true = Ok (out, note) /\
    width out <= width thumbnail /\ height out <= height thumbnail /\
    (width thumbnail <= 800 -> height thumbnail <= 800 -> out = thumbnail) /\
    (note = NO_UPSCALE_NOTE <-> width thumbnail < 800 /\ height thumbnail < 800) /\
    (note = "" \/ note = NO_UPSCALE_NOTE).
Proof.
apply (@contain_no_upscale demo_memory thumbnail 800 800).
- unfold valid_size, INT_MAX. cbn. lia.
- unfold INT_MAX. lia.
- unfold INT_MAX. lia.
Defined.

(** X3.  When the input is at least as large as the target on both axes,
    the cover resize returns an image of exactly the target size, with no
    note, whether upscaling is allowed or not. *)
Theorem cover_exact_target `{Memory} (image : Image) (tw th : Z) (no_upscale : bool) :
  valid_size image -> 1 <= tw <= width image -> 1 <= th <= height image ->
  exists out,
    _resize_cover image tw th no_upscale = Ok (out, "") /\
    width out = tw /\ height out = th /\ mode out = mode image.
Proof.
intros Hv Htw Hth. pose proof Hv as [Hw Hh].
assert (Rw : 1 <= tw <= INT_MAX) by lia.
assert (Rh : 1 <= th <= INT_MAX) by lia.
destruct (cover_scale_spec image tw th no_upscale Hv Rw Rh ltac:(right; lia))
  as (resized & note & E & Hm & W1 & H1 & L1 & L2 & Hfit & Hn).
destruct (Hfit ltac:(lia) ltac:(lia)) as [F1 F2].
assert (Hr : valid_size resized) by (unfold valid_size; lia).
destruct (cover_crop_bounds resized tw th Hr Rw Rh) as (out & E' & Hm' & _ & _ & Hex).
destruct (Hex ltac:(lia) ltac:(lia)) as [X1 X2].
assert (En : note = "").
{ rewrite Hn.
  assert ((width image <? tw) = false) as -> by (apply Z.ltb_ge; lia).
  assert ((height image <? th) = false) as -> by (apply Z.ltb_ge; lia).
  rewrite andb_false_r. reflexivity. }
unfold _resize_cover. rewrite E. cbn [mbind result_bind]. rewrite E'.
cbn [mbind result_bind]. rewrite En.
exists out. split; [reflexivity|]. split; [exact X1|]. split; [exact X2|]. congruence.
Qed.

Lemma cover_exact_target_witness :
  exists out,
    @_resize_cover demo_memory landscape 1080 1080 true = Ok (out, "") /\
    width out = 1080 /\ height out = 1080 /\ mode out = mode landscape.
Proof.
apply (@cover_exact_target demo_memory landscape 1080 1080 true).
- unfold valid_size, INT_MAX. cbn. lia.
- cbn. lia.
- cbn. lia.
Defined.

(** X4.  With no-upscale the cover resize never fails and never enlarges:
    no side of the result exceeds that of the input, and the no-upscale
    note is set exactly when the input is smaller than the target on some
    axis.  A side can come out empty: a 100 x 1 image for a 1 x 1000 target
    is cropped to 0 x 1. *)
Theorem cover_no_upscale_never_enlarges `{Memory} (image : Image) (tw th : Z) :
  valid_size image -> 1 <= tw <= INT_MAX -> 1 <= th <= INT_MAX ->
  (exists out note,
     _resize_cover image tw th true = Ok (out, note) /\
     0 <= width out <= width image /\ 0 <= height out <= height image /\
     (note = NO_UPSCALE_NOTE <-> width image < tw \/ height image < th) /\
     (note = "" \/ note = NO_UPSCALE_NOTE)) /\
  _resize_cover sliver 1 1000 true
    = Ok ({| width := 0; height := 1; mode := "RGB" |}, NO_UPSCALE_NOTE).
Proof.
intros Hv Htw Hth. split; [|vm_compute; reflexivity].
destruct (cover_scale_spec image tw th true Hv Htw Hth ltac:(left; reflexivity))
  as (resized & note & E & Hm & W1 & H1 & L1 & L2 & _ & Hn).
destruct Hv as [Hw Hh].
assert (Hr : valid_size resized) by (unfold valid_size; lia).
destruct (cover_crop_bounds resized tw th Hr Htw Hth) as (out & E' & _ & B1 & B2 & _).
unfold _resize_cover. rewrite E. cbn [mbind result_bind]. rewrite E'.
cbn [mbind result_bind].
exists out, note. split; [reflexivity|]. split; [lia|]. split; [lia|].
cbn [andb] in Hn. rewrite Hn.
destruct (Z.ltb_spec (width image) tw) as [A1|A1];
  destruct (Z.ltb_spec (height image) th) as [A2|A2]; cbn [orb];
  (split; [split; [intros N; try discriminate N; lia | intros [?|?]; try reflexivity; lia]
          | auto]).
Qed.

Lemma cover_no_upscale_never_enlarges_witness :
  exists out note,
    @_resize_cover demo_memory thumbnail 1080 1080 true = Ok (out, note) /\
    0 <= width out <= width thumbnail /\ 0 <= height out <= height thumbnail /\
    (note = NO_UPSCALE_NOTE <-> width thumbnail < 1080 \/ height thumbnail < 1080) /\
    (note = "" \/ note = NO_UPSCALE_NOTE).
Proof.
apply (@cover_no_upscale_never_enlarges demo_memory thumbnail 1080 1080).
- unfold valid_size, INT_MAX. cbn. lia.
- unfold INT_MAX. lia.
- unfold INT_MAX. lia.
Defined.


Lemma ensure_mode_spec (image : Image) (keep_alpha : bool) :
  width (_ensure_mode image keep_alpha) = width image /\
  height (_ensure_mode image keep_alpha) = height image /\
  (keep_alpha = false -> mode (_ensure_mode image keep_alpha) = "RGB") /\
  (keep_alpha = true -> mode (_ensure_mode image keep_alpha) = "RGBA" \/
                        mode (_ensure_mode image keep_alpha) = "LA").
Proof.
unfold _ensure_mode. destruct keep_alpha.
- case_bool_decide as A; [|case_bool_decide as B]; cbn;
    (split; [reflexivity|]); (split; [reflexivity|]);
    (split; [intros C; discriminate C|]); intros _; auto.
- case_bool_decide as A; cbn;
    (split; [reflexivity|]); (split; [reflexivity|]);
    (split; [intros _; auto | intros C; discriminate C]).
Qed.

(** Whatever the fractions stored with the file, the manual crop returns
    an image of at least one pixel that lies inside the one it crops. *)
Lemma apply_manual_crop_valid (image : Image) (cd : CropData) :
  valid_size image ->
  valid_size (_apply_manual_crop image cd) /\
  width (_apply_manual_crop image cd) <= width image /\
  height (_apply_manual_crop image cd) <= height image /\
  mode (_apply_manual_crop image cd) = mode image.
Proof.
intros [Hw Hh]. unfold _apply_manual_crop.
destruct (manual_crop_box image cd) as [[[[x0 y0] x1] y1]|] eqn:E.
- destruct (manual_crop_box_bounds image cd x0 y0 x1 y1 ltac:(lia) ltac:(lia) E)
    as (B1 & B2 & B3 & B4).
  unfold valid_size. cbn [crop width height mode]. repeat split; lia.
- unfold valid_size. repeat split; lia.
Qed.

(** What [_prepare_image] returns with no-upscale on sizes in the range of
    PIL. *)
Lemma prepare_image_spec `{Memory} (image : Image) (target_size : option Z * option Z)
    (resize_mode : string) (crop_data : option CropData) (keep_alpha : bool) :
  valid_size image -> target_in_range target_size.1 -> target_in_range target_size.2 ->
  exists out meta,
    _prepare_image image target_size resize_mode true crop_data keep_alpha
      = Ok (out, meta) /\
    input_width meta = width image /\ input_height meta = height image /\
    output_width meta = width out /\ output_height meta = height out /\
    0 <= width out <= width image /\ 0 <= height out <= height image /\
    (keep_alpha = false -> mode out = "RGB") /\
    (keep_alpha = true -> mode out = "RGBA" \/ mode out = "LA").
Proof.
intros Hv Ht1 Ht2. unfold _prepare_image.
destruct (ensure_mode_spec image keep_alpha) as (Ew & Eh & Em1 & Em2).
set (im := _ensure_mode image keep_alpha) in *.
assert (Hv' : valid_size im) by (destruct Hv; unfold valid_size; rewrite Ew, Eh; auto).
destruct target_size as [[tw|] [th|]]; cbn [fst snd truthy_dim target_in_range] in *.
2,3,4: repeat (match goal with |- context [if ?b then _ else _] => destruct b end);
  eexists _, _; (split; [reflexivity|]); cbn; destruct Hv; repeat split; auto; lia.
destruct (Z.eqb_spec tw 0) as [|Ntw];
  [eexists _, _; (split; [reflexivity|]); cbn; destruct Hv; repeat split; auto; lia|].
destruct (Z.eqb_spec th 0) as [|Nth];
  [eexists _, _; (split; [reflexivity|]); cbn; destruct Hv; repeat split; auto; lia|].
assert (Rw : 1 <= tw <= INT_MAX) by lia.
assert (Rh : 1 <= th <= INT_MAX) by lia.
set (pre := match crop_data with
            | Some cd => if bool_decide (crop_mode cd = "manual")
                         then (_apply_manual_crop im cd, "Recorte manual aplicado.")
                         else (im, "")
            | None => (im, "")
            end).
assert (Hpre : valid_size pre.1 /\ width pre.1 <= width im /\
               height pre.1 <= height im /\ mode pre.1 = mode im).
{ unfold pre. destruct crop_data as [cd|]; [case_bool_decide|]; cbn [fst];
    try (apply apply_manual_crop_valid, Hv'); (split; [exact Hv'|]); repeat split; lia. }
destruct pre as [cropped note0]. cbn [fst] in Hpre.
destruct Hpre as (Hc & Cw & Ch & Cm).
case_bool_decide as Hmode.
- destruct (cover_scale_spec cropped tw th true Hc Rw Rh ltac:(left; reflexivity))
    as (resized & note & E & Hm & W1 & H1 & L1 & L2 & _ & _).
  pose proof Hc as [Hcw Hch].
  assert (Hr : valid_size resized) by (unfold valid_size; lia).
  destruct (cover_crop_bounds resized tw th Hr Rw Rh) as (out & E' & Hm' & B1 & B2 & _).
  unfold _resize_cover. rewrite E. cbn [mbind result_bind]. rewrite E'.
  cbn [mbind result_bind].
  eexists _, _. split; [reflexivity|]. cbn [input_width input_height output_width output_height].
  assert (Emode : mode out = mode im) by congruence. rewrite Emode.
  repeat split; auto; lia.
- destruct (resize_contain_spec cropped tw th Hc Rw Rh)
    as (out & note & E & Hm & B1 & B2 & L1 & L2 & _).
  rewrite E. cbn [mbind result_bind].
  eexists _, _. split; [reflexivity|]. cbn [input_width input_height output_width output_height].
  assert (Emode : mode out = mode im) by congruence. rewrite Emode.
  repeat split; auto; lia.
Qed.

(** X5.  With no-upscale the whole preparation of an image (colour mode,
    manual crop, resize in either mode) never fails on sizes in the range
    of PIL and never returns an image larger than the original on either
    axis; the report holds the size of the original and of the result;
    and the result is in mode RGB when alpha is dropped and in RGBA or LA
    when it is kept. *)
Theorem prepare_image_no_upscale `{Memory} (image : Image) (target_size : option Z * option Z)
    (resize_mode : string) (crop_data : option CropData) (keep_alpha : bool) :
  valid_size image -> target_in_range target_size.1 -> target_in_range target_size.2 ->
  exists out meta,
    _prepare_image image target_size resize_mode true crop_data keep_alpha
      = Ok (out, meta) /\
    input_width meta = width image /\ input_height meta = height image /\
    output_width meta = width out /\ output_height meta = height out /\
    0 <= width out <= width image /\ 0 <= height out <= height image /\
    (keep_alpha = false -> mode out = "RGB") /\
    (keep_alpha = true -> mode out = "RGBA" \/ mode out = "LA").
Proof.
intros Hv Ht1 Ht2.
destruct (prepare_image_spec image target_size resize_mode crop_data keep_alpha Hv Ht1 Ht2)
  as (out & meta & E & Hrest).
exists out, meta. split; [exact E | exact Hrest].
Qed.

Lemma prepare_image_no_upscale_witness :
  exists out meta,
    @_prepare_image demo_memory thumbnail (Some 1080, Some 1080) "cover" true None true
      = Ok (out, meta) /\
    input_width meta = width thumbnail /\ input_height meta = height thumbnail /\
    output_width meta = width out /\ output_height meta = height out /\
    0 <= width out <= width thumbnail /\ 0 <= height out <= height thumbnail /\
    (true = false -> mode out = "RGB") /\
    (true = true -> mode out = "RGBA" \/ mode out = "LA").
Proof.
apply (@prepare_image_no_upscale demo_memory thumbnail (Some 1080, Some 1080) "cover"
         None true).
- unfold valid_size, INT_MAX. cbn. lia.
- unfold target_in_range, INT_MAX. cbn. lia.
- unfold target_in_range, INT_MAX. cbn. lia.
Defined.

End GeometryBounds.

Module CropApiFacts.
Import Float64 Float64Facts Geometry GeometryFacts CropApi.
Local Open Scope Z_scope.

Lemma crop_error_None (cx cy cw ch : Q) :
  crop_error cx cy cw ch = None ->
  (0 <= cx <= 1 /\ 0 <= cy <= 1 /\ 0 < cw <= 1 /\ 0 < ch <= 1 /\
   fadd cx cw <= 1 /\ fadd cy ch <= 1)%Q.
Proof.
unfold crop_error.
destruct (Qle_bool 0 cx) eqn:A1; [|discriminate].
destruct (Qle_bool cx 1) eqn:A2; [|discriminate].
destruct (Qle_bool 0 cy) eqn:A3; [|discriminate].
destruct (Qle_bool cy 1) eqn:A4; [|discriminate].
destruct (Qlt_bool 0 cw) eqn:B1; [|discriminate].
destruct (Qle_bool cw 1) eqn:B2; [|discriminate].
destruct (Qlt_bool 0 ch) eqn:B3; [|discriminate].
destruct (Qle_bool ch 1) eqn:B4; [|discriminate].
destruct (Qlt_bool 1 (fadd cx cw)) eqn:C1; [discriminate|].
destruct (Qlt_bool 1 (fadd cy ch)) eqn:C2; [discriminate|].
intros _.
apply Qle_bool_iff in A1, A2, A3, A4, B2, B4.
apply Qlt_bool_iff in B1, B3.
apply Qlt_bool_false_iff in C1, C2.
repeat split; assumption.
Qed.

(** X6.  A manual crop that passes the checks of the API is cut, on any
    image in the range of PIL, along the rounded products of its fractions
    and the image size: the left and top edges kept below the last pixel,
    the right and bottom edges at least one pixel further and never past
    the image.  The checks add the fractions as floats, so they also pass
    fractions whose exact sum exceeds 1, such as 1 and 2^-60. *)
Theorem accepted_crop_in_bounds (image : Image) (cx cy cw ch : Q) :
  crop_error cx cy cw ch = None -> valid_size image ->
  (exists x0 y0 x1 y1,
     manual_crop_box image (stored_crop cx cy cw ch) = Some (x0, y0, x1, y1) /\
     x0 = Z.min (py_round (fmul cx (float (width image)))) (width image - 1) /\
     y0 = Z.min (py_round (fmul cy (float (height image)))) (height image - 1) /\
     x1 = Z.max (x0 + 1) (py_round (fmul (fadd cx cw) (float (width image)))) /\
     y1 = Z.max (y0 + 1) (py_round (fmul (fadd cy ch) (float (height image)))) /\
     0 <= x0 < x1 /\ x1 <= width image /\ 0 <= y0 < y1 /\ y1 <= height image /\
     width (_apply_manual_crop image (stored_crop cx cy cw ch)) = x1 - x0 /\
     height (_apply_manual_crop image (stored_crop cx cy cw ch)) = y1 - y0) /\
  crop_error 1 0 (1 # 1152921504606846976) 1 = None.
Proof.
intros Hacc [Hw Hh]. split; [|vm_compute; reflexivity].
destruct (crop_error_None cx cy cw ch Hacc) as (Hx & Hy & Hcw & Hch & Sx & Sy).
assert (Fx : (0 <= fadd cx cw <= 1)%Q).
{ split; [apply rnd_nonneg; lra | exact Sx]. }
assert (Fy : (0 <= fadd cy ch <= 1)%Q).
{ split; [apply rnd_nonneg; lra | exact Sy]. }
pose proof (pixel_in_range cx (width image) Hx Hw) as Px.
pose proof (pixel_in_range cy (height image) Hy Hh) as Py.
pose proof (pixel_in_range (fadd cx cw) (width image) Fx Hw) as Pr.
pose proof (pixel_in_range (fadd cy ch) (height image) Fy Hh) as Pb.
unfold _apply_manual_crop, manual_crop_box, stored_crop.
cbn [crop_x crop_y crop_w crop_h].
eexists _, _, _, _. split; [reflexivity|]. cbn [crop width height].
repeat split; lia.
Qed.

Lemma accepted_crop_in_bounds_witness :
  let image := {| width := 400; height := 200; mode := "RGB" |} in
  let cd := stored_crop (1 # 4) (1 # 4) (1 # 2) (1 # 2) in
  exists x0 y0 x1 y1,
    manual_crop_box image cd = Some (x0, y0, x1, y1) /\
    x0 = Z.min (py_round (fmul (1 # 4) (float (width image)))) (width image - 1) /\
    y0 = Z.min (py_round (fmul (1 # 4) (float (height image)))) (height image - 1) /\
    x1 = Z.max (x0 + 1) (py_round (fmul (fadd (1 # 4) (1 # 2)) (float (width image)))) /\
    y1 = Z.max (y0 + 1) (py_round (fmul (fadd (1 # 4) (1 # 2)) (float (height image)))) /\
    0 <= x0 < x1 /\ x1 <= width image /\ 0 <= y0 < y1 /\ y1 <= height image /\
    width (_apply_manual_crop image cd) = x1 - x0 /\
    height (_apply_manual_crop image cd) = y1 - y0.
Proof.
apply (accepted_crop_in_bounds {| width := 400; height := 200; mode := "RGB" |}
         (1 # 4) (1 # 4) (1 # 2) (1 # 2)).
- vm_compute. reflexivity.
- unfold valid_size, INT_MAX. cbn. lia.
Defined.

End CropApiFacts.

Module NamingShape.
Import Naming NamingFacts.

Lemma head_ok_head (chars text : pystr) (c : N) :
  head_ok chars text -> c ∈ chars -> head text <> Some c.
Proof.
destruct text as [|c0 rest]; cbn; [intros _ _ C; discriminate C|].
intros H Hc [= ->]. contradiction.
Qed.

(** X7.  Whatever the name and the options, the normalised name neither
    starts nor ends with a character of the stripped set (the replacement
    for spaces, or the dash when there is none); it holds no double dash
    when the dashes are collapsed; and it holds no space when spaces are
    replaced by a text without space. *)
Theorem normalize_name_shape `{Unicode} (value : pystr) (lowercase remove_accents : bool)
    (replace_spaces : option pystr) (collapse_dashes : bool) :
  let name := _normalize_name value lowercase remove_accents replace_spaces collapse_dashes in
  (forall c, c ∈ strip_chars replace_spaces -> head name <> Some c /\ last name <> Some c) /\
  (collapse_dashes = true -> has_double_dash name = false) /\
  (forall r, replace_spaces = Some r -> SPACE ∉ r -> SPACE ∉ name).
Proof.
intros name.
set (text := let t := if remove_accents then remove_accents_step value else value in
             if lowercase then lower t else t).
assert (E : name = normalize_tail replace_spaces collapse_dashes text) by reflexivity.
split; [|split].
- intros c Hc. unfold name, _normalize_name.
  match goal with |- context [strip ?chars ?t] =>
    destruct (strip_ends chars t) as [H1 H2] end.
  split; [eapply head_ok_head; eassumption|].
  rewrite <- head_reverse. eapply head_ok_head; eassumption.
- intros ->. rewrite E. unfold normalize_tail.
  apply strip_no_double_dash, collapse_no_double_dash.
- intros r -> Hr. rewrite E.
  assert (F : Forall (fun c => c <> SPACE)
                (normalize_tail (Some r) collapse_dashes text)).
  { apply (normalize_tail_Forall (fun c => c <> SPACE)).
    - apply Forall_forall. intros c Hc ->. contradiction.
    - apply Forall_forall. intros c _ [C|C]; [discriminate C | exact C]. }
  rewrite Forall_forall in F. intros C. exact (F _ C eq_refl).
Qed.

End NamingShape.

Module CatalogFacts.
Import Presets.

Lemma find_has_id (preset_id : string) (l : list Preset) :
  match List.find (has_id preset_id) l with
  | Some p => id p = preset_id /\ p ∈ l
  | None => forall q, q ∈ l -> id q <> preset_id
  end.
Proof.
induction l as [|x l IH]; cbn.
- intros q Hq. inversion Hq.
- unfold has_id at 1. case_bool_decide as E.
  + split; [exact E | left].
  + destruct (List.find (has_id preset_id) l) as [p|].
    * destruct IH as [I1 I2]. split; [exact I1 | right; exact I2].
    * intros q Hq. inversion Hq; subst; auto.
Qed.

Lemma get_preset_Some (c : Catalog) (preset_id : string) (p : Preset) :
  get_preset c preset_id = Some p -> id p = preset_id /\ p ∈ custom c ++ base c.
Proof.
unfold get_preset.
pose proof (find_has_id preset_id (custom c)) as Hc.
pose proof (find_has_id preset_id (base c)) as Hb.
destruct (List.find (has_id preset_id) (custom c)) as [pc|].
- intros [= <-]. destruct Hc as [H1 H2]. split; [exact H1|].
  apply elem_of_app. left. exact H2.
- destruct (List.find (has_id preset_id) (base c)) as [pb|]; [|discriminate].
  intros [= <-]. destruct Hb as [H1 H2]. split; [exact H1|].
  apply elem_of_app. right. exact H2.
Qed.

(** X8.  A lookup in the catalog returns a preset of the requested id that
    the catalog holds, a custom one whenever a custom preset has that id;
    and it returns nothing exactly when no preset of the catalog, custom
    or base, has that id. *)
Theorem get_preset_lookup (c : Catalog) (preset_id : string) :
  match get_preset c preset_id with
  | Some p =>
    id p = preset_id /\ p ∈ custom c ++ base c /\
    ((exists q, q ∈ custom c /\ id q = preset_id) -> p ∈ custom c)
  | None => forall q, q ∈ custom c ++ base c -> id q <> preset_id
  end.
Proof.
unfold get_preset.
pose proof (find_has_id preset_id (custom c)) as Hc.
pose proof (find_has_id preset_id (base c)) as Hb.
destruct (List.find (has_id preset_id) (custom c)) as [pc|].
- destruct Hc as [H1 H2]. split; [exact H1|]. split; [|intros _; exact H2].
  apply elem_of_app. left. exact H2.
- destruct (List.find (has_id preset_id) (base c)) as [pb|].
  + destruct Hb as [H1 H2]. split; [exact H1|]. split.
    * apply elem_of_app. right. exact H2.
    * intros (q & Hq & Eq). exfalso. exact (Hc q Hq Eq).
  + intros q Hq. apply elem_of_app in Hq. destruct Hq as [Hq|Hq]; auto.
Qed.

(** X9.  The effective preset of a file is never invented: it is a preset
    of the catalog, and it carries the id selected for the file, the id of
    the job's preset or the id recommended for the file, unless it is the
    first base preset. *)
Theorem effective_preset_from_catalog (c : Catalog) (job_file : JobFile.t) (job : Job.t)
    (p : Preset) :
  _resolve_effective_preset c job_file job = Some p ->
  p ∈ custom c ++ base c /\
  (JobFile.selected_preset_id job_file = Some (id p) \/
   Job.preset job = id p \/
   JobFile.recommended_preset_id job_file = id p \/
   head (base c) = Some p).
Proof.
unfold _resolve_effective_preset.
destruct (JobFile.selected_preset_id job_file) as [sel|] eqn:Es; cbn [truthy].
- case_bool_decide as E0.
  + destruct (decide (Job.preset job = "")) as [Ej|Ej].
    * rewrite bool_decide_eq_true_2 by exact Ej.
      case_bool_decide as Er.
      -- intros Hh. split; [|auto].
         apply elem_of_app. right. destruct (base c); [discriminate Hh|].
         injection Hh as <-. left.
      -- intros G. apply get_preset_Some in G. destruct G as [G1 G2].
         split; [exact G2 | auto].
    * rewrite bool_decide_eq_false_2 by exact Ej.
      destruct (get_preset c (Job.preset job)) as [pj|] eqn:G.
      -- intros [= <-]. apply get_preset_Some in G. destruct G as [G1 G2].
         split; [exact G2 | auto].
      -- case_bool_decide as Er.
         ++ intros Hh. split; [|auto].
            apply elem_of_app. right. destruct (base c); [discriminate Hh|].
            injection Hh as <-. left.
         ++ intros G'. apply get_preset_Some in G'. destruct G' as [G1 G2].
            split; [exact G2 | auto].
  + intros G. apply get_preset_Some in G. destruct G as [G1 G2].
    split; [exact G2|]. left. congruence.
- destruct (decide (Job.preset job = "")) as [Ej|Ej].
  + rewrite bool_decide_eq_true_2 by exact Ej.
    case_bool_decide as Er.
    * intros Hh. split; [|auto].
      apply elem_of_app. right. destruct (base c); [discriminate Hh|].
      injection Hh as <-. left.
    * intros G. apply get_preset_Some in G. destruct G as [G1 G2].
      split; [exact G2 | auto].
  + rewrite bool_decide_eq_false_2 by exact Ej.
    destruct (get_preset c (Job.preset job)) as [pj|] eqn:G.
    * intros [= <-]. apply get_preset_Some in G. destruct G as [G1 G2].
      split; [exact G2 | auto].
    * case_bool_decide as Er.
      -- intros Hh. split; [|auto].
         apply elem_of_app. right. destruct (base c); [discriminate Hh|].
         injection Hh as <-. left.
      -- intros G'. apply get_preset_Some in G'. destruct G' as [G1 G2].
         split; [exact G2 | auto].
Qed.

Lemma effective_preset_from_catalog_witness :
  ig_post ∈ custom base_only ++ base base_only /\
  (JobFile.selected_preset_id (plain_file (Some "ig-post") "") = Some (id ig_post) \/
   Job.preset (plain_job "hero-1920") = id ig_post \/
   JobFile.recommended_preset_id (plain_file (Some "ig-post") "") = id ig_post \/
   head (base base_only) = Some ig_post).
Proof.
apply (effective_preset_from_catalog base_only (plain_file (Some "ig-post") "")
         (plain_job "hero-1920") ig_post).
vm_compute. reflexivity.
Defined.

End CatalogFacts.

Module PresetListFacts.
Import PresetList.

Lemma infer_category_cases (preset_id : string) :
  _infer_category preset_id = "web" \/ _infer_category preset_id = "redes" \/
  _infer_category preset_id = "ecommerce".
Proof.
unfold _infer_category.
destruct (startswith_any _WEB_PREFIXES preset_id); [auto|].
destruct (startswith_any _SOCIAL_PREFIXES preset_id); auto.
Qed.

Lemma base_entry_key (preset : BasePreset) :
  group_key (base_entry preset) = e_category (base_entry preset).
Proof.
unfold group_key, str_or. case_bool_decide as E; [|reflexivity].
exfalso. revert E. cbn. unfold str_or.
destruct (b_category preset) as [v|].
- case_bool_decide as Ev; [|exact Ev].
  destruct (infer_category_cases (b_id preset)) as [->|[->| ->]]; discriminate.
- destruct (infer_category_cases (b_id preset)) as [->|[->| ->]]; discriminate.
Qed.

Lemma setdefault_append_keys (k : string) (e : Entry) (g : list (string * list Entry)) :
  (setdefault_append k e g).*1 = if bool_decide (k ∈ g.*1) then g.*1 else g.*1 ++ [k].
Proof.
induction g as [|[k1 es] rest IH]; cbn [setdefault_append fmap list_fmap fst].
- rewrite bool_decide_eq_false_2 by (intros C; inversion C). reflexivity.
- destruct (decide (k1 = k)) as [E1|E1].
  + subst k1. rewrite (bool_decide_eq_true_2 (k = k)) by reflexivity.
    rewrite bool_decide_eq_true_2 by left. reflexivity.
  + rewrite (bool_decide_eq_false_2 (k1 = k)) by exact E1.
    cbn [fmap list_fmap fst]. rewrite IH.
    destruct (decide (k ∈ rest.*1)) as [Hin|Hout].
    * rewrite !bool_decide_eq_true_2; [reflexivity | right; exact Hin | exact Hin].
    * rewrite !bool_decide_eq_false_2; [reflexivity | | exact Hout].
      intros C. inversion C; subst; contradiction.
Qed.

Lemma setdefault_append_ok (e : Entry) (g : list (string * list Entry)) :
  buckets_ok g -> buckets_ok (setdefault_append (group_key e) e g).
Proof.
intros [Hnd Hall]. split.
- rewrite setdefault_append_keys. case_bool_decide as E; [exact Hnd|].
  apply NoDup_app. split; [exact Hnd|]. split; [|apply NoDup_singleton].
  intros x Hx C. apply list_elem_of_singleton in C. subst x. contradiction.
- clear Hnd. induction Hall as [|[k1 es] rest H1 Hrest IH]; cbn [setdefault_append].
  + constructor; [|constructor]. constructor; [reflexivity | constructor].
  + case_bool_decide as E1.
    * constructor; [|exact Hrest]. cbn in *. apply Forall_app. split; [exact H1|].
      constructor; [congruence | constructor].
    * constructor; [exact H1 | exact IH].
Qed.

Lemma filter_bucket_other (k : string) (g : list (string * list Entry)) :
  Forall (fun b => Forall (fun e => group_key e = b.1) b.2) g -> k ∉ g.*1 ->
  filter (fun e => group_key e = k) (flatten g) = [].
Proof.
intros Hall Hk. unfold flatten.
induction Hall as [|[k1 es] rest H1 _ IH]; [reflexivity|].
cbn [flat_map snd]. rewrite filter_app.
cbn [fmap list_fmap fst] in Hk. apply not_elem_of_cons in Hk. destruct Hk as [Hk1 Hk2].
rewrite IH by exact Hk2. rewrite app_nil_r.
cbn [fst snd] in H1. induction H1 as [|x l Hx _ IHl]; [reflexivity|].
rewrite filter_cons_False; [exact IHl|]. intros C. apply Hk1. congruence.
Qed.

Lemma setdefault_append_filter (k : string) (e : Entry) (g : list (string * list Entry)) :
  buckets_ok g ->
  filter (fun x => group_key x = k) (flatten (setdefault_append (group_key e) e g))
  = filter (fun x => group_key x = k) (flatten g) ++ filter (fun x => group_key x = k) [e].
Proof.
intros [Hnd Hall]. unfold flatten.
induction g as [|[k1 es] rest IH]; cbn [setdefault_append flat_map snd].
- rewrite app_nil_r. reflexivity.
- inversion Hnd as [|? ? Hk1 Hnd']; subst. inversion Hall as [|? ? H1 Hall']; subst.
  case_bool_decide as E1; cbn [flat_map snd].
  + rewrite !filter_app, <- !app_assoc. apply (f_equal (app _)).
    destruct (decide (group_key e = k)) as [Ek|Ek].
    * assert (Hr : filter (fun x => group_key x = k) (flat_map snd rest) = []).
      { apply (filter_bucket_other k rest Hall'). rewrite <- Ek, <- E1. exact Hk1. }
      rewrite Hr, app_nil_r. reflexivity.
    * rewrite (filter_cons_False _ e []) by exact Ek. rewrite filter_nil, app_nil_r, app_nil_l.
      reflexivity.
  + rewrite !filter_app, <- !app_assoc. apply (f_equal (app _)). apply IH; assumption.
Qed.

Lemma setdefault_append_Permutation (k : string) (e : Entry)
    (g : list (string * list Entry)) :
  flatten (setdefault_append k e g) ≡ₚ flatten g ++ [e].
Proof.
unfold flatten. induction g as [|[k1 es] rest IH]; cbn [setdefault_append flat_map snd].
- reflexivity.
- case_bool_decide as E1; cbn [flat_map snd].
  + rewrite <- !app_assoc. apply Permutation_app_head. apply Permutation_app_comm.
  + rewrite IH, app_assoc. reflexivity.
Qed.

(** The dict after the entries of a list were filed, each under its key. *)
Lemma filed_entries (entries : list Entry) :
  forall g, buckets_ok g ->
    let g' := foldl (fun g e => setdefault_append (group_key e) e g) g entries in
    buckets_ok g' /\
    flatten g' ≡ₚ flatten g ++ entries /\
    (forall k, filter (fun x => group_key x = k) (flatten g')
               = filter (fun x => group_key x = k) (flatten g)
                 ++ filter (fun x => group_key x = k) entries) /\
    exists more, g'.*1 = g.*1 ++ more.
Proof.
induction entries as [|e entries IH]; intros g Hg; cbn [foldl].
- split; [exact Hg|]. split; [by rewrite app_nil_r|]. split.
  + intros k. by rewrite filter_nil, app_nil_r.
  + exists []. by rewrite app_nil_r.
- pose proof (setdefault_append_ok e g Hg) as Hg1.
  destruct (IH _ Hg1) as (I1 & I2 & I3 & (more & I4)).
  split; [exact I1|]. split; [|split].
  + rewrite I2, setdefault_append_Permutation, <- app_assoc. reflexivity.
  + intros k. rewrite I3, setdefault_append_filter by exact Hg.
    change (e :: entries) with ([e] ++ entries).
    rewrite (filter_app _ [e] entries), <- app_assoc. reflexivity.
  + rewrite I4, setdefault_append_keys.
    case_bool_decide; [exists more; reflexivity|].
    exists (group_key e :: more). rewrite <- app_assoc. reflexivity.
Qed.


Lemma filter_bucket_same (k : string) (es : list Entry) :
  Forall (fun e => group_key e = k) es -> filter (fun e => group_key e = k) es = es.
Proof.
induction 1 as [|x l Hx _ IH]; [reflexivity|].
rewrite filter_cons_True by exact Hx. by rewrite IH.
Qed.

Lemma filter_bucket_diff (k k' : string) (es : list Entry) :
  k <> k' -> Forall (fun e => group_key e = k') es ->
  filter (fun e => group_key e = k) es = [].
Proof.
intros Hk. induction 1 as [|x l Hx _ IH]; [reflexivity|].
rewrite filter_cons_False by congruence. exact IH.
Qed.

(** The listing is the dict read bucket by bucket. *)
Lemma list_presets_response_flatten (base : list BasePreset) (custom : list CustomPreset) :
  exists a b c rest,
    buckets_ok (("web", a) :: ("redes", b) :: ("ecommerce", c) :: rest) /\
    list_presets_response base custom
      = flatten (("web", a) :: ("redes", b) :: ("ecommerce", c) :: rest) /\
    flatten (("web", a) :: ("redes", b) :: ("ecommerce", c) :: rest)
      ≡ₚ (base_entry <$> base) ++ (_serialize_custom <$> custom) /\
    (forall k, filter (fun x => group_key x = k)
                 (flatten (("web", a) :: ("redes", b) :: ("ecommerce", c) :: rest))
               = filter (fun x => group_key x = k)
                   ((base_entry <$> base) ++ (_serialize_custom <$> custom))).
Proof.
set (entries := (base_entry <$> base) ++ (_serialize_custom <$> custom)).
set (g0 := (fun key : string => (key, @nil Entry)) <$> _CATEGORY_ORDER).
assert (Hg0 : buckets_ok g0).
{ split.
  - cbn. repeat (apply NoDup_cons; split;
      [intros C; repeat (apply elem_of_cons in C; destruct C as [C|C]; [discriminate C|]);
       inversion C|]).
    apply NoDup_nil_2.
  - repeat constructor. }
set (g' := foldl (fun g e => setdefault_append (group_key e) e g) g0 entries).
assert (Eg : list_presets_response base custom
             = flat_map (fun category => grouped_get category g') _CATEGORY_ORDER ++
               flat_map (fun '(category, entries) =>
                 if bool_decide (category ∈ _CATEGORY_ORDER) then [] else entries) g').
{ assert (E : foldl (fun grouped custom0 =>
                setdefault_append (str_or (Some (e_category (_serialize_custom custom0)))
                                     "ecommerce") (_serialize_custom custom0) grouped)
              (foldl (fun grouped preset =>
                 setdefault_append (e_category (base_entry preset)) (base_entry preset)
                   grouped) g0 base) custom = g').
  { unfold g', entries. rewrite foldl_app, !foldl_fmap. f_equal.
    clear. generalize g0. induction base as [|p base IH]; intros g; cbn [foldl]; [reflexivity|].
    rewrite base_entry_key. apply IH. }
  unfold list_presets_response. cbv zeta. fold g0. rewrite E. reflexivity. }
destruct (filed_entries entries g0 Hg0) as (I1 & I2 & I3 & (more & I4)). fold g' in I1, I2, I3, I4.
change (flatten g0) with (@nil Entry) in I2, I3. cbn [app] in I2, I3.
change (g0.*1) with ["web"; "redes"; "ecommerce"] in I4. cbn [app] in I4.
destruct g' as [|[k1 a] [|[k2 b] [|[k3 c] rest]]]; try discriminate I4.
cbn [fmap list_fmap fst] in I4. injection I4 as -> -> -> Hrest.
exists a, b, c, rest. split; [exact I1|]. split; [|split; [exact I2 | exact I3]].
rewrite Eg. destruct I1 as [Hnd _].
assert (Hskip : flat_map (fun '(category, entries0) =>
                  if bool_decide (category ∈ _CATEGORY_ORDER) then [] else entries0) rest
                = flatten rest).
{ cbn [fmap list_fmap fst] in Hnd.
  assert (Hout : Forall (fun b => b.1 ∉ _CATEGORY_ORDER) rest).
  { apply Forall_forall. intros [k es] Hk. cbn.
    assert (Hin : k ∈ rest.*1) by (apply list_elem_of_fmap; exists (k, es); auto).
    apply NoDup_cons in Hnd. destruct Hnd as [N1 Hnd].
    apply NoDup_cons in Hnd. destruct Hnd as [N2 Hnd].
    apply NoDup_cons in Hnd. destruct Hnd as [N3 Hnd].
    unfold _CATEGORY_ORDER. intros C.
    apply elem_of_cons in C. destruct C as [->|C]; [apply N1; do 2 right; exact Hin|].
    apply elem_of_cons in C. destruct C as [->|C]; [apply N2; right; exact Hin|].
    apply elem_of_cons in C. destruct C as [->|C]; [apply N3; exact Hin|].
    inversion C. }
  unfold flatten. clear -Hout. induction Hout as [|[k es] l Hk _ IH]; [reflexivity|].
  cbn [flat_map snd]. cbn in Hk. rewrite bool_decide_eq_false_2 by exact Hk.
  by rewrite IH. }
cbn [flat_map grouped_get _CATEGORY_ORDER].
repeat (rewrite bool_decide_eq_true_2 by reflexivity
        || rewrite bool_decide_eq_false_2 by discriminate).
rewrite Hskip. unfold flatten. cbn [flat_map snd app].
rewrite !app_nil_r, <- !app_assoc. reflexivity.
Qed.


(** X10.  The listing of the presets holds every base and custom preset
    exactly once; within a category the presets keep their order, base
    before custom; and the categories come in the order web, redes,
    ecommerce, followed by the presets of any other category. *)
Theorem list_presets_grouped (base : list BasePreset) (custom : list CustomPreset) :
  let entries := (base_entry <$> base) ++ (_serialize_custom <$> custom) in
  let response := list_presets_response base custom in
  response ≡ₚ entries /\
  (forall k, filter (fun e => group_key e = k) response
             = filter (fun e => group_key e = k) entries) /\
  exists others,
    response = filter (fun e => group_key e = "web") entries ++
               filter (fun e => group_key e = "redes") entries ++
               filter (fun e => group_key e = "ecommerce") entries ++ others /\
    Forall (fun e => group_key e ∉ _CATEGORY_ORDER) others.
Proof.
intros entries response.
destruct (list_presets_response_flatten base custom)
  as (a & b & c & rest & [Hnd Hall] & E & Hperm & Hfil).
fold entries in Hperm, Hfil. fold response in E.
split; [rewrite E; exact Hperm|]. split; [intros k; rewrite E; apply Hfil|].
exists (flatten rest).
inversion Hall as [|? ? Ha Hall1]; subst. inversion Hall1 as [|? ? Hb Hall2]; subst.
inversion Hall2 as [|? ? Hc Hall3]; subst. cbn [fst snd] in Ha, Hb, Hc.
cbn [fmap list_fmap fst] in Hnd.
apply NoDup_cons in Hnd. destruct Hnd as [N1 Hnd].
apply NoDup_cons in Hnd. destruct Hnd as [N2 Hnd].
apply NoDup_cons in Hnd. destruct Hnd as [N3 Hnd].
assert (R1 : "web" ∉ rest.*1) by (intros C; apply N1; do 2 right; exact C).
assert (R2 : "redes" ∉ rest.*1) by (intros C; apply N2; right; exact C).
split.
- rewrite <- !Hfil. unfold flatten. cbn [flat_map snd]. rewrite !filter_app.
  fold (flatten rest).
  rewrite (filter_bucket_same "web" a Ha), (filter_bucket_same "redes" b Hb),
          (filter_bucket_same "ecommerce" c Hc).
  rewrite (filter_bucket_diff "web" "redes" b), (filter_bucket_diff "web" "ecommerce" c),
          (filter_bucket_diff "redes" "web" a), (filter_bucket_diff "redes" "ecommerce" c),
          (filter_bucket_diff "ecommerce" "web" a), (filter_bucket_diff "ecommerce" "redes" b)
    by (assumption || discriminate).
  rewrite !(filter_bucket_other _ rest Hall3) by assumption.
  rewrite E. unfold flatten. cbn [flat_map snd app]. rewrite ?app_nil_r, <- ?app_assoc.
  reflexivity.
- apply Forall_forall. intros e He. unfold flatten in He.
  apply list_elem_of_In, in_flat_map in He. destruct He as ([k es] & Hk & He).
  apply list_elem_of_In in Hk, He. cbn [snd] in He.
  rewrite Forall_forall in Hall3. specialize (Hall3 _ Hk). cbn [fst snd] in Hall3.
  rewrite Forall_forall in Hall3. rewrite (Hall3 _ He).
  assert (Hin : k ∈ rest.*1) by (apply list_elem_of_fmap; exists (k, es); auto).
  unfold _CATEGORY_ORDER. intros C.
  apply elem_of_cons in C. destruct C as [->|C]; [contradiction|].
  apply elem_of_cons in C. destruct C as [->|C]; [contradiction|].
  apply elem_of_cons in C. destruct C as [->|C]; [contradiction|].
  inversion C.
Qed.

(** The listing of two base presets and a custom one of a category of its
    own. *)
Lemma list_presets_example :
  e_id <$> list_presets_response [base_ig; base_hero] [custom_print]
  = ["hero-1920"; "ig-post"; "cartel"].
Proof. vm_compute. reflexivity. Qed.

End PresetListFacts.

Module FormatsFacts.
Import Presets Formats.

Lemma filter_supported (l : list string) :
  Forall (fun fmt => fmt ∈ SUPPORTED_FORMATS) (filter (fun fmt => fmt ∈ SUPPORTED_FORMATS) l).
Proof.
apply Forall_forall. intros x Hx. apply list_elem_of_filter in Hx. apply Hx.
Qed.

Lemma fallback_or_webp_supported (fallback_format : string) :
  fallback_or_webp fallback_format ∈ SUPPORTED_FORMATS.
Proof.
unfold fallback_or_webp. case_bool_decide as E; [exact E|]. left.
Qed.

(** X11.  Whatever a file stores and whatever the fallback, the resolver
    returns at least one output format, only formats of the supported set
    (webp, jpg, png), and the primary format it then picks is one of the
    formats returned. *)
Theorem effective_formats_valid (job_file : FileFormats) (fallback_format : string) :
  let formats := _resolve_effective_formats job_file fallback_format in
  formats <> [] /\
  Forall (fun fmt => fmt ∈ SUPPORTED_FORMATS) formats /\
  _resolve_primary_format job_file formats fallback_format ∈ formats.
Proof.
intros formats.
assert (H : formats <> [] /\ Forall (fun fmt => fmt ∈ SUPPORTED_FORMATS) formats).
{ unfold formats, _resolve_effective_formats.
  set (own := match output_formats job_file with
              | Some (fmt :: rest) => filter (fun fmt => fmt ∈ SUPPORTED_FORMATS) (fmt :: rest)
              | _ => []
              end).
  assert (Hown : Forall (fun fmt => fmt ∈ SUPPORTED_FORMATS) own).
  { unfold own. destruct (output_formats job_file) as [[|f r]|];
      [constructor | apply filter_supported | constructor]. }
  destruct own as [|f r]; [|split; [discriminate | exact Hown]].
  set (rec := filter (fun fmt => fmt ∈ SUPPORTED_FORMATS)
                (default [] (recommended_formats job_file))).
  assert (Hrec : Forall (fun fmt => fmt ∈ SUPPORTED_FORMATS) rec) by apply filter_supported.
  assert (Hfrom : match rec with _ :: _ => rec | [] => [fallback_or_webp fallback_format] end
                  <> [] /\
                  Forall (fun fmt => fmt ∈ SUPPORTED_FORMATS)
                    match rec with _ :: _ => rec | [] => [fallback_or_webp fallback_format] end).
  { destruct rec as [|f r]; (split; [discriminate|]); [|exact Hrec].
    constructor; [apply fallback_or_webp_supported | constructor]. }
  cbv zeta. fold rec.
  destruct (truthy (output_format job_file)) as [fmt|]; [|exact Hfrom].
  case_bool_decide as E; [|exact Hfrom].
  split; [discriminate|]. constructor; [exact E | constructor]. }
destruct H as [H1 H2]. split; [exact H1|]. split; [exact H2|].
unfold _resolve_primary_format.
destruct formats as [|first rest]; [congruence|].
destruct (truthy (output_format job_file)) as [fmt|]; [|left].
case_bool_decide as E; [exact E | left].
Qed.

Lemma normalize_formats_spec (lower : string -> string) (raw : list (option string)) :
  forall normalized result,
    normalize_formats lower raw normalized = inr result ->
    NoDup normalized -> Forall (fun fmt => fmt ∈ SUPPORTED_FORMATS) normalized ->
    NoDup result /\ Forall (fun fmt => fmt ∈ SUPPORTED_FORMATS) result.
Proof.
induction raw as [|[value|] rest IH]; intros normalized result; cbn [normalize_formats].
- intros [= <-]. auto.
- case_bool_decide as Ea; [discriminate|].
  case_bool_decide as Es; [discriminate|].
  intros E Hnd Hall. apply (IH _ _ E).
  + case_bool_decide as Ein; [exact Hnd|].
    apply NoDup_app. split; [exact Hnd|]. split; [|apply NoDup_singleton].
    intros x Hx C. apply list_elem_of_singleton in C. subst x. contradiction.
  + case_bool_decide as Ein; [exact Hall|].
    apply Forall_app. split; [exact Hall|]. constructor; [|constructor].
    destruct (decide (lower value ∈ ["webp"; "jpg"; "png"])) as [D|D]; [exact D|].
    contradiction.
- apply IH.
Qed.

Lemma filter_supported_id (l : list string) :
  Forall (fun fmt => fmt ∈ SUPPORTED_FORMATS) l ->
  filter (fun fmt => fmt ∈ SUPPORTED_FORMATS) l = l.
Proof.
induction 1 as [|x l Hx _ IH]; [reflexivity|].
rewrite filter_cons_True by exact Hx. by rewrite IH.
Qed.

(** X12.  When the API accepts an update that carries a list of output
    formats, the list it stores is not empty, holds no format twice and
    only supported formats; the resolver returns exactly that list; and
    the primary format is the stored single format, which is one of the
    list. *)
Theorem stored_formats_resolved (lower : string -> string)
    (data_format : option (option string)) (value : option (list (option string)))
    (job_file stored : FileFormats) (fallback_format : string) :
  update_formats lower data_format (Some value) job_file = inr stored ->
  exists formats primary,
    output_formats stored = Some formats /\ output_format stored = Some primary /\
    formats <> [] /\ NoDup formats /\
    Forall (fun fmt => fmt ∈ SUPPORTED_FORMATS) formats /\
    _resolve_effective_formats stored fallback_format = formats /\
    _resolve_primary_format stored formats fallback_format = primary /\
    primary ∈ formats.
Proof.
unfold update_formats.
destruct (update_output_format lower data_format job_file) as [err|jf1]; [discriminate|].
unfold update_output_formats.
destruct (normalize_formats lower (default [] value) []) as [err|[|first rest]] eqn:En;
  try discriminate.
destruct (normalize_formats_spec lower _ _ _ En (NoDup_nil_2) (Forall_nil_2 _)) as [Hnd Hall].
set (chosen := match truthy (output_format jf1) with
               | Some v => if bool_decide (v ∈ first :: rest) then output_format jf1
                           else Some first
               | None => Some first
               end).
assert (Hch : exists primary, chosen = Some primary /\ primary ∈ first :: rest /\
                              truthy chosen = Some primary).
{ unfold chosen. destruct (output_format jf1) as [v|] eqn:Ev; cbn [truthy].
  - case_bool_decide as E0.
    + exists first. split; [reflexivity|]. split; [left|]. cbn.
      rewrite bool_decide_eq_false_2; [reflexivity|]. intros ->.
      inversion Hall as [|? ? Hf _]; subst.
      repeat (apply elem_of_cons in Hf; destruct Hf as [Hf|Hf]; [discriminate Hf|]).
      inversion Hf.
    + case_bool_decide as Ein.
      * exists v. split; [reflexivity|]. split; [exact Ein|]. cbn.
        rewrite bool_decide_eq_false_2 by exact E0. reflexivity.
      * exists first. split; [reflexivity|]. split; [left|]. cbn.
        rewrite bool_decide_eq_false_2; [reflexivity|]. intros ->.
        inversion Hall as [|? ? Hf _]; subst.
        repeat (apply elem_of_cons in Hf; destruct Hf as [Hf|Hf]; [discriminate Hf|]).
        inversion Hf.
  - exists first. split; [reflexivity|]. split; [left|]. cbn.
    rewrite bool_decide_eq_false_2; [reflexivity|]. intros ->.
    inversion Hall as [|? ? Hf _]; subst.
    repeat (apply elem_of_cons in Hf; destruct Hf as [Hf|Hf]; [discriminate Hf|]).
    inversion Hf. }
destruct Hch as (primary & Ec & Hin & Et).
intros [= <-]. cbv zeta. fold chosen.
exists (first :: rest), primary. cbn [output_formats output_format].
split; [reflexivity|]. split; [exact Ec|]. split; [discriminate|].
split; [exact Hnd|]. split; [exact Hall|]. split; [|split; [|exact Hin]].
- unfold _resolve_effective_formats. cbn [output_formats].
  rewrite (filter_supported_id _ Hall). reflexivity.
- unfold _resolve_primary_format. cbn [output_format]. rewrite Et.
  rewrite bool_decide_eq_true_2 by exact Hin. reflexivity.
Qed.

Lemma stored_formats_resolved_witness :
  let stored := {| output_format := Some "png"; output_formats := Some ["png"; "webp"];
                   recommended_formats := None |} in
  exists formats primary,
    output_formats stored = Some formats /\ output_format stored = Some primary /\
    formats <> [] /\ NoDup formats /\
    Forall (fun fmt => fmt ∈ SUPPORTED_FORMATS) formats /\
    _resolve_effective_formats stored "webp" = formats /\
    _resolve_primary_format stored formats "webp" = primary /\
    primary ∈ formats.
Proof.
apply (stored_formats_resolved (fun s => s) None
         (Some [Some "png"; None; Some "webp"; Some "png"])
         {| output_format := None; output_formats := None; recommended_formats := None |}
         _ "webp").
vm_compute. reflexivity.
Defined.

(** X13.  For a file with no format of its own the outputs follow the
    recommendation, less AVIF: a photo without transparency is recommended
    AVIF and WebP and is exported as WebP only, an image with transparency
    as WebP and PNG, any other image as WebP. *)
Theorem recommended_formats_exported (has_transparency : bool) (analysis_type : string)
    (fallback_format : string) :
  _resolve_effective_formats (fresh_file has_transparency analysis_type) fallback_format
  = (if has_transparency then ["webp"; "png"] else ["webp"]) /\
  ("avif" ∉ _resolve_effective_formats (fresh_file has_transparency analysis_type)
              fallback_format) /\
  ("avif" ∈ default [] (recommended_formats (fresh_file has_transparency analysis_type))
   <-> analysis_type = "photo" /\ has_transparency = false).
Proof.
assert (E : _resolve_effective_formats (fresh_file has_transparency analysis_type)
              fallback_format
            = if has_transparency then ["webp"; "png"] else ["webp"]).
{ unfold _resolve_effective_formats, fresh_file, _recommend_formats_and_quality.
  cbn [output_formats output_format recommended_formats truthy].
  destruct has_transparency; case_bool_decide; cbn; reflexivity. }
split; [exact E|]. split.
- rewrite E. destruct has_transparency; intros C;
    repeat (apply elem_of_cons in C; destruct C as [C|C]; [discriminate C|]); inversion C.
- unfold fresh_file, _recommend_formats_and_quality. cbn [recommended_formats].
  destruct has_transparency; case_bool_decide as Ep; cbn.
  all: split; [intros C | intros [E1 E2]].
  all: try solve [exfalso; repeat (apply elem_of_cons in C; destruct C as [C|C];
                                   [discriminate C|]); inversion C].
  all: try discriminate E2.
  all: try contradiction.
  + split; [exact Ep | reflexivity].
  + left.
Qed.

End FormatsFacts.

Module AnalysisFacts.
Import Float64 Float64Facts Geometry GeometryDomain GeometryFacts GeometryBounds.
Import PresetList Analysis.
Local Open Scope Z_scope.

Lemma min_by_spec {A : Type} (key : A -> Q) (items : list A) :
  forall best,
    min_by key best items ∈ best :: items /\
    forall x, x ∈ best :: items -> (key (min_by key best items) <= key x)%Q.
Proof.
induction items as [|item rest IH]; intros best; cbn [min_by].
- split; [left|]. intros x Hx. apply list_elem_of_singleton in Hx. subst x. lra.
- destruct (IH (if Qlt_bool (key item) (key best) then item else best)) as [I1 I2].
  split.
  + apply elem_of_cons in I1. destruct I1 as [E|I1].
    * rewrite E. destruct (Qlt_bool (key item) (key best)); [right; left | left].
    * right. right. exact I1.
  + intros x Hx.
    assert (Hb : (key (if Qlt_bool (key item) (key best) then item else best) <= key best)%Q /\
                 (key (if Qlt_bool (key item) (key best) then item else best) <= key item)%Q).
    { destruct (Qlt_bool (key item) (key best)) eqn:E.
      - apply Qlt_bool_iff in E. lra.
      - apply Qlt_bool_false_iff in E. lra. }
    pose proof (I2 _ ltac:(left)) as I0.
    apply elem_of_cons in Hx. destruct Hx as [->|Hx]; [lra|].
    apply elem_of_cons in Hx. destruct Hx as [->|Hx]; [lra|].
    apply I2. right. exact Hx.
Qed.

Lemma aspect_candidates_Ok :
  exists first rest, aspect_candidates = Ok (first, rest) /\
    fst <$> (first :: rest) = fst <$> labelled_ratios.
Proof. eexists _, _. split; [vm_compute; reflexivity|]. reflexivity. Qed.

(** The ratio of the sides of an [a k] x [b k] image is the float nearest
    to [a / b]. *)
Lemma ratio_of_multiple (a b k : Z) :
  1 <= a -> 1 <= b -> 1 <= k -> a * k <= INT_MAX -> b * k <= INT_MAX ->
  fdiv (float (a * k)) (float (b * k)) = Ok (rnd (inject_Z a / inject_Z b)).
Proof.
intros Ha Hb Hk Hak Hbk.
assert (Rak : 1 <= a * k <= INT_MAX) by nia.
assert (Rbk : 1 <= b * k <= INT_MAX) by nia.
rewrite fdiv_Ok by (apply float_dim_nonzero; exact Rbk).
f_equal. apply rnd_comp. rewrite !float_dim by lia.
rewrite !inject_Z_mult.
pose proof (inject_dim_pos b Hb). pose proof (inject_dim_pos k Hk).
field. split; lra.
Qed.

(** X14.  An image without a positive width or height gets no aspect
    label; an image in the range of PIL always gets one of the seven
    labels; and an image whose sides are exactly in one of the seven
    ratios (16 k by 9 k, 4 k by 5 k, ...) gets the label of that ratio. *)
Theorem closest_aspect_label_exact :
  (forall width height, width <= 0 \/ height <= 0 ->
     _closest_aspect_label width height = Ok "") /\
  (forall width height, 1 <= width <= INT_MAX -> 1 <= height <= INT_MAX ->
     exists label, _closest_aspect_label width height = Ok label /\
                   label ∈ fst <$> labelled_ratios) /\
  (forall label a b k, (label, (a, b)) ∈ labelled_ratios ->
     1 <= k -> a * k <= INT_MAX -> b * k <= INT_MAX ->
     _closest_aspect_label (a * k) (b * k) = Ok label).
Proof.
split; [|split].
- intros width height H. unfold _closest_aspect_label.
  assert ((width <=? 0) || (height <=? 0) = true) as ->; [|reflexivity].
  apply orb_true_iff. destruct H as [H|H]; [left|right]; apply Z.leb_le, H.
- intros width height Hw Hh. unfold _closest_aspect_label.
  assert ((width <=? 0) || (height <=? 0) = false) as ->.
  { apply orb_false_iff. split; apply Z.leb_gt; lia. }
  rewrite fdiv_Ok by (apply float_dim_nonzero; exact Hh). cbn [mbind result_bind].
  destruct aspect_candidates_Ok as (first & rest & -> & Hl). cbn [mbind result_bind fst snd].
  eexists. split; [reflexivity|]. rewrite <- Hl.
  apply list_elem_of_fmap. eexists. split; [reflexivity|]. apply min_by_spec.
- intros label a b k Hin Hk Hak Hbk. unfold _closest_aspect_label.
  assert (Hab : 1 <= a /\ 1 <= b).
  { unfold labelled_ratios in Hin.
    repeat (apply elem_of_cons in Hin; destruct Hin as [[= -> -> ->]|Hin]; [lia|]).
    inversion Hin. }
  destruct Hab as [Ha Hb].
  assert ((a * k <=? 0) || (b * k <=? 0) = false) as ->.
  { apply orb_false_iff. split; apply Z.leb_gt; nia. }
  rewrite (ratio_of_multiple a b k Ha Hb Hk Hak Hbk). cbn [mbind result_bind].
  unfold labelled_ratios in Hin.
  repeat (apply elem_of_cons in Hin; destruct Hin as [[= -> -> ->]|Hin];
          [vm_compute; reflexivity|]).
  inversion Hin.
Qed.


Lemma orientation_horizontal (width height : Z) :
  _orientation_from_size width height = "HORIZONTAL" <-> height < width.
Proof.
unfold _orientation_from_size.
destruct (Z.ltb_spec height width) as [A|A]; [tauto|].
destruct (Z.ltb_spec width height) as [B|B]; split; (discriminate || lia).
Qed.

(** X15.  For an image of any size and a preset whose sides are in the
    range of PIL, a crop is recommended exactly when the image is wider
    than high and the preset is not: comparing the float ratio of the
    preset with 1 is comparing its sides.  With no preset, or a preset
    without sides, no crop is recommended. *)
Theorem recommend_crop_mode_iff (width height : Z) (preset : PresetInfo) (pw ph : Z) :
  sized preset pw ph ->
  exists mode reason,
    _recommend_crop_mode (_orientation_from_size width height) (Some preset)
      = Ok (mode, reason) /\
    (mode = "cover" <-> height < width /\ pw <= ph) /\
    (mode = "cover" \/ mode = "contain" /\ reason = "") /\
    _recommend_crop_mode (_orientation_from_size width height) None = Ok ("contain", "").
Proof.
intros (Ew & Eh & Rw & Rh). unfold _recommend_crop_mode. rewrite Ew, Eh.
cbn [truthy_dim].
assert ((pw =? 0) = false) as -> by (apply Z.eqb_neq; lia).
assert ((ph =? 0) = false) as -> by (apply Z.eqb_neq; lia).
rewrite fdiv_Ok by (apply float_dim_nonzero; exact Rh). cbn [mbind result_bind].
destruct (quotient_vs_1 pw ph Rw Rh) as (Qg & Ql & Qe).
set (r := rnd (float pw / float ph)) in *.
pose proof (orientation_horizontal width height) as Ho.
case_bool_decide as Eo; cbn [andb].
- destruct (Qle_bool r 1) eqn:E.
  + apply Qle_bool_iff in E.
    eexists _, _. split; [reflexivity|]. split; [|split; [left|]; reflexivity].
    split; [intros _|reflexivity]. split; [apply Ho, Eo|].
    destruct (Z.le_gt_cases pw ph) as [L|L]; [exact L|]. apply Qg in L. lra.
  + eexists _, _. split; [reflexivity|]. split; [|split; [right; split|]; reflexivity].
    split; [discriminate|]. intros [_ L]. exfalso.
    assert (r <= 1)%Q as C; [|apply Qle_bool_iff in C; congruence].
    destruct (Z.le_gt_cases ph pw) as [L'|L'].
    * assert (pw = ph) as Epw by lia. apply Qe in Epw. lra.
    * apply Ql in L'. lra.
- eexists _, _. split; [reflexivity|]. split; [|split; [right; split|]; reflexivity].
  split; [discriminate|]. intros [L _]. exfalso. apply Eo, Ho, L.
Qed.

Lemma recommend_crop_mode_iff_witness :
  exists mode reason,
    _recommend_crop_mode (_orientation_from_size 1600 1200) (Some square_1080)
      = Ok (mode, reason) /\
    (mode = "cover" <-> 1200 < 1600 /\ 1080 <= 1080) /\
    (mode = "cover" \/ mode = "contain" /\ reason = "") /\
    _recommend_crop_mode (_orientation_from_size 1600 1200) None = Ok ("contain", "").
Proof.
apply (recommend_crop_mode_iff 1600 1200 square_1080 1080 1080).
unfold sized, INT_MAX. cbn. repeat split; lia.
Defined.


Lemma fdiv_nonneg (a b : Z) :
  0 <= a <= INT_MAX -> 1 <= b <= INT_MAX ->
  exists q, fdiv (float a) (float b) = Ok q /\ (0 <= q)%Q /\
            (a = 0 -> q = 0%Q) /\ (1 <= a -> (2 ^ (-31) <= q)%Q).
Proof.
intros Ha Hb. rewrite fdiv_Ok by (apply float_dim_nonzero; exact Hb).
eexists. split; [reflexivity|].
pose proof (inject_dim_pos b ltac:(lia)) as B1.
assert (B2 : (inject_Z b <= inject_Z (2 ^ 31))%Q).
{ rewrite <- Zle_Qle. unfold INT_MAX in Hb. lia. }
assert (A0 : (0 <= inject_Z a)%Q) by (rewrite <- (Zle_Qle 0); lia).
assert (E : rnd (float a / float b) = rnd (inject_Z a / inject_Z b)).
{ apply rnd_comp. rewrite !float_dim by lia. reflexivity. }
rewrite E. split; [|split].
- apply rnd_nonneg. apply Qle_shift_div_l; lra.
- intros ->. apply rnd_zero_eq. unfold Qdiv. change (inject_Z 0) with 0%Q. ring.
- intros A1. apply rnd_ge_repr; [apply representable_pow2; discriminate|].
  apply Qle_shift_div_l; [lra|].
  assert (A1' : (1 <= inject_Z a)%Q) by (apply inject_dim_pos; lia).
  assert (c31 : (inject_Z (2 ^ 31) == 2147483648)%Q) by reflexivity.
  assert (2 ^ (-31) == 1 # 2147483648)%Q as -> by reflexivity.
  rewrite c31 in B2. nra.
Qed.

Lemma fadd_nonneg (a b : Q) : (0 <= a)%Q -> (0 <= b)%Q -> (0 <= fadd a b)%Q.
Proof. intros Ha Hb. unfold fadd. apply rnd_nonneg. lra. Qed.

Lemma fadd_ge_pow2 (a b : Q) (e : Z) :
  (emin <= e)%Z -> (0 <= a)%Q -> (0 <= b)%Q -> (2 ^ e <= a \/ 2 ^ e <= b)%Q ->
  (2 ^ e <= fadd a b)%Q.
Proof.
intros He Ha Hb H. unfold fadd. apply rnd_ge_repr; [apply representable_pow2, He|].
destruct H; lra.
Qed.

Lemma fmul_nonneg (a b : Q) : (0 <= a)%Q -> (0 <= b)%Q -> (0 <= fmul a b)%Q.
Proof. intros Ha Hb. unfold fmul. apply rnd_nonneg. nra. Qed.

(** The score of a preset is never negative, and it is zero exactly for a
    preset of the size of the image. *)
Lemma score_spec (ow oh : Z) (preset : PresetInfo) :
  1 <= ow <= INT_MAX -> 1 <= oh <= INT_MAX -> preset_in_range preset ->
  exists s, score ow oh preset = Ok s /\ (0 <= s)%Q /\
    (sized preset ow oh -> s = 0%Q) /\ ((s <= 0)%Q -> sized preset ow oh).
Proof.
intros How Hoh [Rw Rh]. unfold score, sized.
destruct (p_width preset) as [w|] eqn:Ew; cbn [truthy_dim target_in_range] in *.
2:{ exists 9999%Q. split; [reflexivity|]. split; [discriminate|].
    split; [intros (C & _); discriminate C | intros C; exfalso; revert C; apply Qlt_not_le; reflexivity]. }
destruct (Z.eqb_spec w 0) as [->|Nw].
{ exists 9999%Q. split; [reflexivity|]. split; [discriminate|].
  split; [intros (C & _); injection C; lia | intros C; exfalso; revert C; apply Qlt_not_le; reflexivity]. }
destruct (p_height preset) as [h|] eqn:Eh; cbn [truthy_dim target_in_range] in *.
2:{ exists 9999%Q. split; [reflexivity|]. split; [discriminate|].
    split; [intros (_ & C & _); discriminate C | intros C; exfalso; revert C; apply Qlt_not_le; reflexivity]. }
destruct (Z.eqb_spec h 0) as [->|Nh].
{ exists 9999%Q. split; [reflexivity|]. split; [discriminate|].
  split; [intros (_ & C & _); injection C; lia | intros C; exfalso; revert C; apply Qlt_not_le; reflexivity]. }
assert (Hw : 1 <= w <= INT_MAX) by lia. assert (Hh : 1 <= h <= INT_MAX) by lia.
rewrite (fdiv_Ok (float w) (float h)) by (apply float_dim_nonzero; exact Hh).
rewrite (fdiv_Ok (float ow) (float oh)) by (apply float_dim_nonzero; exact Hoh).
cbn [mbind result_bind].
destruct (fdiv_nonneg (Z.abs (w - ow)) ow ltac:(unfold INT_MAX in *; lia) How)
  as (sw & -> & Sw0 & Swz & Swp).
destruct (fdiv_nonneg (Z.abs (h - oh)) oh ltac:(unfold INT_MAX in *; lia) Hoh)
  as (sh & -> & Sh0 & Shz & Shp).
cbn [mbind result_bind].
set (ad := Qabs (fsub (rnd (float w / float h)) (rnd (float ow / float oh)))).
assert (Had : (0 <= ad)%Q) by apply Qabs_nonneg.
assert (Hpen : exists pen,
          (if (ow <? w) || (oh <? h)
           then up_w ← fdiv (float (Z.max (w - ow) 0)) (float w);
                up_h ← fdiv (float (Z.max (h - oh) 0)) (float h);
                Ok (fadd 2 (fadd up_w up_h))
           else Ok 0%Q) = Ok pen /\ (0 <= pen)%Q /\ (w = ow -> h = oh -> pen = 0%Q)).
{ destruct ((ow <? w) || (oh <? h)) eqn:Eb.
  - destruct (fdiv_nonneg (Z.max (w - ow) 0) w ltac:(unfold INT_MAX in *; lia) Hw)
      as (uw & -> & U0 & _).
    destruct (fdiv_nonneg (Z.max (h - oh) 0) h ltac:(unfold INT_MAX in *; lia) Hh)
      as (uh & -> & V0 & _).
    cbn [mbind result_bind]. eexists. split; [reflexivity|]. split.
    + apply fadd_nonneg; [lra | apply fadd_nonneg; assumption].
    + intros -> ->. rewrite !Z.ltb_irrefl in Eb. discriminate Eb.
  - exists 0%Q. split; [reflexivity|]. split; [lra | reflexivity]. }
destruct Hpen as (pen & -> & Hp0 & Hpz). cbn [mbind result_bind].
eexists. split; [reflexivity|].
assert (Hin : (0 <= fadd (fmul ad 2) (fadd sw sh))%Q).
{ apply fadd_nonneg; [apply fmul_nonneg; lra | apply fadd_nonneg; assumption]. }
assert (Hout : (0 <= fmul pen 3)%Q) by (apply fmul_nonneg; lra).
split; [apply fadd_nonneg; assumption|]. split.
- intros (E1 & E2 & _). injection E1 as ->. injection E2 as ->.
  assert (Ead : ad = 0%Q).
  { unfold ad, fsub. rewrite (rnd_zero_eq (_ - _)) by ring. reflexivity. }
  rewrite Ead, (Hpz eq_refl eq_refl).
  rewrite (Swz ltac:(lia)), (Shz ltac:(lia)). vm_compute. reflexivity.
- intros Hs.
  destruct (Z.eq_dec w ow) as [->|Dw]; [destruct (Z.eq_dec h oh) as [->|Dh]|].
  + repeat split; (reflexivity || lia).
  + exfalso. specialize (Shp ltac:(lia)).
    assert (P : (0 < 2 ^ (-31))%Q) by reflexivity.
    assert (2 ^ (-31) <= fadd sw sh)%Q as S1.
    { apply fadd_ge_pow2; [discriminate | assumption | assumption | right; exact Shp]. }
    assert (2 ^ (-31) <= fadd (fmul ad 2) (fadd sw sh))%Q as S2.
    { apply fadd_ge_pow2; [discriminate | apply fmul_nonneg; lra | lra | right; exact S1]. }
    assert (2 ^ (-31) <= fadd (fadd (fmul ad 2) (fadd sw sh)) (fmul pen 3))%Q as S3.
    { apply fadd_ge_pow2; [discriminate | lra | assumption | left; exact S2]. }
    lra.
  + exfalso. specialize (Swp ltac:(lia)).
    assert (P : (0 < 2 ^ (-31))%Q) by reflexivity.
    assert (2 ^ (-31) <= fadd sw sh)%Q as S1.
    { apply fadd_ge_pow2; [discriminate | assumption | assumption | left; exact Swp]. }
    assert (2 ^ (-31) <= fadd (fmul ad 2) (fadd sw sh))%Q as S2.
    { apply fadd_ge_pow2; [discriminate | apply fmul_nonneg; lra | lra | right; exact S1]. }
    assert (2 ^ (-31) <= fadd (fadd (fmul ad 2) (fadd sw sh)) (fmul pen 3))%Q as S3.
    { apply fadd_ge_pow2; [discriminate | lra | assumption | left; exact S2]. }
    lra.
Qed.


Lemma with_scores_spec (ow oh : Z) (presets : list PresetInfo) :
  1 <= ow <= INT_MAX -> 1 <= oh <= INT_MAX -> Forall preset_in_range presets ->
  exists scored, with_scores ow oh presets = Ok scored /\
    fst <$> scored = presets /\
    Forall (fun ps => score ow oh ps.1 = Ok ps.2) scored.
Proof.
intros How Hoh. induction 1 as [|p rest Hp _ IH]; cbn [with_scores].
- exists []. repeat split. constructor.
- destruct (score_spec ow oh p How Hoh Hp) as (s & Es & _).
  destruct IH as (scored & E & I1 & I2). rewrite Es, E. cbn [mbind result_bind].
  eexists. split; [reflexivity|]. split; [cbn; by rewrite I1|].
  constructor; [exact Es | exact I2].
Qed.

(** X16.  For an image and presets in the range of PIL the recommendation
    is one of the presets of the list; it is of the category of the job's
    preset whenever the list holds a preset of that category; and when a
    preset eligible in this way has exactly the size of the image, the
    recommended preset has exactly that size.  An empty list gives no
    recommendation. *)
Theorem recommend_preset_spec (get_preset : string -> option PresetInfo)
    (job_preset_id : string) (ow oh : Z) (presets : list PresetInfo) :
  1 <= ow <= INT_MAX -> 1 <= oh <= INT_MAX ->
  presets <> [] -> Forall preset_in_range presets ->
  (exists p,
     _recommend_preset get_preset job_preset_id ow oh presets = Ok (Some p) /\
     p ∈ presets /\
     (forall jp q, job_preset_of get_preset job_preset_id = Some jp ->
        q ∈ presets -> category_of q = category_of jp ->
        category_of p = category_of jp) /\
     (forall q, q ∈ presets -> sized q ow oh ->
        (forall jp, job_preset_of get_preset job_preset_id = Some jp ->
           category_of q = category_of jp) ->
        sized p ow oh)) /\
  _recommend_preset get_preset job_preset_id ow oh [] = Ok None.
Proof.
intros How Hoh Hne Hall. split; [|reflexivity].
unfold _recommend_preset.
destruct presets as [|p0 rest0] eqn:Ep; [congruence|]. rewrite <- Ep in *. clear Hne.
set (jpo := job_preset_of get_preset job_preset_id).
set (filtered := match jpo with
                 | Some jp =>
                   match filter (fun preset => category_of preset = category_of jp) presets with
                   | [] => presets
                   | same_category => same_category
                   end
                 | None => presets
                 end).
assert (Hf : filtered <> [] /\ (forall x, x ∈ filtered -> x ∈ presets) /\
             (forall jp q, jpo = Some jp -> q ∈ presets -> category_of q = category_of jp ->
                q ∈ filtered /\ forall x, x ∈ filtered -> category_of x = category_of jp) /\
             (jpo = None -> filtered = presets)).
{ unfold filtered. destruct jpo as [jp|].
  - destruct (filter (fun preset => category_of preset = category_of jp) presets)
      as [|f r] eqn:Ef.
    + split; [rewrite Ep; discriminate|]. split; [auto|]. split; [|discriminate].
      intros jp' q [= <-] Hq Hc. exfalso.
      assert (q ∈ filter (fun preset => category_of preset = category_of jp) presets) as C
        by (apply list_elem_of_filter; auto).
      rewrite Ef in C. inversion C.
    + split; [discriminate|]. split; [|split; [|discriminate]].
      * intros x Hx. rewrite <- Ef in Hx. apply list_elem_of_filter in Hx. apply Hx.
      * intros jp' q [= <-] Hq Hc. rewrite <- Ef. split.
        -- apply list_elem_of_filter. auto.
        -- intros x Hx. apply list_elem_of_filter in Hx. apply Hx.
  - split; [rewrite Ep; discriminate|]. split; [auto|]. split; [discriminate | reflexivity]. }
destruct Hf as (Fne & Fsub & Fcat & Fnone).
assert ((ow <=? 0) || (oh <=? 0) = false) as ->.
{ apply orb_false_iff. split; apply Z.leb_gt; lia. }
assert (Hfr : Forall preset_in_range filtered).
{ apply Forall_forall. intros x Hx. rewrite Forall_forall in Hall. apply Hall, Fsub, Hx. }
destruct (with_scores_spec ow oh filtered How Hoh Hfr) as (scored & Es & S1 & S2).
rewrite Ep. cbv zeta. rewrite <- Ep. fold jpo. fold filtered. rewrite Es.
cbn [mbind result_bind].
destruct scored as [|first rest]; [cbn in S1; congruence|].
destruct (min_by_spec snd rest first) as [M1 M2].
set (m := min_by snd first rest) in *.
assert (Hm : m.1 ∈ filtered).
{ rewrite <- S1. apply list_elem_of_fmap. exists m. split; [reflexivity | exact M1]. }
exists m.1. split; [reflexivity|]. split; [apply Fsub, Hm|]. split.
- intros jp q Ej Hq Hc. destruct (Fcat jp q Ej Hq Hc) as [_ Hcat]. apply Hcat, Hm.
- intros q Hq Hsz Hc.
  assert (Hqf : q ∈ filtered).
  { destruct jpo as [jp|] eqn:Ej.
    - apply (Fcat jp q eq_refl Hq (Hc jp eq_refl)).
    - rewrite (Fnone eq_refl). exact Hq. }
  rewrite <- S1 in Hqf. apply list_elem_of_fmap in Hqf. destruct Hqf as ([q' sq] & Eq & Hqs).
  cbn [fst] in Eq. subst q'.
  rewrite Forall_forall in S2.
  pose proof (S2 _ Hqs) as Sq. cbn [fst snd] in Sq.
  pose proof (S2 _ M1) as Sm.
  rewrite Forall_forall in Hall.
  destruct (score_spec ow oh q How Hoh (Hall _ Hq)) as (s1 & E1 & _ & Z1 & _).
  destruct (score_spec ow oh m.1 How Hoh (Hall _ (Fsub _ Hm))) as (s2 & E2 & _ & _ & Z2).
  apply Z2. rewrite E2 in Sm. injection Sm as ->.
  rewrite E1 in Sq. injection Sq as ->.
  specialize (M2 _ Hqs). cbn [snd] in M2. rewrite (Z1 Hsz) in M2. exact M2.
Qed.

Lemma recommend_preset_spec_witness :
  exists p,
    _recommend_preset (fun _ => None) "" 1080 1080 [wide_1920; square_1080; story_1080]
      = Ok (Some p) /\
    p ∈ [wide_1920; square_1080; story_1080] /\
    (forall jp q, job_preset_of (fun _ => None) "" = Some jp ->
       q ∈ [wide_1920; square_1080; story_1080] -> category_of q = category_of jp ->
       category_of p = category_of jp) /\
    (forall q, q ∈ [wide_1920; square_1080; story_1080] -> sized q 1080 1080 ->
       (forall jp, job_preset_of (fun _ => None) "" = Some jp ->
          category_of q = category_of jp) ->
       sized p 1080 1080).
Proof.
apply (recommend_preset_spec (fun _ => None) "" 1080 1080
         [wide_1920; square_1080; story_1080]).
- unfold INT_MAX. lia.
- unfold INT_MAX. lia.
- discriminate.
- unfold preset_in_range, target_in_range, INT_MAX. repeat constructor; cbn; lia.
Defined.

(** The recommendation for a 1080 x 1080 image among three presets. *)
Lemma recommend_preset_example :
  _recommend_preset (fun _ => None) "" 1080 1080 [wide_1920; square_1080; story_1080]
  = Ok (Some square_1080).
Proof. vm_compute. reflexivity. Qed.

End AnalysisFacts.

Module WorkerFacts.
Import Scheduler SchedulerFacts Worker.
Local Open Scope Z_scope.

#[local] Instance older_transitive : Transitive older.
Proof. unfold older. intros a b c. lia. Qed.

#[local] Instance older_total : Total older.
Proof. unfold older. intros a b. lia. Qed.

Lemma StronglySorted_filter {A : Type} (R : relation A) (P : A -> Prop)
    `{forall x, Decision (P x)} (l : list A) :
  StronglySorted R l -> StronglySorted R (filter P l).
Proof.
induction 1 as [|x l Hl IH Hx]; [constructor|].
destruct (decide (P x)) as [Hp|Hp].
- rewrite filter_cons_True by exact Hp. constructor; [exact IH|].
  apply Forall_forall. intros y Hy. apply list_elem_of_filter in Hy.
  rewrite Forall_forall in Hx. apply Hx, Hy.
- rewrite filter_cons_False by exact Hp. exact IH.
Qed.

(** The rows a claim returns, whatever the branch taken. *)
Lemma next_jobs_fst (limit : nat) (table : list Row) :
  (_next_jobs limit table).1
  = take limit (filter (fun r => status r = Job.PENDING) (merge_sort older table)).
Proof.
unfold _next_jobs. destruct (take limit _) as [|j jobs'] eqn:E; reflexivity.
Qed.

(** X17.  A claim serves the oldest pending jobs first: the rows it
    returns come in the order of their creation, and none of them was
    created after a pending job it leaves behind. *)
Theorem next_jobs_oldest_first (limit : nat) (table : list Row) :
  StronglySorted older (_next_jobs limit table).1 /\
  forall r r', r ∈ (_next_jobs limit table).1 ->
    r' ∈ table -> status r' = Job.PENDING -> r' ∉ (_next_jobs limit table).1 ->
    created_at r <= created_at r'.
Proof.
rewrite next_jobs_fst.
set (pending := filter (fun r => status r = Job.PENDING) (merge_sort older table)).
assert (Hs : StronglySorted older pending).
{ apply StronglySorted_filter, StronglySorted_merge_sort; apply _. }
rewrite <- (take_drop limit pending) in Hs.
split; [eapply StronglySorted_app_1_l, Hs|].
intros r r' Hr Hr' Hp Hout.
assert (Hin : r' ∈ pending).
{ apply list_elem_of_filter. split; [exact Hp|]. rewrite merge_sort_Permutation. exact Hr'. }
rewrite <- (take_drop limit pending) in Hin. apply elem_of_app in Hin.
destruct Hin as [Hin|Hin]; [contradiction|].
exact (StronglySorted_app_1_elem_of _ _ _ _ _ Hs Hr Hin).
Qed.


Lemma next_jobs_snd (limit : nat) (table : list Row) :
  (_next_jobs limit table).2
  = (fun r => if bool_decide (job_id r ∈ job_id <$> (_next_jobs limit table).1)
              then {| job_id := job_id r; status := Job.PROCESSING;
                      created_at := created_at r |}
              else r) <$> table.
Proof.
unfold _next_jobs. destruct (take limit _) as [|j jobs'] eqn:E; cbn [fst snd]; [|reflexivity].
clear E. induction table as [|r table IH]; [reflexivity|].
cbn [fmap list_fmap]. rewrite bool_decide_eq_false_2 by (intros C; inversion C).
f_equal. exact IH.
Qed.

(** X18.  A claim returns as many rows as the limit allows and there are
    pending jobs, all of them pending rows of the table; it leaves every
    row in its place with its id and date, sets the claimed rows to
    Processing and changes no other row; and a claim run after it returns
    none of the same jobs. *)
Theorem next_jobs_claim (limit : nat) (table : list Row) :
  let jobs := (_next_jobs limit table).1 in
  let table' := (_next_jobs limit table).2 in
  length jobs = Nat.min limit (length (filter (fun r => status r = Job.PENDING) table)) /\
  Forall (fun r => r ∈ table /\ status r = Job.PENDING) jobs /\
  job_id <$> table' = job_id <$> table /\
  created_at <$> table' = created_at <$> table /\
  Forall2 (fun r r' => if bool_decide (job_id r ∈ job_id <$> jobs)
                       then status r' = Job.PROCESSING else r' = r) table table' /\
  (forall limit2 r1 r2, r1 ∈ jobs -> r2 ∈ (_next_jobs limit2 table').1 ->
     job_id r1 <> job_id r2).
Proof.
intros jobs table'.
split; [|split; [|split; [|split; [|split]]]].
- unfold jobs. rewrite next_jobs_fst, length_take. f_equal.
  apply Permutation_length, filter_Permutation, merge_sort_Permutation.
- apply Forall_forall. intros r Hr. apply (next_jobs_claimed limit table r Hr).
- unfold table'. rewrite next_jobs_snd, <- list_fmap_compose.
  apply list_fmap_ext. intros i r _. cbn. case_bool_decide; reflexivity.
- unfold table'. rewrite next_jobs_snd, <- list_fmap_compose.
  apply list_fmap_ext. intros i r _. cbn. case_bool_decide; reflexivity.
- unfold table'. rewrite next_jobs_snd. fold jobs.
  apply Forall2_fmap_r, Forall_Forall2_diag, Forall_forall.
  intros r _. unfold compose.
  destruct (bool_decide (job_id r ∈ job_id <$> jobs)); reflexivity.
- intros limit2 r1 r2 H1 H2. exact (next_jobs_serial_disjoint limit limit2 table r1 r2 H1 H2).
Qed.

Lemma get_concurrency_range (value : Z) :
  1 <= _get_concurrency value <= 10 /\
  (concurrency_accepted value = true -> _get_concurrency value = value).
Proof.
unfold _get_concurrency, concurrency_accepted.
destruct (Z.ltb_spec value 1) as [A|A]; [|destruct (Z.ltb_spec 10 value) as [B|B]];
  (split; [lia|]); intros C; apply andb_true_iff in C; destruct C as [C1 C2];
  apply Z.leb_le in C1, C2; lia.
Qed.

(** X19.  The concurrency the worker uses always lies between 1 and 10 and
    is the stored setting whenever the settings API accepted it.  A round
    of the worker loop never brings the number of jobs in flight above
    that concurrency, unless that many were already running: so it never
    exceeds 10 once it is at most 10; and the jobs it starts are pending
    jobs of the table. *)
Theorem worker_round_bounded (done : Z -> bool) (setting : Z) (futures : list Z)
    (table : list Row) :
  let concurrency := _get_concurrency setting in
  let futures' := (handle_round done setting futures table).1 in
  1 <= concurrency <= 10 /\
  (concurrency_accepted setting = true -> concurrency = setting) /\
  Z.of_nat (length futures') <= Z.max (Z.of_nat (length futures)) concurrency /\
  (Z.of_nat (length futures) <= 10 -> Z.of_nat (length futures') <= 10) /\
  exists started,
    futures' = filter (fun f => done f = false) futures ++ (job_id <$> started) /\
    Forall (fun r => r ∈ table /\ status r = Job.PENDING) started.
Proof.
intros concurrency futures'.
destruct (get_concurrency_range setting) as [Hr Hid]. fold concurrency in Hr, Hid.
split; [exact Hr|]. split; [exact Hid|].
pose proof (length_filter (fun f => done f = false) futures) as Hlen.
unfold futures', handle_round. fold concurrency.
set (running := filter (fun f => done f = false) futures) in *.
set (slots := Z.max 0 (concurrency - Z.of_nat (length running))).
destruct (Z.ltb_spec 0 slots) as [Hs|Hs].
- pose proof (next_jobs_fst (Z.to_nat slots) table) as E1.
  assert (Hall : Forall (fun r => r ∈ table /\ status r = Job.PENDING)
                   (_next_jobs (Z.to_nat slots) table).1).
  { apply Forall_forall. intros r Hr'. apply (next_jobs_claimed _ table r Hr'). }
  assert (Hn : (length (_next_jobs (Z.to_nat slots) table).1 <= Z.to_nat slots)%nat).
  { rewrite E1, length_take. lia. }
  destruct (_next_jobs (Z.to_nat slots) table) as [jobs table'] eqn:En.
  cbn [fst] in *. rewrite length_app, length_fmap.
  split; [lia|]. split; [lia|]. exists jobs. split; [reflexivity | exact Hall].
- cbn [fst]. split; [lia|]. split; [lia|]. exists []. cbn. rewrite app_nil_r.
  split; [reflexivity | constructor].
Qed.

(** A round with three slots on the example table starts the two oldest
    pending jobs besides the one still running. *)
Lemma worker_round_example :
  (handle_round (fun f => (f =? 7)%Z) 3 [7; 9] demo_table).1 = [9; 2; 3].
Proof. vm_compute. reflexivity. Qed.

End WorkerFacts.

Module RunFacts.
Import Float64 Geometry Naming Presets Orchestrator OrchestratorFacts Reprocess.
Local Open Scope Z_scope.

Section Runs.
Context `{Env}.

Lemma file_outcome_id (before after : JobFile.t) :
  file_outcome before after -> JobFile.id after = JobFile.id before.
Proof. intros (E & _). exact E. Qed.

(** What a round of the loop leaves in the state besides the counters. *)
Lemma loop_body_effects (index : nat) (job_file : JobFile.t) (job : Job.t) (st : LoopState) :
  exists job_file',
    ls_files (loop_body index job_file job st) = ls_files st ++ [job_file'] /\
    file_outcome job_file job_file' /\
    (ls_errors (loop_body index job_file job st) = false ->
     ls_errors st = false /\ JobFile.status job_file' = JobFile.DONE /\
     JobFile.error_message job_file' = "") /\
    (JobFile.status job_file' = JobFile.FAILED \/ ls_errors st = true ->
     ls_errors (loop_body index job_file job st) = true) /\
    Job.result_zip (ls_job (loop_body index job_file job st)) = Job.result_zip job /\
    Job.error_message (ls_job (loop_body index job_file job st)) = Job.error_message job /\
    Job.status (ls_job (loop_body index job_file job st)) = Job.status job /\
    Job.processed_files (ls_job (loop_body index job_file job st)) = Z.of_nat index.
Proof.
destruct (loop_body_spec index job_file job st) as (jf & Hout & Ej & Ef & _ & Hr).
exists jf. split; [exact Ef|]. split; [exact Hout|].
rewrite Ej.
assert (G : (ls_errors (loop_body index job_file job st) = false ->
             ls_errors st = false /\ JobFile.status jf = JobFile.DONE /\
             JobFile.error_message jf = "") /\
            (JobFile.status jf = JobFile.FAILED \/ ls_errors st = true ->
             ls_errors (loop_body index job_file job st) = true)).
2:{ destruct G as [G1 G2]. split; [exact G1|]. split; [exact G2|].
    unfold job_after. cbn. repeat split. }
revert Ef Hr. unfold loop_body.
destruct (process_and_save (JobFile.with_status JobFile.PROCESSING job_file) job (ls_used st))
  as [[saved out|exc row object] used'] eqn:E; cbn.
- intros Ef _. apply app_inj_tail in Ef. destruct Ef as [_ <-].
  apply process_and_save_Saved in E. destruct E as (E1 & E2 & _).
  split; [auto|]. intros [C|C]; [congruence | exact C].
- intros _ _. split; [discriminate | reflexivity].
Qed.

(** The loop, file by file: what it leaves when it completes and when a
    pause or cancel request interrupts it. *)
Lemma file_loop_effects (todo : list JobFile.t) :
  forall (index : nat) (st : LoopState),
    match file_loop index todo st with
    | Completed st' =>
      exists new, ls_files st' = ls_files st ++ new /\ Forall2 file_outcome todo new /\
        (ls_errors st' = false ->
         ls_errors st = false /\
         Forall (fun f => JobFile.status f = JobFile.DONE /\ JobFile.error_message f = "") new) /\
        (ls_errors st = true \/ Exists (fun f => JobFile.status f = JobFile.FAILED) new ->
         ls_errors st' = true) /\
        Job.result_zip (ls_job st') = Job.result_zip (ls_job st) /\
        Job.error_message (ls_job st') = Job.error_message (ls_job st) /\
        (todo <> [] ->
         Job.processed_files (ls_job st') = Z.of_nat index + Z.of_nat (length todo) - 1) /\
        (todo = [] -> Job.processed_files (ls_job st') = Job.processed_files (ls_job st))
    | Interrupted st' rest =>
      exists took new, todo = took ++ rest /\ rest <> [] /\
        ls_files st' = ls_files st ++ new /\ Forall2 file_outcome took new /\
        Job.result_zip (ls_job st') = Job.result_zip (ls_job st) /\
        Job.error_message (ls_job st') = Job.error_message (ls_job st) /\
        (Job.status (ls_job st') = Job.PAUSED \/ Job.status (ls_job st') = Job.CANCELED) /\
        Job.status (ls_job st') = refresh_status (index + length took) /\
        (forall k, (k < length took)%nat ->
           refresh_status (index + k) <> Job.PAUSED /\
           refresh_status (index + k) <> Job.CANCELED) /\
        (took <> [] ->
         Job.processed_files (ls_job st') = Z.of_nat index + Z.of_nat (length took) - 1) /\
        (took = [] -> Job.processed_files (ls_job st') = Job.processed_files (ls_job st))
    end.
Proof.
induction todo as [|job_file rest IH]; intros index st.
- cbn. exists []. rewrite app_nil_r. split; [reflexivity|]. split; [constructor|].
  split; [intros E; split; [exact E | constructor]|].
  split; [intros [C|C]; [exact C | inversion C]|]. split; [reflexivity|].
  split; [reflexivity|]. split; [congruence | reflexivity].
- cbn [file_loop].
  set (job := Job.with_status (refresh_status index) (ls_job st)).
  assert (Hint : forall st',
            st' = {| ls_job := job; ls_files := ls_files st; ls_errors := ls_errors st;
                     ls_used := ls_used st; ls_rows := ls_rows st;
                     ls_saves := ls_saves st ++ [job] |} ->
            Job.status job = Job.PAUSED \/ Job.status job = Job.CANCELED ->
            exists took new, job_file :: rest = took ++ job_file :: rest /\
              job_file :: rest <> [] /\
              ls_files st' = ls_files st ++ new /\ Forall2 file_outcome took new /\
              Job.result_zip (ls_job st') = Job.result_zip (ls_job st) /\
              Job.error_message (ls_job st') = Job.error_message (ls_job st) /\
              (Job.status (ls_job st') = Job.PAUSED \/
               Job.status (ls_job st') = Job.CANCELED) /\
              Job.status (ls_job st') = refresh_status (index + length took) /\
              (forall k, (k < length took)%nat ->
                 refresh_status (index + k) <> Job.PAUSED /\
                 refresh_status (index + k) <> Job.CANCELED) /\
              (took <> [] ->
               Job.processed_files (ls_job st')
                 = Z.of_nat index + Z.of_nat (length took) - 1) /\
              (took = [] ->
               Job.processed_files (ls_job st') = Job.processed_files (ls_job st))).
  { intros st' -> Hst. exists [], []. cbn. rewrite app_nil_r, Nat.add_0_r.
    repeat split; auto; try discriminate; try congruence; intros; lia. }
  case_bool_decide as Hp; [apply Hint; [reflexivity | left; exact Hp]|].
  case_bool_decide as Hc; [apply Hint; [reflexivity | right; exact Hc]|].
  clear Hint. cbn [Job.status Job.with_status job] in Hp, Hc.
  destruct (loop_body_effects index job_file job st)
    as (jf' & Ef & Hout & Hok & Hbad & Ez & Em & Es & Epf).
  specialize (IH (S index) (loop_body index job_file job st)).
  destruct (file_loop (S index) rest (loop_body index job_file job st)) as [st'|st' rest'].
  + destruct IH as (new & En & Hnew & Iok & Ibad & Iz & Im & Ipf & Ipf0).
    exists (jf' :: new). split; [rewrite En, Ef, <- app_assoc; reflexivity|].
    split; [constructor; assumption|]. split; [|split; [|split; [|split; [|split]]]].
    * intros E. destruct (Iok E) as [E1 Hall]. destruct (Hok E1) as (E2 & E3 & E4).
      split; [exact E2|]. constructor; [split; assumption | exact Hall].
    * intros [C|C]; apply Ibad.
      -- left. apply Hbad. right. exact C.
      -- apply Exists_cons in C. destruct C as [C|C]; [left; apply Hbad; left; exact C|].
         right. exact C.
    * rewrite Iz, Ez. reflexivity.
    * rewrite Im, Em. reflexivity.
    * intros _. destruct rest as [|r rest''].
      -- rewrite (Ipf0 eq_refl), Epf. cbn [length]. lia.
      -- rewrite Ipf by discriminate. cbn [length]. lia.
    * discriminate.
  + destruct IH as (took & new & Et & Hne & En & Hnew & Iz & Im & Ist & Ir & Iu & Ipf & Ipf0).
    exists (job_file :: took), (jf' :: new).
    split; [cbn; rewrite <- Et; reflexivity|]. split; [exact Hne|].
    split; [rewrite En, Ef, <- app_assoc; reflexivity|].
    split; [constructor; assumption|].
    split; [rewrite Iz, Ez; reflexivity|]. split; [rewrite Im, Em; reflexivity|].
    split; [exact Ist|].
    split; [rewrite Ir; f_equal; cbn [length]; lia|].
    split; [|split; [|discriminate]].
    * intros [|k] Hk; [rewrite Nat.add_0_r; split; assumption|].
      replace (index + S k)%nat with (S index + k)%nat by lia. apply Iu. cbn [length] in Hk. lia.
    * intros _. destruct took as [|t took'].
      -- rewrite (Ipf0 eq_refl), Epf. cbn [length]. lia.
      -- rewrite Ipf by discriminate. cbn [length]. lia.
Qed.


(** X20.  A run never adds, drops or reorders files: the files the loop
    reached come first, each stored Failed with a message or Done with
    none, with its id and selected preset, followed by the files it did
    not reach, untouched; the ids are those of the job, in order. *)
Theorem process_job_keeps_files (job : Job.t) (files : list JobFile.t) :
  exists took done rest,
    files = took ++ rest /\
    run_files (process_job job files) = done ++ rest /\
    Forall2 file_outcome took done /\
    Forall (fun f => JobFile.status f = JobFile.FAILED /\ JobFile.error_message f <> "" \/
                     JobFile.status f = JobFile.DONE /\ JobFile.error_message f = "") done /\
    JobFile.id <$> run_files (process_job job files) = JobFile.id <$> files.
Proof.
assert (Hid : forall took done, Forall2 file_outcome took done ->
          JobFile.id <$> done = JobFile.id <$> took).
{ induction 1 as [|a b ta tb Hab _ IH]; [reflexivity|].
  cbn. rewrite IH, (file_outcome_id _ _ Hab). reflexivity. }
assert (Hst : forall took done, Forall2 file_outcome took done ->
          Forall (fun f => JobFile.status f = JobFile.FAILED /\
                           JobFile.error_message f <> "" \/
                           JobFile.status f = JobFile.DONE /\
                           JobFile.error_message f = "") done).
{ induction 1 as [|a b ta tb Hab _ IH]; constructor; [|exact IH].
  destruct Hab as (_ & _ & [(S1 & S2 & _)|(S1 & S2 & _)]); auto. }
unfold process_job.
case_bool_decide as Hp.
{ exists [], [], files. cbn. repeat split; constructor. }
destruct (get_preset catalog (Job.preset job)) as [preset|].
2:{ exists [], [], files. cbn. repeat split; constructor. }
set (job0 := Job.with_error_message "" _).
set (st0 := {| ls_job := job0; ls_files := []; ls_errors := false; ls_used := ∅;
               ls_rows := []; ls_saves := [job0] |}).
pose proof (file_loop_effects files 1 st0) as L.
destruct (file_loop 1 files st0) as [st'|st' rest].
- destruct L as (new & En & Hnew & _). cbn [ls_files st0 app] in En.
  exists files, new, []. rewrite !app_nil_r.
  split; [reflexivity|].
  destruct (build_zip (ls_job st') (ls_rows st')) as [[zip|]|exc]; cbn [run_files];
    rewrite En; (split; [reflexivity|]); (split; [exact Hnew|]);
    (split; [apply (Hst _ _ Hnew) | apply Hid, Hnew]).
- destruct L as (took & new & Et & _ & En & Hnew & _). cbn [ls_files st0 app] in En.
  exists took, new, rest. cbn [run_files]. rewrite En.
  split; [exact Et|]. split; [reflexivity|]. split; [exact Hnew|].
  split; [apply (Hst _ _ Hnew)|].
  rewrite Et, !fmap_app, (Hid _ _ Hnew). reflexivity.
Qed.

(** X21.  A job ends Done only if every one of its files is Done with no
    message, the archive was built and stored with the job, the job
    carries no message, and every file was counted. *)
Theorem job_done_means_all_done (job : Job.t) (files : list JobFile.t) :
  Job.status (run_job (process_job job files)) = Job.DONE ->
  Forall (fun f => JobFile.status f = JobFile.DONE /\ JobFile.error_message f = "")
    (run_files (process_job job files)) /\
  length (run_files (process_job job files)) = length files /\
  is_Some (Job.result_zip (run_job (process_job job files))) /\
  Job.error_message (run_job (process_job job files)) = "" /\
  Job.processed_files (run_job (process_job job files)) = Z.of_nat (length files).
Proof.
unfold process_job.
case_bool_decide as Hp.
{ cbn [run_job]. intros C. destruct Hp as [Hp|Hp]; congruence. }
destruct (get_preset catalog (Job.preset job)) as [preset|]; [|discriminate].
set (job0 := Job.with_error_message "" _).
set (st0 := {| ls_job := job0; ls_files := []; ls_errors := false; ls_used := ∅;
               ls_rows := []; ls_saves := [job0] |}).
pose proof (file_loop_effects files 1 st0) as L.
destruct (file_loop 1 files st0) as [st'|st' rest].
- destruct L as (new & En & Hnew & Hok & _ & Ez & Em & Epf & Epf0).
  cbn [ls_files ls_job st0 app] in En, Ez, Em, Epf, Epf0.
  destruct (build_zip (ls_job st') (ls_rows st')) as [[zip|]|exc];
    cbn [run_job run_files Job.status Job.with_status]; try discriminate.
  destruct (ls_errors st') eqn:Ee; [discriminate|]. intros _.
  destruct (Hok eq_refl) as [_ Hall]. rewrite En.
  split; [exact Hall|]. split; [symmetry; eapply Forall2_length, Hnew|].
  split; [eexists; reflexivity|]. split; [cbn; rewrite Em; reflexivity|].
  cbn. destruct files as [|f files'].
  + rewrite (Epf0 eq_refl). reflexivity.
  + rewrite Epf by discriminate. cbn [length]. lia.
- destruct L as (took & new & _ & _ & _ & _ & _ & _ & Hst & _).
  cbn [run_job]. intros C. destruct Hst as [Hst|Hst]; congruence.
Qed.

(** X22.  When a run that had started is ended by a pause or cancel
    request, the files it did not reach are left untouched, the files it
    reached are each stored Failed with a message or Done with none and
    are all counted, and the archive of the job is left as it was: none
    is built. *)
Theorem interrupted_run (job : Job.t) (files : list JobFile.t) :
  Job.status job <> Job.PAUSED -> Job.status job <> Job.CANCELED ->
  Job.status (run_job (process_job job files)) = Job.PAUSED \/
  Job.status (run_job (process_job job files)) = Job.CANCELED ->
  exists took done rest,
    files = took ++ rest /\ rest <> [] /\
    run_files (process_job job files) = done ++ rest /\
    Forall2 (fun before after =>
               JobFile.id after = JobFile.id before /\
               (JobFile.status after = JobFile.FAILED /\
                JobFile.error_message after <> "" \/
                JobFile.status after = JobFile.DONE /\
                JobFile.error_message after = "")) took done /\
    Job.processed_files (run_job (process_job job files)) = Z.of_nat (length took) /\
    Job.result_zip (run_job (process_job job files)) = Job.result_zip job /\
    Job.status (run_job (process_job job files)) = refresh_status (S (length took)).
Proof.
intros Hp Hc. unfold process_job.
rewrite bool_decide_eq_false_2 by tauto.
destruct (get_preset catalog (Job.preset job)) as [preset|].
2:{ cbn. intros [C|C]; discriminate C. }
set (job0 := Job.with_error_message "" _).
set (st0 := {| ls_job := job0; ls_files := []; ls_errors := false; ls_used := ∅;
               ls_rows := []; ls_saves := [job0] |}).
pose proof (file_loop_effects files 1 st0) as L.
destruct (file_loop 1 files st0) as [st'|st' rest].
- destruct (build_zip (ls_job st') (ls_rows st')) as [[zip|]|exc];
    cbn [run_job Job.status Job.with_status]; try destruct (ls_errors st');
    intros [C|C]; discriminate C.
- destruct L as (took & new & Et & Hne & En & Hnew & Ez & _ & _ & Er & _ & Epf & Epf0).
  cbn [ls_files ls_job st0 app] in En, Ez, Epf, Epf0. intros _.
  exists took, new, rest. cbn [run_job run_files].
  split; [exact Et|]. split; [exact Hne|]. split; [rewrite En; reflexivity|].
  split.
  { eapply Forall2_impl; [exact Hnew|]. intros b a (Hid & _ & Ho).
    split; [exact Hid|]. destruct Ho as [(S1 & S2 & _)|(S1 & S2 & _)]; auto. }
  split; [|split; [exact Ez | exact Er]].
  destruct took as [|t took'].
  + rewrite (Epf0 eq_refl). reflexivity.
  + rewrite Epf by discriminate. cbn [length]. lia.
Qed.

(** X23.  Reprocessing a job runs it whatever state it and its files were
    left in, also paused, cancelled or failed: when its preset exists and
    no new pause or cancel request comes, every file is processed anew
    and ends stored Failed with a message or Done with none, whatever its
    status and message were; every file is counted and the job ends Done
    or Failed. *)
Theorem reprocess_job_runs (job : Job.t) (files : list JobFile.t) :
  undisturbed -> is_Some (get_preset catalog (Job.preset job)) ->
  Forall2 (fun before after =>
             JobFile.id after = JobFile.id before /\
             (JobFile.status after = JobFile.FAILED /\
              JobFile.error_message after <> "" \/
              JobFile.status after = JobFile.DONE /\
              JobFile.error_message after = "" /\
              is_Some (JobFile.output_size after)))
          files (run_files (reprocess_job job files)) /\
  Job.processed_files (run_job (reprocess_job job files)) = Z.of_nat (length files) /\
  (Job.status (run_job (reprocess_job job files)) = Job.DONE \/
   Job.status (run_job (reprocess_job job files)) = Job.FAILED).
Proof.
intros Hu [preset Epre]. unfold reprocess_job, process_job.
cbn [Job.status Job.with_status Job.with_error_message Job.with_processed_files
     Job.with_progress Job.preset].
rewrite bool_decide_eq_false_2 by (intros [C|C]; discriminate C).
rewrite Epre.
set (job0 := Job.with_error_message "" _).
set (st0 := {| ls_job := job0; ls_files := []; ls_errors := false; ls_used := ∅;
               ls_rows := []; ls_saves := [job0] |}).
set (files0 := (fun f => JobFile.with_error_message ""
                           (JobFile.with_status JobFile.PENDING f)) <$> files).
pose proof (file_loop_effects files0 1 st0) as L.
destruct (file_loop_undisturbed files0 Hu 1 st0) as [st' E]. rewrite E in *.
destruct L as (new & En & Hnew & _ & _ & _ & _ & Epf & Epf0).
cbn [ls_files ls_job st0 app] in En, Epf, Epf0.
assert (Hlen : length files0 = length files) by (unfold files0; apply length_fmap).
assert (Hpf : Job.processed_files (ls_job st') = Z.of_nat (length files)).
{ destruct files0 as [|f files'] eqn:Ef.
  - rewrite (Epf0 eq_refl). cbn in Hlen. rewrite <- Hlen. reflexivity.
  - rewrite Epf by discriminate. rewrite <- Hlen. cbn [length]. lia. }
assert (Hfiles : Forall2 (fun before after =>
                   JobFile.id after = JobFile.id before /\
                   (JobFile.status after = JobFile.FAILED /\
                    JobFile.error_message after <> "" \/
                    JobFile.status after = JobFile.DONE /\
                    JobFile.error_message after = "" /\
                    is_Some (JobFile.output_size after)))
                   files new).
{ unfold files0 in Hnew. rewrite Forall2_fmap_l in Hnew.
  eapply Forall2_impl; [exact Hnew|]. intros b a (Hid & _ & Ho).
  split; [exact Hid|]. destruct Ho as [(S1 & S2 & _)|(S1 & S2 & S3)]; auto. }
destruct (build_zip (ls_job st') (ls_rows st')) as [[zip|]|exc];
  cbn [run_job run_files]; rewrite En; (split; [exact Hfiles|]);
  (split; [cbn; exact Hpf|]); cbn; destruct (ls_errors st'); auto.
Qed.

End Runs.

Lemma job_done_means_all_done_witness :
  let r := @process_job (demo_env false base_only demo_sizes)
             (demo_job "hero-1920" 1) (demo_files 1) in
  Forall (fun f => JobFile.status f = JobFile.DONE /\ JobFile.error_message f = "")
    (run_files r) /\
  length (run_files r) = length (demo_files 1) /\
  is_Some (Job.result_zip (run_job r)) /\
  Job.error_message (run_job r) = "" /\
  Job.processed_files (run_job r) = Z.of_nat (length (demo_files 1)).
Proof.
apply (@job_done_means_all_done (demo_env false base_only demo_sizes)
         (demo_job "hero-1920" 1) (demo_files 1)).
vm_compute. reflexivity.
Defined.

Lemma interrupted_run_witness :
  let job := demo_job "hero-1920" 3 in
  let r := @process_job (pausing_env 3) job (demo_files 3) in
  exists took done rest,
    demo_files 3 = took ++ rest /\ rest <> [] /\
    run_files r = done ++ rest /\
    Forall2 (fun before after =>
               JobFile.id after = JobFile.id before /\
               (JobFile.status after = JobFile.FAILED /\
                JobFile.error_message after <> "" \/
                JobFile.status after = JobFile.DONE /\
                JobFile.error_message after = "")) took done /\
    Job.processed_files (run_job r) = Z.of_nat (length took) /\
    Job.result_zip (run_job r) = Job.result_zip job /\
    Job.status (run_job r) = @refresh_status (pausing_env 3) (S (length took)).
Proof.
apply (@interrupted_run (pausing_env 3) (demo_job "hero-1920" 3) (demo_files 3)).
- discriminate.
- discriminate.
- left. vm_compute. reflexivity.
Defined.

Lemma reprocess_job_runs_witness :
  let job := Job.mk 1 "hero-1920" Job.PAUSED 33 3 1 None "" in
  let r := @reprocess_job (demo_env false base_only demo_sizes) job (demo_files 3) in
  Forall2 (fun before after =>
             JobFile.id after = JobFile.id before /\
             (JobFile.status after = JobFile.FAILED /\
              JobFile.error_message after <> "" \/
              JobFile.status after = JobFile.DONE /\
              JobFile.error_message after = "" /\
              is_Some (JobFile.output_size after)))
          (demo_files 3) (run_files r) /\
  Job.processed_files (run_job r) = Z.of_nat (length (demo_files 3)) /\
  (Job.status (run_job r) = Job.DONE \/ Job.status (run_job r) = Job.FAILED).
Proof.
apply (@reprocess_job_runs (demo_env false base_only demo_sizes)
         (Job.mk 1 "hero-1920" Job.PAUSED 33 3 1 None "") (demo_files 3)).
- intros index. split; discriminate.
- eexists. vm_compute. reflexivity.
Defined.

(** A run of three files paused before the third: the first is done, the
    second, too large, has failed, both are counted; the third is
    untouched and no archive is stored. *)
Lemma paused_run_example :
  let r := @process_job (pausing_env 3) (demo_job "hero-1920" 3) (demo_files 3) in
  JobFile.status <$> run_files r = [JobFile.DONE; JobFile.FAILED; JobFile.PENDING] /\
  Job.status (run_job r) = Job.PAUSED /\
  Job.processed_files (run_job r) = 2 /\ Job.progress (run_job r) = 66 /\
  Job.result_zip (run_job r) = None.
Proof. vm_compute. repeat split. Qed.

End RunFacts.

Module VariantsFacts.
Import Float64 Float64Facts Geometry GeometryDomain GeometryFacts GeometryBounds.
Import Naming NamingFacts Variants.
Local Open Scope Z_scope.

(** The name given out is a free one. *)
Lemma unique_name_free `{Pathlib} (candidate : pystr) (used_names : gset pystr) :
  default candidate (_ensure_unique_name candidate used_names) ∉ used_names.
Proof.
unfold _ensure_unique_name. case_bool_decide as Hc; [exact Hc|].
destruct (unique_loop (S (size used_names)) (path_stem candidate) (path_suffix candidate)
            used_names 2) as [r|] eqn:E; cbn [default].
- destruct (unique_loop_Some _ _ _ _ _ _ E) as (k & _ & _ & Hr & _). exact Hr.
- exfalso. pose proof (used_candidates_bound _ _ _ _ _ (unique_loop_None _ _ _ _ _ E)). lia.
Qed.

Section Loop.
Context {unicode : Unicode} {pathlib : Pathlib} {codec : Codec} {memory : Memory}.

(** What a round does to the variables: it skips, or it appends one
    variant under a free name, the primary one or not. *)
Lemma variant_round_spec (i : Inputs) (fmt : pystr) (fmt_quality : Z) (scale : Q * string)
    (p p' : Progress) (used used' : gset pystr) :
  variant_round i fmt fmt_quality scale p used = (Ok p', used') ->
  (output_variants p' = output_variants p /\ output_name p' = output_name p /\
   output_size p' = output_size p /\ report_meta p' = report_meta p /\ used' = used /\
   scale.2 = "2x") \/
  exists v resized variant_meta,
    output_variants p' = output_variants p ++ [v] /\
    (v_name v ∉ used) /\ used' = {[ v_name v ]} ∪ used /\
    v_format v = fmt /\ v_scale v = scale.2 /\
    v_width v = width resized /\ v_height v = height resized /\
    _prepare_image (_apply_transparency_rules (in_image i) (in_has_transparency i) fmt
                      (keep_transparency (in_job_file i))).1.1
      (variant_target i scale.1) (ef_resize_mode (in_effective i)) (in_no_upscale i)
      (_extract_crop_data (in_job_file i))
      (in_has_transparency i && bool_decide (fmt = WEBP \/ fmt = PNG)
       && keep_transparency (in_job_file i)) = Ok (resized, variant_meta) /\
    (scale.2 = "2x" -> falls_short resized (variant_target i scale.1) = false) /\
    ((scale.2 = "1x" /\ fmt = primary_format i /\ output_name p = []) /\
     output_name p' = v_name v /\ output_size p' = v_size v /\
     (exists m action, report_meta p' = Some (m, action) /\
        output_width m = v_width v /\ output_height m = v_height v)
     \/
     ~ (scale.2 = "1x" /\ fmt = primary_format i /\ output_name p = []) /\
     output_name p' = output_name p /\ output_size p' = output_size p /\
     report_meta p' = report_meta p).
Proof.
unfold variant_round. destruct scale as [scale_value scale_label]. cbn [fst snd].
destruct (_apply_transparency_rules (in_image i) (in_has_transparency i) fmt
            (keep_transparency (in_job_file i))) as [[variant_image variant_note] action].
cbn [fst].
destruct (_prepare_image variant_image (variant_target i scale_value)
            (ef_resize_mode (in_effective i)) (in_no_upscale i)
            (_extract_crop_data (in_job_file i)) _) as [[resized variant_meta]|exc] eqn:Ep;
  [|discriminate].
destruct (bool_decide (scale_label = "2x") && falls_short resized (variant_target i scale_value))
  eqn:Eskip.
- intros [= <- <-]. left. cbn. apply andb_true_iff in Eskip. destruct Eskip as [E2 _].
  apply bool_decide_eq_true in E2. auto 10.
- set (name := default (name_candidate i fmt scale_label)
                 (_ensure_unique_name (name_candidate i fmt scale_label) used)).
  pose proof (unique_name_free (name_candidate i fmt scale_label) used) as Hfree.
  fold name in Hfree.
  destruct (_render_image resized fmt fmt_quality (keep_metadata (in_job_file i)))
    as [size|exc]; [|discriminate].
  set (is_primary := bool_decide (scale_label = "1x") && bool_decide (fmt = primary_format i)
                     && bool_decide (output_name p = [])).
  assert (Hprim : is_primary = true <->
                  scale_label = "1x" /\ fmt = primary_format i /\ output_name p = []).
  { unfold is_primary. rewrite !andb_true_iff, !bool_decide_eq_true. tauto. }
  assert (Hshort : scale_label = "2x" ->
                   falls_short resized (variant_target i scale_value) = false).
  { intros E2. rewrite (bool_decide_eq_true_2 _ E2) in Eskip. exact Eskip. }
  destruct is_primary eqn:Ei.
  + intros [= <- <-]. right.
    eexists {| v_name := name |}, resized, variant_meta. cbn.
    split; [reflexivity|]. split; [exact Hfree|]. split; [reflexivity|].
    split; [reflexivity|]. split; [reflexivity|]. split; [reflexivity|].
    split; [reflexivity|]. split; [reflexivity|]. split; [exact Hshort|].
    left. split; [apply Hprim; reflexivity|]. split; [reflexivity|]. split; [reflexivity|].
    eexists _, _. split; [reflexivity|]. cbn. auto.
  + destruct (_save_extra_output name size) as [[]|exc]; [|discriminate].
    intros [= <- <-]. right.
    eexists {| v_name := name |}, resized, variant_meta. cbn.
    split; [reflexivity|]. split; [exact Hfree|]. split; [reflexivity|].
    split; [reflexivity|]. split; [reflexivity|]. split; [reflexivity|].
    split; [reflexivity|]. split; [reflexivity|]. split; [exact Hshort|].
    right. split; [|auto]. intros C. apply Hprim in C. discriminate C.
Qed.

(** A round never takes a name out of the shared set, also when it
    raises. *)
Lemma variant_round_used (i : Inputs) (fmt : pystr) (fmt_quality : Z) (scale : Q * string)
    (p : Progress) (used used' : gset pystr) (outcome : result Progress) :
  variant_round i fmt fmt_quality scale p used = (outcome, used') -> used ⊆ used'.
Proof.
unfold variant_round. destruct scale as [scale_value scale_label].
destruct (_apply_transparency_rules _ _ _ _) as [[variant_image variant_note] action].
destruct (_prepare_image _ _ _ _ _ _) as [[resized variant_meta]|exc];
  [|intros [= _ <-]; reflexivity].
match goal with |- context [if ?b then _ else _] => destruct b end;
  [intros [= _ <-]; reflexivity|].
destruct (_render_image _ _ _ _) as [size|exc]; [|intros [= _ <-]; apply union_subseteq_r].
match goal with |- context [if ?b then Ok tt else ?s] => destruct (if b then Ok tt else s)
  as [[]|exc] end; intros [= _ <-]; apply union_subseteq_r.
Qed.

(** Induction over a loop whose rounds keep an invariant. *)
Lemma for_each_invariant {A : Type} (I : Progress -> gset pystr -> Prop)
    (body : A -> Progress -> gset pystr -> result Progress * gset pystr)
    (items : list A) :
  (forall x p u p' u', x ∈ items -> I p u -> body x p u = (Ok p', u') -> I p' u') ->
  forall p u p' u', I p u -> for_each body items p u = (Ok p', u') -> I p' u'.
Proof.
induction items as [|x rest IH]; intros Hb p u p' u' Hi; cbn [for_each].
- intros [= <- <-]. exact Hi.
- destruct (body x p u) as [[p1|exc] u1] eqn:E; [|discriminate].
  apply IH; [|apply (Hb x p u p1 u1); [left | exact Hi | exact E]].
  intros y q v q' v' Hy. apply Hb. right. exact Hy.
Qed.

Lemma for_each_used {A : Type}
    (body : A -> Progress -> gset pystr -> result Progress * gset pystr)
    (items : list A) :
  (forall x p u outcome u', body x p u = (outcome, u') -> u ⊆ u') ->
  forall p u outcome u', for_each body items p u = (outcome, u') -> u ⊆ u'.
Proof.
intros Hb. induction items as [|x rest IH]; intros p u outcome u'; cbn [for_each].
- intros [= _ <-]. reflexivity.
- destruct (body x p u) as [[p1|exc] u1] eqn:E.
  + intros E'. transitivity u1; [apply (Hb _ _ _ _ _ E) | apply (IH _ _ _ _ E')].
  + intros [= _ <-]. apply (Hb _ _ _ _ _ E).
Qed.


Lemma names_ok_round (used0 : gset pystr) (i : Inputs) (fmt : pystr) (fmt_quality : Z)
    (scale : Q * string) (p p' : Progress) (used used' : gset pystr) :
  names_ok used0 p used ->
  variant_round i fmt fmt_quality scale p used = (Ok p', used') ->
  names_ok used0 p' used'.
Proof.
intros (Hnd & Hout & Hu) E.
destruct (variant_round_spec _ _ _ _ _ _ _ _ E)
  as [(E1 & _ & _ & _ & E2 & _)|(v & resized & vm & E1 & Hfree & E2 & _)].
- unfold names_ok. rewrite E1, E2. auto.
- unfold names_ok. rewrite E1, E2, fmap_app. cbn [fmap list_fmap]. split; [|split].
  + apply NoDup_app. split; [exact Hnd|]. split; [|apply NoDup_singleton].
    intros x Hx C. apply list_elem_of_singleton in C. subst x.
    apply Hfree. rewrite Hu. apply elem_of_union. left. apply elem_of_list_to_set. exact Hx.
  + intros w Hw. apply elem_of_app in Hw. destruct Hw as [Hw|Hw]; [apply Hout, Hw|].
    apply list_elem_of_singleton in Hw. subst w. intros C. apply Hfree. rewrite Hu.
    apply elem_of_union. right. exact C.
  + rewrite Hu, list_to_set_app_L. cbn.
    rewrite (right_id_L ∅ (∪)), (comm_L (∪) _ {[v_name v]}), (assoc_L (∪)). reflexivity.
Qed.

(** X24.  The loop over formats and scales never takes a name out of the
    shared set of used names, also when it raises; when it returns, the
    names of the variants it recorded are pairwise distinct, none of them
    was in the set before, and the set holds exactly these names besides
    the names it held. *)
Theorem variant_names_distinct (i : Inputs) (used_names : gset pystr) :
  used_names ⊆ (variants_loop i used_names).2 /\
  match (variants_loop i used_names).1 with
  | Ok p =>
    NoDup (v_name <$> output_variants p) /\
    (forall v, v ∈ output_variants p -> v_name v ∉ used_names) /\
    (variants_loop i used_names).2
      = list_to_set (v_name <$> output_variants p) ∪ used_names
  | Raise _ => True
  end.
Proof.
destruct (variants_loop i used_names) as [outcome used'] eqn:E. cbn [fst snd]. split.
- unfold variants_loop in E. revert E. apply for_each_used.
  intros fmt p u o u'. apply for_each_used.
  intros scale q v o' v'. apply variant_round_used.
- destruct outcome as [p|exc]; [|exact I].
  change (names_ok used_names p used').
  unfold variants_loop in E. revert E.
  apply (for_each_invariant (names_ok used_names)).
  + intros fmt q u q' u' _. apply (for_each_invariant (names_ok used_names)).
    intros scale q0 u0 q1 u1 _. apply names_ok_round.
  + unfold names_ok. cbn. split; [constructor|]. split; [intros v C; inversion C|].
    rewrite (left_id_L ∅ (∪)). reflexivity.
Qed.

Lemma primary_ok_round (i : Inputs) (fmt : pystr) (fmt_quality : Z)
    (scale : Q * string) (p p' : Progress) (used used' : gset pystr) :
  primary_ok i p ->
  variant_round i fmt fmt_quality scale p used = (Ok p', used') ->
  primary_ok i p' /\ (is_Some (report_meta p) -> is_Some (report_meta p')) /\
  (scale.2 = "1x" -> fmt = primary_format i -> is_Some (report_meta p')).
Proof.
intros Hp E.
destruct (variant_round_spec _ _ _ _ _ _ _ _ E)
  as [(E1 & E2 & E3 & E4 & _ & E5)|(v & resized & vm & E1 & _ & _ & Ef & Es & _ & _ & _ & _ & Hcase)].
- unfold primary_ok in *. rewrite E1, E2, E3, E4. split; [exact Hp|]. split; [auto|].
  intros C. rewrite E5 in C. discriminate C.
- destruct Hcase as [(Hprim & En & Esz & (m & a & Em & Ew & Eh))|(Hnot & En & Esz & Em)].
  + unfold primary_ok. rewrite Em, E1, En, Esz. split; [|split; [|]]; [|eauto|eauto].
    exists v. split; [apply elem_of_app; right; left|].
    destruct Hprim as (P1 & P2 & _). repeat split; congruence.
  + unfold primary_ok in *. rewrite Em, E1, En, Esz.
    destruct (report_meta p) as [[m a]|] eqn:Er.
    * split; [|split; eauto].
      destruct Hp as (w & Hw & Hrest). exists w. split; [apply elem_of_app; left; exact Hw|].
      exact Hrest.
    * destruct Hp as (N1 & N2 & N3). split; [|split].
      -- split; [exact N1|]. split; [exact N2|]. intros w Hw.
         apply elem_of_app in Hw. destruct Hw as [Hw|Hw]; [apply N3, Hw|].
         apply list_elem_of_singleton in Hw. subst w. intros [C1 C2]. apply Hnot.
         split; [congruence|]. split; [congruence | exact N1].
      -- intros [x C]; discriminate C.
      -- intros C1 C2. exfalso. apply Hnot. auto.
Qed.

Lemma scales_head (i : Inputs) : exists scale_value rest, scales i = (scale_value, "1x") :: rest.
Proof.
unfold scales. destruct (ef_generate_2x (in_effective i)); [eauto|].
destruct (generate_sharpened i); eauto.
Qed.

(** The inner loop of a format keeps the record of the primary output, and
    leaves one when the format is the primary one. *)
Lemma primary_ok_format (i : Inputs) (fmt : pystr) (fmt_quality : Z)
    (p p' : Progress) (used used' : gset pystr) :
  primary_ok i p ->
  for_each (variant_round i fmt fmt_quality) (scales i) p used = (Ok p', used') ->
  primary_ok i p' /\ (is_Some (report_meta p) -> is_Some (report_meta p')) /\
  (fmt = primary_format i -> is_Some (report_meta p')).
Proof.
intros Hp E.
assert (G : forall l q u q' u', primary_ok i q ->
          for_each (variant_round i fmt fmt_quality) l q u = (Ok q', u') ->
          primary_ok i q' /\ (is_Some (report_meta q) -> is_Some (report_meta q'))).
{ induction l as [|s l IH]; intros q u q' u' Hq; cbn [for_each].
  - intros [= <- <-]. auto.
  - destruct (variant_round i fmt fmt_quality s q u) as [[q1|exc] u1] eqn:E1; [|discriminate].
    destruct (primary_ok_round _ _ _ _ _ _ _ _ Hq E1) as (H1 & H2 & _).
    intros E2. destruct (IH _ _ _ _ H1 E2) as [I1 I2]. auto. }
destruct (G _ _ _ _ _ Hp E) as [G1 G2]. split; [exact G1|]. split; [exact G2|].
intros Ef. destruct (scales_head i) as (sv & rest & Es). rewrite Es in E.
cbn [for_each] in E.
destruct (variant_round i fmt fmt_quality (sv, "1x") p used) as [[q1|exc] u1] eqn:E1;
  [|discriminate].
destruct (primary_ok_round _ _ _ _ _ _ _ _ Hp E1) as (H1 & _ & H3).
destruct (G _ _ _ _ _ H1 E) as [_ G3]. apply G3, H3; [reflexivity | exact Ef].
Qed.

(** X26.  When the loop returns, the primary output it recorded (name,
    size of the bytes, width and height of the report) is that of one of
    the recorded variants, at scale 1x and in the primary format; there is
    one whenever the primary format is among the formats; and with none,
    the name is empty, the size is 0 and no variant is at scale 1x in the
    primary format. *)
Theorem primary_output_is_variant (i : Inputs) (used_names : gset pystr) :
  match (variants_loop i used_names).1 with
  | Ok p =>
    primary_ok i p /\ (primary_format i ∈ formats i -> is_Some (report_meta p))
  | Raise _ => True
  end.
Proof.
destruct (variants_loop i used_names) as [[p|exc] used'] eqn:E; cbn [fst]; [|exact I].
unfold variants_loop in E.
set (p0 := {| output_variants := []; output_size := 0; output_name := [];
              report_meta := None; notes := initial_notes i |}) in E.
assert (H0 : primary_ok i p0).
{ unfold primary_ok, p0. cbn. repeat split. intros v C. inversion C. }
assert (G : forall l q u q' u', primary_ok i q ->
          for_each (fun fmt =>
            for_each (variant_round i fmt
              (_resolve_effective_quality (in_job_file i) fmt (in_analysis_type i)
                 (in_quality_map i) (in_quality i))) (scales i)) l q u = (Ok q', u') ->
          primary_ok i q' /\ (is_Some (report_meta q) -> is_Some (report_meta q')) /\
          (primary_format i ∈ l -> is_Some (report_meta q'))).
{ induction l as [|fmt l IH]; intros q u q' u' Hq; cbn [for_each].
  - intros [= <- <-]. split; [exact Hq|]. split; [auto|]. intros C. inversion C.
  - destruct (for_each _ (scales i) q u) as [[q1|exc] u1] eqn:E1; [|discriminate].
    destruct (primary_ok_format _ _ _ _ _ _ _ Hq E1) as (H1 & H2 & H3).
    intros E2. destruct (IH _ _ _ _ H1 E2) as (I1 & I2 & I3).
    split; [exact I1|]. split; [auto|]. intros C.
    apply elem_of_cons in C. destruct C as [C|C]; [apply I2, H3; congruence | apply I3, C]. }
destruct (G _ _ _ _ _ H0 E) as (G1 & _ & G3). split; [exact G1 | exact G3].
Qed.


Lemma scale_cases (i : Inputs) (scale : Q * string) :
  scale ∈ scales i ->
  scale.2 = "1x" \/
  scale.2 = "2x" /\ scale.1 = 2%Q /\ ef_generate_2x (in_effective i) = true.
Proof.
unfold scales. destruct (ef_generate_2x (in_effective i)).
- intros C. apply elem_of_cons in C. destruct C as [->|C]; [left; reflexivity|].
  apply list_elem_of_singleton in C. subst scale. right. auto.
- destruct (generate_sharpened i); intros C; apply list_elem_of_singleton in C;
    subst scale; left; reflexivity.
Qed.

Lemma variant_target_double (i : Inputs) (bw bh : Z) :
  ef_target_size (in_effective i) = (Some bw, Some bh) ->
  1 <= bw -> 2 * bw <= INT_MAX -> 1 <= bh -> 2 * bh <= INT_MAX ->
  variant_target i 2 = (Some (2 * bw), Some (2 * bh)).
Proof.
intros E Hw1 Hw2 Hh1 Hh2. unfold variant_target. rewrite E. cbn [fst snd truthy_dim].
assert ((bw =? 0) = false) as -> by (apply Z.eqb_neq; lia).
assert ((bh =? 0) = false) as -> by (apply Z.eqb_neq; lia).
assert (D : forall b, 1 <= b -> 2 * b <= INT_MAX -> py_round (fmul (float b) 2) = 2 * b).
{ intros b Hb1 Hb2. apply py_round_Z. unfold fmul.
  assert (Eq : (float b * 2 == inject_Z (2 * b))%Q).
  { rewrite float_dim by lia. rewrite inject_Z_mult. ring. }
  rewrite (rnd_comp _ _ Eq). apply rnd_Z, dim_abs. lia. }
rewrite (D bw Hw1 Hw2), (D bh Hh1 Hh2). reflexivity.
Qed.

Lemma transparency_rules_size (image : Image) (has_transparency : bool) (fmt : pystr)
    (keep : bool) :
  width (_apply_transparency_rules image has_transparency fmt keep).1.1 = width image /\
  height (_apply_transparency_rules image has_transparency fmt keep).1.1 = height image.
Proof.
unfold _apply_transparency_rules.
destruct has_transparency, keep; cbn; try case_bool_decide; cbn; auto.
Qed.

(** X25.  Every recorded variant is at scale 1x or 2x, and one at 2x only
    when the 2x switch is on; a variant at 2x is at least twice the preset
    on both axes; so with no-upscale none is recorded for an original
    smaller than twice the preset on some axis. *)
Theorem double_scale_guard (i : Inputs) (used_names : gset pystr) (bw bh : Z) :
  ef_target_size (in_effective i) = (Some bw, Some bh) ->
  1 <= bw -> 2 * bw <= INT_MAX -> 1 <= bh -> 2 * bh <= INT_MAX ->
  match (variants_loop i used_names).1 with
  | Ok p =>
    forall v, v ∈ output_variants p ->
      (v_scale v = "1x" \/ v_scale v = "2x") /\
      (v_scale v = "2x" ->
       ef_generate_2x (in_effective i) = true /\
       2 * bw <= v_width v /\ 2 * bh <= v_height v /\
       (in_no_upscale i = true -> valid_size (in_image i) ->
        2 * bw <= width (in_image i) /\ 2 * bh <= height (in_image i)))
  | Raise _ => True
  end.
Proof.
intros Et Hw1 Hw2 Hh1 Hh2.
destruct (variants_loop i used_names) as [[p|exc] used'] eqn:E; cbn [fst]; [|exact I].
set (good := fun v : Variant =>
  (v_scale v = "1x" \/ v_scale v = "2x") /\
  (v_scale v = "2x" ->
   ef_generate_2x (in_effective i) = true /\
   2 * bw <= v_width v /\ 2 * bh <= v_height v /\
   (in_no_upscale i = true -> valid_size (in_image i) ->
    2 * bw <= width (in_image i) /\ 2 * bh <= height (in_image i)))).
assert (G : Forall good (output_variants p)); [|rewrite Forall_forall in G; exact G].
unfold variants_loop in E. revert E.
apply (for_each_invariant (fun q _ => Forall good (output_variants q))); [|constructor].
intros fmt q u q' u' _.
apply (for_each_invariant (fun q _ => Forall good (output_variants q))).
intros scale q0 u0 q1 u1 Hs Hq E.
destruct (variant_round_spec _ _ _ _ _ _ _ _ E)
  as [(E1 & _)|(v & resized & vm & E1 & _ & _ & _ & Es & Ew & Eh & Ep & Hshort & _)].
- rewrite E1. exact Hq.
- rewrite E1. apply Forall_app. split; [exact Hq|]. constructor; [|constructor].
  unfold good. rewrite Es, Ew, Eh.
  destruct (scale_cases i scale Hs) as [S1|(S2 & Sv & Sg)].
  + split; [left; exact S1|]. intros C. rewrite S1 in C. discriminate C.
  + split; [right; exact S2|]. intros _. split; [exact Sg|].
    rewrite Sv, (variant_target_double i bw bh Et Hw1 Hw2 Hh1 Hh2) in Ep, Hshort.
    specialize (Hshort S2). unfold falls_short in Hshort. cbn [fst snd truthy_dim] in Hshort.
    assert ((2 * bw =? 0) = false) as Z1 by (apply Z.eqb_neq; lia).
    assert ((2 * bh =? 0) = false) as Z2 by (apply Z.eqb_neq; lia).
    rewrite Z1, Z2 in Hshort. apply orb_false_iff in Hshort. destruct Hshort as [F1 F2].
    apply Z.ltb_ge in F1, F2. split; [exact F1|]. split; [exact F2|].
    intros Hnu Hv. rewrite Hnu in Ep.
    destruct (transparency_rules_size (in_image i) (in_has_transparency i) fmt
                (keep_transparency (in_job_file i))) as [Tw Th].
    set (vi := (_apply_transparency_rules (in_image i) (in_has_transparency i) fmt
                  (keep_transparency (in_job_file i))).1.1) in *.
    assert (Hvi : valid_size vi).
    { destruct Hv. unfold valid_size. rewrite Tw, Th. auto. }
    destruct (prepare_image_spec vi (Some (2 * bw), Some (2 * bh))
                (ef_resize_mode (in_effective i)) (_extract_crop_data (in_job_file i))
                (in_has_transparency i && bool_decide (fmt = WEBP \/ fmt = PNG)
                 && keep_transparency (in_job_file i)) Hvi
                ltac:(cbn; lia) ltac:(cbn; lia))
      as (out & meta & Eo & _ & _ & _ & _ & B1 & B2 & _).
    rewrite Eo in Ep. injection Ep as <- _. lia.
Qed.

End Loop.

Lemma double_scale_guard_witness :
  match (@variants_loop ascii_unicode flat_pathlib demo_codec demo_memory
           (demo_inputs landscape true) ∅).1 with
  | Ok p =>
    forall v, v ∈ output_variants p ->
      (v_scale v = "1x" \/ v_scale v = "2x") /\
      (v_scale v = "2x" ->
       ef_generate_2x (in_effective (demo_inputs landscape true)) = true /\
       2 * 400 <= v_width v /\ 2 * 400 <= v_height v /\
       (in_no_upscale (demo_inputs landscape true) = true ->
        valid_size (in_image (demo_inputs landscape true)) ->
        2 * 400 <= width (in_image (demo_inputs landscape true)) /\
        2 * 400 <= height (in_image (demo_inputs landscape true))))
  | Raise _ => True
  end.
Proof.
apply (@double_scale_guard ascii_unicode flat_pathlib demo_codec demo_memory
         (demo_inputs landscape true) ∅ 400 400).
- reflexivity.
- lia.
- unfold INT_MAX. lia.
- lia.
- unfold INT_MAX. lia.
Defined.

(** The variants of a 1600 x 1200 photo for a 400 x 400 preset in two
    formats, with the 2x switch and without it, the name [mi-foto.webp]
    being taken in the second run; and those of a 320 x 240 image, too
    small for the 2x variants, whose note is added once per format. *)
Lemma variants_examples :
  (let r := @variants_loop ascii_unicode flat_pathlib demo_codec demo_memory
              (demo_inputs landscape true) ∅ in
   exists p, r.1 = Ok p /\
     v_name <$> output_variants p
       = of_string <$> ["mi-foto__ig-post.webp"; "mi-foto__ig-post__2x.webp";
                         "mi-foto__ig-post.jpg"; "mi-foto__ig-post__2x.jpg"] /\
     (fun v => (v_scale v, v_width v, v_height v)) <$> output_variants p
       = [("1x", 400, 400); ("2x", 800, 800); ("1x", 400, 400); ("2x", 800, 800)] /\
     output_name p = of_string "mi-foto__ig-post.webp") /\
  (let r := @variants_loop ascii_unicode flat_pathlib demo_codec demo_memory
              (demo_inputs landscape false) {[ of_string "mi-foto.webp" ]} in
   exists p, r.1 = Ok p /\
     v_name <$> output_variants p = of_string <$> ["mi-foto-2.webp"; "mi-foto.jpg"] /\
     output_name p = of_string "mi-foto-2.webp") /\
  (let r := @variants_loop ascii_unicode flat_pathlib demo_codec demo_memory
              (demo_inputs thumbnail true) ∅ in
   exists p, r.1 = Ok p /\
     (fun v => (v_scale v, v_width v, v_height v)) <$> output_variants p
       = [("1x", 240, 240); ("1x", 240, 240)] /\
     notes p = NOTE_NO_2X +:+ " " +:+ NOTE_NO_2X).
Proof.
split; [|split]; cbv zeta; eexists; (split; [vm_compute; reflexivity|]);
  vm_compute; repeat split.
Qed.

End VariantsFacts.
